(** * aofl: the namespaced expiring cache (cache-manager) and the object-utils
      path recursion, embedded as Rocq functions.

    The cache is stateful JavaScript: every method of [CacheManager] becomes a
    computation in a state-and-exception monad over the pair of the host
    environment (the three storage media, the interval timers, the clock) and
    the instance's own fields.  A JavaScript [throw] is an outcome of the
    computation, and the state reached at the throw is kept.

    What the module imports is modelled beside it: [md5] after RFC 1321, the
    storage objects as key-value lists in insertion order, the timers as a
    table of running intervals.  [JSON.stringify], [JSON.parse] and the
    conversion of strings to numbers are a parameter (the class [Host]); a
    small codec instantiates it where a method is evaluated.

    Numbers are integers plus NaN: the time stamps of [Date.now()] and a ttl
    in milliseconds are integers; fractions and the infinities are left out.
    The clock stands still during one call.  A storage never runs out of
    room. *)

From Stdlib Require Import ZArith List String Ascii Bool Lia DecimalString DecimalPos.
Import ListNotations.
Open Scope string_scope.
Open Scope list_scope.
Open Scope Z_scope.
Set Warnings "-register-all".

(* ================================================================== *)
(** ** MD5 (RFC 1321), the hash behind [import md5 from 'tiny-js-md5']

    32-bit words are [Z] with the wrap-around written out; the digest is the
    usual 32 lower-case hexadecimal digits. *)

Module MD5.

Definition two32 : Z := 4294967296.

Definition add32 (a b : Z) : Z := (a + b) mod two32.

Definition not32 (a : Z) : Z := Z.lxor a (two32 - 1).

Definition rotl32 (x n : Z) : Z :=
  Z.lor (Z.shiftl x n mod two32) (Z.shiftr x (32 - n)).

(** floor(2^32 * abs(sin(i + 1))) for i = 0..63 *)
Definition K : list Z :=
  [ 3614090360; 3905402710; 606105819; 3250441966;
    4118548399; 1200080426; 2821735955; 4249261313;
    1770035416; 2336552879; 4294925233; 2304563134;
    1804603682; 4254626195; 2792965006; 1236535329;
    4129170786; 3225465664; 643717713; 3921069994;
    3593408605; 38016083; 3634488961; 3889429448;
    568446438; 3275163606; 4107603335; 1163531501;
    2850285829; 4243563512; 1735328473; 2368359562;
    4294588738; 2272392833; 1839030562; 4259657740;
    2763975236; 1272893353; 4139469664; 3200236656;
    681279174; 3936430074; 3572445317; 76029189;
    3654602809; 3873151461; 530742520; 3299628645;
    4096336452; 1126891415; 2878612391; 4237533241;
    1700485571; 2399980690; 4293915773; 2240044497;
    1873313359; 4264355552; 2734768916; 1309151649;
    4149444226; 3174756917; 718787259; 3951481745 ].

Definition shifts : list Z :=
  [ 7; 12; 17; 22; 7; 12; 17; 22; 7; 12; 17; 22; 7; 12; 17; 22;
    5; 9; 14; 20; 5; 9; 14; 20; 5; 9; 14; 20; 5; 9; 14; 20;
    4; 11; 16; 23; 4; 11; 16; 23; 4; 11; 16; 23; 4; 11; 16; 23;
    6; 10; 15; 21; 6; 10; 15; 21; 6; 10; 15; 21; 6; 10; 15; 21 ].

Definition bytes_of_string (s : string) : list Z :=
  map (fun c => Z.of_N (N_of_ascii c)) (list_ascii_of_string s).

(** message, then 0x80, then zeros up to 56 mod 64, then the bit length as
    eight little-endian bytes *)
Definition le_bytes (count : nat) (x : Z) : list Z :=
  map (fun i => Z.shiftr x (8 * Z.of_nat i) mod 256) (seq 0 count).

Definition pad (msg : list Z) : list Z :=
  let len := Z.of_nat (List.length msg) in
  let zeros := Z.to_nat ((55 - len) mod 64) in
  msg ++ [128] ++ repeat 0 zeros ++ le_bytes 8 (8 * len).

Fixpoint words_of_bytes (bs : list Z) : list Z :=
  match bs with
  | b0 :: b1 :: b2 :: b3 :: rest =>
      (b0 + 256 * b1 + 65536 * b2 + 16777216 * b3) :: words_of_bytes rest
  | _ => []
  end.

Fixpoint blocks (fuel : nat) (ws : list Z) : list (list Z) :=
  match fuel, ws with
  | _, [] => []
  | O, _ => []
  | S fuel', _ => firstn 16 ws :: blocks fuel' (skipn 16 ws)
  end.

Record regs : Type := mkRegs { ra : Z; rb : Z; rc : Z; rd : Z }.

Definition round (m : list Z) (r : regs) (i : nat) : regs :=
  let iz := Z.of_nat i in
  let '(mkRegs a b c d) := r in
  let '(f, g) :=
    if iz <? 16 then (Z.lor (Z.land b c) (Z.land (not32 b) d), iz)
    else if iz <? 32 then
      (Z.lor (Z.land d b) (Z.land (not32 d) c), (5 * iz + 1) mod 16)
    else if iz <? 48 then (Z.lxor b (Z.lxor c d), (3 * iz + 5) mod 16)
    else (Z.lxor c (Z.lor b (not32 d)), (7 * iz) mod 16) in
  let f' := add32 (add32 (add32 f a) (nth i K 0)) (nth (Z.to_nat g) m 0) in
  mkRegs d (add32 b (rotl32 f' (nth i shifts 0))) b c.

Definition compress (r : regs) (m : list Z) : regs :=
  let r' := fold_left (round m) (seq 0 64) r in
  mkRegs (add32 (ra r) (ra r')) (add32 (rb r) (rb r'))
         (add32 (rc r) (rc r')) (add32 (rd r) (rd r')).

Definition init : regs := mkRegs 1732584193 4023233417 2562383102 271733878.

Definition hex_digit (n : Z) : ascii :=
  nth (Z.to_nat n) (list_ascii_of_string "0123456789abcdef") "0"%char.

Definition hex_byte (b : Z) : list ascii := [hex_digit (b / 16); hex_digit (b mod 16)].

Definition digest (s : string) : string :=
  let ws := words_of_bytes (pad (bytes_of_string s)) in
  let r := fold_left compress (blocks (List.length ws) ws) init in
  string_of_list_ascii
    (flat_map hex_byte
       (le_bytes 4 (ra r) ++ le_bytes 4 (rb r) ++ le_bytes 4 (rc r) ++ le_bytes 4 (rd r))).

End MD5.

Definition md5 (key : string) : string := MD5.digest key.

(* ================================================================== *)
(** ** JavaScript values *)

Inductive jsval : Type :=
| JUndefined
| JNull
| JBool (b : bool)
| JNum (z : Z)
| JNaN
| JStr (s : string)
| JArr (items : list jsval)
| JObj (fields : list (string * jsval)).

(** A number as the result of a conversion: [None] is NaN. *)
Definition jsnum : Type := option Z.

Definition js_lt (a b : jsnum) : bool :=
  match a, b with
  | Some x, Some y => x <? y
  | _, _ => false
  end.

Definition js_le (a b : jsnum) : bool :=
  match a, b with
  | Some x, Some y => x <=? y
  | _, _ => false
  end.

Definition js_sub (a b : jsnum) : jsnum :=
  match a, b with
  | Some x, Some y => Some (x - y)
  | _, _ => None
  end.

(** [typeof v === 'number'] *)
Definition typeof_number (v : jsval) : bool :=
  match v with
  | JNum _ | JNaN => true
  | _ => false
  end.

(** [v === null] *)
Definition is_null (v : jsval) : bool :=
  match v with
  | JNull => true
  | _ => false
  end.

Definition string_of_Z (z : Z) : string := NilZero.string_of_int (Z.to_int z).

Fixpoint join (sep : string) (parts : list string) : string :=
  match parts with
  | [] => ""
  | [p] => p
  | p :: rest => p ++ sep ++ join sep rest
  end.

(** ToString.  An array joins its elements with commas, null and undefined
    elements giving the empty string; a plain object is "[object Object]". *)
Fixpoint ToString (v : jsval) : string :=
  match v with
  | JUndefined => "undefined"
  | JNull => "null"
  | JBool true => "true"
  | JBool false => "false"
  | JNum z => string_of_Z z
  | JNaN => "NaN"
  | JStr s => s
  | JArr items =>
      join ","
        (map (fun item =>
                match item with
                | JUndefined | JNull => ""
                | _ => ToString item
                end) items)
  | JObj _ => "[object Object]"
  end.

(** Plain objects are association lists in insertion order, one entry per
    property name. *)
Fixpoint alist_get {A : Type} (l : list (string * A)) (key : string) : option A :=
  match l with
  | [] => None
  | (k, a) :: rest => if String.eqb k key then Some a else alist_get rest key
  end.

Fixpoint alist_set {A : Type} (l : list (string * A)) (key : string) (a : A)
  : list (string * A) :=
  match l with
  | [] => [(key, a)]
  | (k, b) :: rest =>
      if String.eqb k key then (k, a) :: rest else (k, b) :: alist_set rest key a
  end.

Fixpoint alist_remove {A : Type} (l : list (string * A)) (key : string)
  : list (string * A) :=
  match l with
  | [] => []
  | (k, b) :: rest =>
      if String.eqb k key then alist_remove rest key else (k, b) :: alist_remove rest key
  end.

(** [o[key] = value] on a plain object: own properties in insertion order;
    the name "__proto__" reaches the prototype setter and makes no own
    property. *)
Definition object_set (o : list (string * jsval)) (key : string) (value : jsval)
  : list (string * jsval) :=
  if String.eqb key "__proto__" then o else alist_set o key value.

(** What the module takes from the JavaScript host besides the storage
    objects and the timers: the JSON codec and the conversion of a string to a
    number.  [JSON_parse] answers [None] where [JSON.parse] throws a
    SyntaxError. *)
Class Host : Type := {
  JSON_stringify : jsval -> string;
  JSON_parse : string -> option jsval;
  StringToNumber : string -> jsnum
}.

(* ================================================================== *)
(** ** The environment and the instance *)

Inductive error : Type := SyntaxError | TypeError.

Inductive outcome (A : Type) : Type :=
| Return (a : A)
| Throw (e : error).
Arguments Return {A} a.
Arguments Throw {A} e.

(** The three backends, as the values of the [STORAGE] table name them. *)
Inductive Storage : Type := localStorage | sessionStorage | MemoryStorage.

(** Modelled from the spec: memory-storage.js is not part of the sources.
    [MemoryStorage] is the in-process volatile map of the Backend Adapter
    ([memory_items]): get answers the raw value or null for a missing key,
    set stores the value as it is, remove deletes the key, and the keys can be
    enumerated.  [localStorage] and [sessionStorage] are the host's stores of
    strings.  The own keys of each are enumerated in insertion order. *)
Record World : Type := mkWorld {
  local_items : list (string * string);
  session_items : list (string * string);
  memory_items : list (string * jsval);
  timers : list (Z * Z);          (* interval id, delay in ms *)
  next_timer : Z;
  clock : Z                       (* Date.now() *)
}.

(** Modelled from the spec: cache-type-enumerate.js is not part of the
    sources.  The three recognized selectors are in-memory, local-persistent
    and session-persistent; [OTHER] stands for any other value a caller
    passes as the selector. *)
Inductive cacheTypeEnumerate : Type :=
| LOCAL
| SESSION
| MEMORY
| OTHER (selector : string).

(** The property names every object literal inherits from
    [Object.prototype] (ECMAScript, with its Annex B). *)
Definition Object_prototype : list string :=
  ["constructor"; "hasOwnProperty"; "isPrototypeOf"; "propertyIsEnumerable";
   "toLocaleString"; "toString"; "valueOf"; "__proto__";
   "__defineGetter__"; "__defineSetter__"; "__lookupGetter__"; "__lookupSetter__"].

Definition inherited (selector : string) : bool :=
  existsb (String.eqb selector) Object_prototype.

(** What [this.storage] can hold: one of the three backends, or the
    member of [Object.prototype] a selector of that name reads off the
    table.  Such a member is a function ([Object.prototype] itself for
    "__proto__"): it has no enumerable property and no [getItem],
    [setItem] or [removeItem]. *)
Inductive StorageObject : Type :=
| Backend (st : Storage)
| Inherited (member : string).

(** [STORAGE[storageType]].  The table is an object literal with the three
    selectors as its own properties: any other selector reads undefined
    ([None]), unless it names a member of [Object.prototype], which the
    lookup then finds up the prototype chain. *)
Definition STORAGE (storageType : cacheTypeEnumerate) : option StorageObject :=
  match storageType with
  | LOCAL => Some (Backend localStorage)
  | SESSION => Some (Backend sessionStorage)
  | MEMORY => Some (Backend MemoryStorage)
  | OTHER selector => if inherited selector then Some (Inherited selector) else None
  end.

Definition MAX_SIGNED_INT : Z := 2147483647.

Record CacheManager : Type := mkCacheManager {
  storage : option StorageObject;
  storageType : cacheTypeEnumerate;
  namespace : string;
  storedKeys : list string;
  expire : jsval;                 (* this[EXPIRE_SYMBOL] *)
  interval : jsval
}.

Definition state : Type := (World * CacheManager)%type.

Definition M (A : Type) : Type := state -> outcome A * state.

Definition ret {A : Type} (a : A) : M A := fun s => (Return a, s).

Definition throw {A : Type} (e : error) : M A := fun s => (Throw e, s).

Definition bind {A B : Type} (m : M A) (k : A -> M B) : M B :=
  fun s =>
    match m s with
    | (Return a, s') => k a s'
    | (Throw e, s') => (Throw e, s')
    end.

(** [try { m } catch (e) { handler }]: the handler starts in the state the
    throw left. *)
Definition try_catch {A : Type} (m : M A) (handler : M A) : M A :=
  fun s =>
    match m s with
    | (Return a, s') => (Return a, s')
    | (Throw _, s') => handler s'
    end.

Notation "x <- m ;; k" := (bind m (fun x => k))
  (at level 61, m at next level, right associativity).
Notation "m ;;; k" := (bind m (fun _ => k))
  (at level 61, right associativity).

Definition get_this : M CacheManager := fun s => (Return (snd s), s).

Definition get_world : M World := fun s => (Return (fst s), s).

Definition put_this (this : CacheManager) : M unit := fun s => (Return tt, (fst s, this)).

Definition put_world (w : World) : M unit := fun s => (Return tt, (w, snd s)).

Definition Date_now : M Z := fun s => (Return (clock (fst s)), s).

Definition set_storedKeys (keys : list string) : M unit :=
  this <- get_this ;;
  put_this (mkCacheManager (storage this) (storageType this) (namespace this)
              keys (expire this) (interval this)).

Definition set_expire_field (value : jsval) : M unit :=
  this <- get_this ;;
  put_this (mkCacheManager (storage this) (storageType this) (namespace this)
              (storedKeys this) value (interval this)).

Definition set_interval_field (value : jsval) : M unit :=
  this <- get_this ;;
  put_this (mkCacheManager (storage this) (storageType this) (namespace this)
              (storedKeys this) (expire this) value).

(** *** The storage objects *)

Definition storage_keys (st : Storage) (w : World) : list string :=
  match st with
  | localStorage => map fst (local_items w)
  | sessionStorage => map fst (session_items w)
  | MemoryStorage => map fst (memory_items w)
  end.

Definition storage_get (st : Storage) (key : string) (w : World) : jsval :=
  match st with
  | localStorage =>
      match alist_get (local_items w) key with Some s => JStr s | None => JNull end
  | sessionStorage =>
      match alist_get (session_items w) key with Some s => JStr s | None => JNull end
  | MemoryStorage =>
      match alist_get (memory_items w) key with Some v => v | None => JNull end
  end.

Definition storage_set (st : Storage) (key : string) (value : jsval) (w : World) : World :=
  match st with
  | localStorage =>
      mkWorld (alist_set (local_items w) key (ToString value)) (session_items w)
        (memory_items w) (timers w) (next_timer w) (clock w)
  | sessionStorage =>
      mkWorld (local_items w) (alist_set (session_items w) key (ToString value))
        (memory_items w) (timers w) (next_timer w) (clock w)
  | MemoryStorage =>
      mkWorld (local_items w) (session_items w)
        (alist_set (memory_items w) key value) (timers w) (next_timer w) (clock w)
  end.

Definition storage_remove (st : Storage) (key : string) (w : World) : World :=
  match st with
  | localStorage =>
      mkWorld (alist_remove (local_items w) key) (session_items w)
        (memory_items w) (timers w) (next_timer w) (clock w)
  | sessionStorage =>
      mkWorld (local_items w) (alist_remove (session_items w) key)
        (memory_items w) (timers w) (next_timer w) (clock w)
  | MemoryStorage =>
      mkWorld (local_items w) (session_items w)
        (alist_remove (memory_items w) key) (timers w) (next_timer w) (clock w)
  end.

(** [this.storage.m(...)]: a TypeError when [this.storage] is undefined
    (no property can be read off it) and when it is an inherited member
    (it has no method [m] to call) *)
Definition this_storage : M Storage :=
  this <- get_this ;;
  match storage this with
  | Some (Backend st) => ret st
  | Some (Inherited _) => throw TypeError
  | None => throw TypeError
  end.

Definition storage_getItem (key : string) : M jsval :=
  st <- this_storage ;;
  w <- get_world ;;
  ret (storage_get st key w).

Definition storage_setItem (key : string) (value : jsval) : M unit :=
  st <- this_storage ;;
  w <- get_world ;;
  put_world (storage_set st key value w).

Definition storage_removeItem (key : string) : M unit :=
  st <- this_storage ;;
  w <- get_world ;;
  put_world (storage_remove st key w).

(** *** Timers *)

Definition clearInterval (handle : jsval) : M unit :=
  match handle with
  | JNum id =>
      w <- get_world ;;
      put_world (mkWorld (local_items w) (session_items w) (memory_items w)
                   (filter (fun t => negb (fst t =? id)) (timers w))
                   (next_timer w) (clock w))
  | _ => ret tt
  end.

Definition setInterval (delay : Z) : M Z :=
  w <- get_world ;;
  put_world (mkWorld (local_items w) (session_items w) (memory_items w)
               (timers w ++ [(next_timer w, delay)])
               (next_timer w + 1) (clock w)) ;;;
  ret (next_timer w).

(** *** Array and object primitives *)

(** [keys.indexOf(key)], -1 when absent *)
Fixpoint indexOf (keys : list string) (key : string) : Z :=
  match keys with
  | [] => -1
  | k :: rest =>
      if String.eqb k key then 0
      else let i := indexOf rest key in if i <? 0 then -1 else i + 1
  end.

(** [keys.splice(index, 1)] for an index inside the array *)
Fixpoint splice1 (keys : list string) (index : nat) : list string :=
  match keys, index with
  | [], _ => []
  | _ :: rest, O => rest
  | k :: rest, S index' => k :: splice1 rest index'
  end.

(** [o.p]: a TypeError on undefined and null, undefined when [o] has no
    such property *)
Definition get_prop (o : jsval) (p : string) : M jsval :=
  match o with
  | JUndefined | JNull => throw TypeError
  | JObj fields =>
      match alist_get fields p with
      | Some v => ret v
      | None => ret JUndefined
      end
  | _ => ret JUndefined
  end.

(** [Object.hasOwnProperty.call(o, p)] for a property name that is not an
    index or "length" *)
Definition hasOwnProperty (o : jsval) (p : string) : M bool :=
  match o with
  | JUndefined | JNull => throw TypeError
  | JObj fields =>
      match alist_get fields p with
      | Some _ => ret true
      | None => ret false
      end
  | _ => ret false
  end.

Section Cache.

Context {host : Host}.

Definition ToNumber (v : jsval) : jsnum :=
  match v with
  | JUndefined => None
  | JNull => Some 0
  | JBool true => Some 1
  | JBool false => Some 0
  | JNum z => Some z
  | JNaN => None
  | JStr s => StringToNumber s
  | JArr _ | JObj _ => StringToNumber (ToString v)
  end.

(** [JSON.parse(v)]: the argument is converted to a string first; null
    becomes the text of the literal null, which parses to null *)
Definition JSON_parse_value (v : jsval) : M jsval :=
  match v with
  | JNull => ret JNull
  | _ =>
      match JSON_parse (ToString v) with
      | Some parsed => ret parsed
      | None => throw SyntaxError
      end
  end.

Definition is_text (storageType : cacheTypeEnumerate) : bool :=
  match storageType with
  | LOCAL | SESSION => true
  | _ => false
  end.

(** *** The methods of the class *)

Definition getStoredKeys : M (list string) :=
  this <- get_this ;;
  w <- get_world ;;
  match storage this with
  | None => ret []     (* for-in over undefined runs no iteration *)
  | Some (Inherited _) => ret []     (* no enumerable property *)
  | Some (Backend st) =>
      ret (filter (fun key => prefix (namespace this ++ "_") key) (storage_keys st w))
  end.

Definition getNamespaceKey (this : CacheManager) (key : string) : string :=
  if -1 <? indexOf (storedKeys this) key then key
  else namespace this ++ "_" ++ md5 key.

Definition setItem (key : string) (value : jsval) : M unit :=
  now <- Date_now ;;
  this <- get_this ;;
  let obj := JObj [("t", JNum now); ("v", value)] in
  let obj := if is_text (storageType this) then JStr (JSON_stringify obj) else obj in
  let namespaceKey := getNamespaceKey this key in
  storage_setItem namespaceKey obj ;;;
  this <- get_this ;;
  set_storedKeys (storedKeys this ++ [namespaceKey]).

Definition removeItem (key : string) : M unit :=
  this <- get_this ;;
  let namespaceKey := getNamespaceKey this key in
  let index := indexOf (storedKeys this) namespaceKey in
  if -1 <? index then
    storage_removeItem namespaceKey ;;;
    this <- get_this ;;
    set_storedKeys (splice1 (storedKeys this) (Z.to_nat index))
  else ret tt.

Definition isExpired (key : string) : M bool :=
  this <- get_this ;;
  if negb (typeof_number (expire this)) || js_le (ToNumber (expire this)) (Some 0)
  then ret false
  else
    let namespaceKey := getNamespaceKey this key in
    raw <- storage_getItem namespaceKey ;;
    obj <- (if is_text (storageType this)
            then try_catch (JSON_parse_value raw) (ret raw)
            else ret raw) ;;
    if is_null obj then ret true
    else
      t <- get_prop obj "t" ;;
      now <- Date_now ;;
      ret (js_lt (ToNumber t) (js_sub (Some now) (ToNumber (expire this)))).

Definition getItem (key : string) : M jsval :=
  this <- get_this ;;
  raw <- storage_getItem (getNamespaceKey this key) ;;
  obj <- (if is_text (storageType this) then JSON_parse_value raw else ret raw) ;;
  own <- (if is_null obj then ret false else hasOwnProperty obj "t") ;;
  if own then
    expired <- isExpired key ;;
    if expired then removeItem key ;;; ret JNull
    else get_prop obj "v"
  else ret obj.

(** [for (let i = 0; i < this.storedKeys.length; i++)]: the length is read
    again at every turn, the body may shorten the array. *)
Fixpoint getCollection_loop (fuel i : nat) (collection : list (string * jsval))
  : M (list (string * jsval)) :=
  match fuel with
  | O => ret collection
  | S fuel' =>
      this <- get_this ;;
      match nth_error (storedKeys this) i with
      | None => ret collection
      | Some key =>
          expired <- isExpired key ;;
          if expired then getCollection_loop fuel' (S i) collection
          else
            v <- getItem key ;;
            getCollection_loop fuel' (S i) (object_set collection key v)
      end
  end.

Definition getCollection : M (list (string * jsval)) :=
  keys <- getStoredKeys ;;
  set_storedKeys keys ;;;
  getCollection_loop (List.length keys) 0 [].

Definition size : M Z :=
  collection <- getCollection ;;
  ret (Z.of_nat (List.length collection)).

(** The body of [clear]'s loop leaves [storedKeys] alone, so the loop runs
    over the array as it is on entry. *)
Fixpoint clear_loop (keys : list string) : M unit :=
  match keys with
  | [] => ret tt
  | key :: rest => storage_removeItem key ;;; clear_loop rest
  end.

Definition clear : M unit :=
  this <- get_this ;;
  clear_loop (storedKeys this) ;;;
  set_storedKeys [].

Fixpoint removeExpired_loop (fuel i : nat) : M unit :=
  match fuel with
  | O => ret tt
  | S fuel' =>
      this <- get_this ;;
      match nth_error (storedKeys this) i with
      | None => ret tt
      | Some key =>
          expired <- isExpired key ;;
          (if expired then removeItem key else ret tt) ;;;
          removeExpired_loop fuel' (S i)
      end
  end.

Definition removeExpired : M unit :=
  this <- get_this ;;
  removeExpired_loop (List.length (storedKeys this)) 0.

(** [set expire(value)] *)
Definition set_expire (value : jsval) : M unit :=
  set_expire_field value ;;;
  this <- get_this ;;
  (if negb (is_null (interval this)) then clearInterval (interval this) else ret tt) ;;;
  if js_lt (Some 0) (ToNumber value) && js_lt (ToNumber value) (Some MAX_SIGNED_INT)
  then
    id <- setInterval (match ToNumber value with Some delay => delay | None => 0 end) ;;
    set_interval_field (JNum id)
  else ret tt.

(** A parameter with a default, [(parameter = default)]: the default is
    taken when the argument is left out ([None]) and when it is undefined. *)
Definition default_parameter (argument : option jsval) (default : jsval) : jsval :=
  match argument with
  | None | Some JUndefined => default
  | Some given => given
  end.

(** [new CacheManager(namespace, storageType, expire)].  The selector left
    out or undefined is [None] and takes its default; [expire] takes its
    default in the same two cases.  A fresh object has no [interval]
    property: reading it gives undefined. *)
Definition constructor (namespace : string) (storageType : option cacheTypeEnumerate)
    (expire : option jsval) (w : World) : outcome CacheManager * World :=
  let storageType := match storageType with Some t => t | None => MEMORY end in
  let expire := default_parameter expire (JNum 3600000) in
  let this := mkCacheManager (STORAGE storageType) storageType namespace []
                JUndefined JUndefined in
  match (keys <- getStoredKeys ;; set_storedKeys keys ;;; set_expire expire) (w, this) with
  | (Return _, (w', this')) => (Return this', w')
  | (Throw e, (w', _)) => (Throw e, w')
  end.

End Cache.

(* ================================================================== *)
(** ** A host to run the model on

    A JSON codec for the values of the model (integers for numbers, strings
    as byte sequences) and the conversion of decimal integer literals.  The
    theorems on the cache hold for every host; this one evaluates the methods
    on concrete inputs. *)

Module Json.

Definition hex_digit (n : N) : ascii :=
  nth (N.to_nat n) (list_ascii_of_string "0123456789abcdef") "0"%char.

Definition dquote : ascii := ascii_of_N 34.

Definition is_dquote (c : ascii) : bool := (N_of_ascii c =? 34)%N.

(** a string literal: the quote, the backslash and the control characters
    are escaped *)
Definition escape_char (c : ascii) : list ascii :=
  let n := N_of_ascii c in
  if (n =? 34)%N then ["\"%char; dquote]
  else if (n =? 92)%N then ["\"; "\"]%char
  else if (n =? 8)%N then ["\"; "b"]%char
  else if (n =? 9)%N then ["\"; "t"]%char
  else if (n =? 10)%N then ["\"; "n"]%char
  else if (n =? 12)%N then ["\"; "f"]%char
  else if (n =? 13)%N then ["\"; "r"]%char
  else if (n <? 32)%N then
    ["\"; "u"; "0"; "0"; hex_digit (n / 16); hex_digit (n mod 16)]%char
  else [c].

Definition quote (s : string) : string :=
  string_of_list_ascii
    ([dquote] ++ flat_map escape_char (list_ascii_of_string s) ++ [dquote]).

(** [JSON.stringify]: NaN and an undefined array element print as null, a
    property whose value is undefined is left out *)
Fixpoint stringify (v : jsval) : string :=
  match v with
  | JUndefined => "undefined"
  | JNull => "null"
  | JBool true => "true"
  | JBool false => "false"
  | JNum z => string_of_Z z
  | JNaN => "null"
  | JStr s => quote s
  | JArr items =>
      ("[" ++ join ","
                (map (fun item =>
                        match item with
                        | JUndefined => "null"
                        | _ => stringify item
                        end) items) ++ "]")%string
  | JObj fields =>
      ("{" ++ join ","
                (flat_map (fun field =>
                             match field with
                             | (_, JUndefined) => []
                             | (name, value) =>
                                 [(quote name ++ ":" ++ stringify value)%string]
                             end) fields) ++ "}")%string
  end.

Definition is_ws (c : ascii) : bool :=
  let n := N_of_ascii c in
  ((n =? 32) || (n =? 9) || (n =? 10) || (n =? 13))%N.

Fixpoint skip_ws (cs : list ascii) : list ascii :=
  match cs with
  | c :: rest => if is_ws c then skip_ws rest else cs
  | [] => []
  end.

Definition digit_value (c : ascii) : option Z :=
  let n := N_of_ascii c in
  if ((48 <=? n) && (n <=? 57))%N then Some (Z.of_N n - 48) else None.

Definition hex_value (c : ascii) : option N :=
  let n := N_of_ascii c in
  if ((48 <=? n) && (n <=? 57))%N then Some (n - 48)%N
  else if ((97 <=? n) && (n <=? 102))%N then Some (n - 87)%N
  else if ((65 <=? n) && (n <=? 70))%N then Some (n - 55)%N
  else None.

(** the digits at the head of [cs], their value so far in [acc] *)
Fixpoint parse_digits (cs : list ascii) (acc : Z) : Z * list ascii :=
  match cs with
  | c :: rest =>
      match digit_value c with
      | Some d => parse_digits rest (10 * acc + d)
      | None => (acc, cs)
      end
  | [] => (acc, [])
  end.

(** an integer literal; a fraction or an exponent is outside the model *)
Definition parse_number (cs : list ascii) : option (jsval * list ascii) :=
  let '(negative, body) :=
    match cs with
    | "-"%char :: rest => (true, rest)
    | _ => (false, cs)
    end in
  match body with
  | c :: rest =>
      match digit_value c with
      | Some d =>
          let '(n, rest') := if d =? 0 then (0, rest) else parse_digits rest d in
          match rest' with
          | "."%char :: _ | "e"%char :: _ | "E"%char :: _ => None
          | _ => Some (JNum (if negative then - n else n), rest')
          end
      | None => None
      end
  | [] => None
  end.

(** the rest of a string literal after its opening quote *)
Fixpoint parse_string (cs : list ascii) (acc : list ascii) : option (string * list ascii) :=
  match cs with
  | [] => None
  | "\"%char :: "u"%char :: "0"%char :: "0"%char :: h :: l :: rest =>
      match hex_value h, hex_value l with
      | Some hv, Some lv => parse_string rest (ascii_of_N (16 * hv + lv) :: acc)
      | _, _ => None
      end
  | "\"%char :: e :: rest =>
      let n := N_of_ascii e in
      if (n =? 34)%N then parse_string rest (e :: acc)
      else if (n =? 92)%N then parse_string rest (e :: acc)
      else if (n =? 47)%N then parse_string rest (e :: acc)
      else if (n =? 98)%N then parse_string rest (ascii_of_N 8 :: acc)
      else if (n =? 116)%N then parse_string rest (ascii_of_N 9 :: acc)
      else if (n =? 110)%N then parse_string rest (ascii_of_N 10 :: acc)
      else if (n =? 102)%N then parse_string rest (ascii_of_N 12 :: acc)
      else if (n =? 114)%N then parse_string rest (ascii_of_N 13 :: acc)
      else None
  | c :: rest =>
      if is_dquote c then Some (string_of_list_ascii (rev acc), rest)
      else if (N_of_ascii c <? 32)%N then None
      else parse_string rest (c :: acc)
  end.

Fixpoint parse_value (fuel : nat) (cs : list ascii) : option (jsval * list ascii) :=
  match fuel with
  | O => None
  | S fuel' =>
      match skip_ws cs with
      | "n"%char :: "u"%char :: "l"%char :: "l"%char :: rest => Some (JNull, rest)
      | "t"%char :: "r"%char :: "u"%char :: "e"%char :: rest => Some (JBool true, rest)
      | "f"%char :: "a"%char :: "l"%char :: "s"%char :: "e"%char :: rest =>
          Some (JBool false, rest)
      | "["%char :: rest =>
          match skip_ws rest with
          | "]"%char :: rest' => Some (JArr [], rest')
          | _ => parse_elements fuel' rest []
          end
      | "{"%char :: rest =>
          match skip_ws rest with
          | "}"%char :: rest' => Some (JObj [], rest')
          | _ => parse_members fuel' rest []
          end
      | c :: rest =>
          if is_dquote c then
            match parse_string rest [] with
            | Some (s, rest') => Some (JStr s, rest')
            | None => None
            end
          else parse_number (c :: rest)
      | [] => None
      end
  end

with parse_elements (fuel : nat) (cs : list ascii) (acc : list jsval)
  : option (jsval * list ascii) :=
  match fuel with
  | O => None
  | S fuel' =>
      match parse_value fuel' cs with
      | Some (v, rest) =>
          match skip_ws rest with
          | ","%char :: rest' => parse_elements fuel' rest' (v :: acc)
          | "]"%char :: rest' => Some (JArr (rev (v :: acc)), rest')
          | _ => None
          end
      | None => None
      end
  end

with parse_members (fuel : nat) (cs : list ascii) (acc : list (string * jsval))
  : option (jsval * list ascii) :=
  match fuel with
  | O => None
  | S fuel' =>
      match skip_ws cs with
      | c :: rest =>
          match (if is_dquote c then parse_string rest [] else None) with
          | Some (key, rest') =>
              match skip_ws rest' with
              | ":"%char :: rest'' =>
                  match parse_value fuel' rest'' with
                  | Some (v, rest3) =>
                      match skip_ws rest3 with
                      | ","%char :: rest4 => parse_members fuel' rest4 (alist_set acc key v)
                      | "}"%char :: rest4 => Some (JObj (alist_set acc key v), rest4)
                      | _ => None
                      end
                  | None => None
                  end
              | _ => None
              end
          | None => None
          end
      | _ => None
      end
  end.

(** [JSON.parse]: one value, white space around it, nothing after it *)
Definition parse (s : string) : option jsval :=
  let cs := list_ascii_of_string s in
  match parse_value (S (List.length cs)) cs with
  | Some (v, rest) =>
      match skip_ws rest with
      | [] => Some v
      | _ => None
      end
  | None => None
  end.

(** the number a string of decimal digits with an optional sign denotes, 0
    for the empty string, NaN otherwise *)
Definition to_number (s : string) : jsnum :=
  let cs := skip_ws (list_ascii_of_string s) in
  let '(negative, body) :=
    match cs with
    | "-"%char :: rest => (true, rest)
    | "+"%char :: rest => (false, rest)
    | _ => (false, cs)
    end in
  match cs, body with
  | [], _ => Some 0
  | _, [] => None
  | _, _ =>
      let '(n, rest) := parse_digits body 0 in
      match skip_ws rest with
      | [] => Some (if negative then - n else n)
      | _ => None
      end
  end.

End Json.

#[export] Instance model_host : Host := {
  JSON_stringify := Json.stringify;
  JSON_parse := Json.parse;
  StringToNumber := Json.to_number
}.

(* ================================================================== *)
(** ** Runs of calls *)

Definition set_clock (now : Z) (w : World) : World :=
  mkWorld (local_items w) (session_items w) (memory_items w) (timers w)
    (next_timer w) now.

(** the same state when the clock reads [now] *)
Definition at_time (now : Z) (s : state) : state := (set_clock now (fst s), snd s).

Inductive call : Type :=
| SetItem (key : string) (value : jsval)
| GetItem (key : string)
| RemoveItem (key : string)
| Clear
| RemoveExpired                  (* also what the interval timer runs *)
| GetCollection
| Size
| IsExpired (key : string)
| SetExpire (value : jsval).

Section Runs.

Context {host : Host}.

Definition perform (c : call) : M unit :=
  match c with
  | SetItem key value => setItem key value
  | GetItem key => getItem key ;;; ret tt
  | RemoveItem key => removeItem key
  | Clear => clear
  | RemoveExpired => removeExpired
  | GetCollection => getCollection ;;; ret tt
  | Size => size ;;; ret tt
  | IsExpired key => isExpired key ;;; ret tt
  | SetExpire value => set_expire value
  end.

(** One instance: each call is made at its own clock reading; a call that
    throws leaves the state it reached. *)
Fixpoint run (calls : list (Z * call)) (s : state) : state :=
  match calls with
  | [] => s
  | (now, c) :: rest => run rest (snd (perform c (at_time now s)))
  end.

(** Two instances over one environment. *)
Inductive party : Type := First | Second.

Definition party_eqb (p q : party) : bool :=
  match p, q with
  | First, First | Second, Second => true
  | _, _ => false
  end.

Record System : Type := mkSystem {
  world : World;
  first : CacheManager;
  second : CacheManager
}.

Definition instance_of (p : party) (sys : System) : CacheManager :=
  match p with
  | First => first sys
  | Second => second sys
  end.

Definition other (p : party) : party :=
  match p with
  | First => Second
  | Second => First
  end.

Definition step (sys : System) (p : party) (now : Z) (c : call) : System :=
  let '(w, this) := snd (perform c (set_clock now (world sys), instance_of p sys)) in
  match p with
  | First => mkSystem w this (second sys)
  | Second => mkSystem w (first sys) this
  end.

(** the storage key a call writes, if it is a [setItem] *)
Definition written_key (this : CacheManager) (c : call) : list string :=
  match c with
  | SetItem key _ => [getNamespaceKey this key]
  | _ => []
  end.

(** the system after the calls, and who wrote which storage key on the way *)
Fixpoint run_system (calls : list (party * Z * call)) (sys : System)
  : System * list (party * string) :=
  match calls with
  | [] => (sys, [])
  | (p, now, c) :: rest =>
      let writes := map (fun key => (p, key)) (written_key (instance_of p sys) c) in
      let '(sys', log) := run_system rest (step sys p now c) in
      (sys', writes ++ log)
  end.

End Runs.

(* ================================================================== *)
(** ** object-utils: [recurseObjectByPath] *)

Module ObjectUtils.

(** [pat] occurs in [s] *)
Fixpoint contains (pat s : string) : bool :=
  prefix pat s ||
  match s with
  | EmptyString => false
  | String _ rest => contains pat rest
  end.

(** [/__proto__|constructor|prototype/.test(key)] *)
Definition isPrototypePolluted (key : string) : bool :=
  contains "__proto__" key || contains "constructor" key || contains "prototype" key.

(** [path.split('.')] of a path that is not empty *)
Fixpoint split_dots (cs : list ascii) (current : list ascii) : list string :=
  match cs with
  | [] => [string_of_list_ascii (rev current)]
  | c :: rest =>
      if (N_of_ascii c =? 46)%N
      then string_of_list_ascii (rev current) :: split_dots rest []
      else split_dots rest (c :: current)
  end.

(** [path === '' ? '' : path.split('.')]; the empty string has length 0 and
    stands here as the empty array *)
Definition pathParts (path : string) : list string :=
  match path with
  | EmptyString => []
  | _ => split_dots (list_ascii_of_string path) []
  end.

(** What a callback [op(key, subPath, source, recurse)] does, as far as
    [recurseObjectByPath] can see it: it returns, it throws, or it calls
    [recurse] and goes on with the answer. *)
Inductive behaviour : Type :=
| Done (result : jsval)
| Raise (e : error)
| Recurse (argPathParts : list string) (source : jsval) (next : jsval -> behaviour).

Definition operation : Type := string -> list string -> jsval -> behaviour.

(** The inner [recurse].  The answer is the outcome ([None] when the fuel
    ran out, the recursion being the callback's) and, in order, every key
    the callback has been invoked with. *)
Fixpoint recurse (fuel : nat) (op : operation) (argPathParts : list string)
    (source : jsval) : option (outcome jsval) * list string :=
  match fuel with
  | O => (None, [])
  | S fuel' =>
      let key := hd "" argPathParts in
      let subPath := tl argPathParts in
      if isPrototypePolluted key then (Some (Return JUndefined), [])
      else
        let '(result, invoked) :=
          (fix go (b : behaviour) : option (outcome jsval) * list string :=
             match b with
             | Done result => (Some (Return result), [])
             | Raise e => (Some (Throw e), [])
             | Recurse parts src next =>
                 match recurse fuel' op parts src with
                 | (Some (Return answer), inner) =>
                     let '(result, later) := go (next answer) in
                     (result, inner ++ later)
                 | (stopped, inner) => (stopped, inner)
                 end
             end) (op key subPath source) in
        (result, key :: invoked)
  end.

Definition recurseObjectByPath (fuel : nat) (obj : jsval) (path : string)
    (op : operation) : option (outcome jsval) * list string :=
  recurse fuel op (pathParts path) obj.

(** a callback to run [recurseObjectByPath] with: it follows the path to its
    end through the properties of the source *)
Definition follow_path : operation :=
  fun key subPath source =>
    match subPath with
    | [] =>
        match source with
        | JObj fields =>
            match alist_get fields key with
            | Some v => Done v
            | None => Done JUndefined
            end
        | _ => Done JUndefined
        end
    | _ =>
        match source with
        | JObj fields =>
            match alist_get fields key with
            | Some v => Recurse subPath v Done
            | None => Done JUndefined
            end
        | _ => Done JUndefined
        end
    end.

End ObjectUtils.

(* ================================================================== *)
(** ** More of the class: disposal *)

Section Disposal.

Context {host : Host}.

(** [destruct()]: [clearInterval(this.interval)], then every field is set to
    null; the assignment of null to [expire] runs the setter.  The instance
    has no field left to read afterwards, so the computation answers with
    the environment alone. *)
Definition destruct (s : state) : World :=
  fst (snd ((this <- get_this ;;
             clearInterval (interval this) ;;;
             set_expire JNull) s)).

End Disposal.

(* ================================================================== *)
(** ** form-validate: [isAllDigits] *)

Module FormValidate.

(** ToBoolean *)
Definition truthy (v : jsval) : bool :=
  match v with
  | JUndefined | JNull | JNaN => false
  | JBool b => b
  | JNum z => negb (z =? 0)
  | JStr s => negb (String.eqb s "")
  | JArr _ | JObj _ => true
  end.

Definition is_digit (c : ascii) : bool :=
  let n := N_of_ascii c in ((48 <=? n) && (n <=? 57))%N.

(** [[0-9]*$]: digits up to the end of the input *)
Fixpoint digits_to_end (s : string) : bool :=
  match s with
  | EmptyString => true
  | String c rest => is_digit c && digits_to_end rest
  end.

(** [allDigitRegex.test(s)] for [/^[0-9]+$/]: without the m flag the two
    anchors are the two ends of the input *)
Definition allDigitRegex_test (s : string) : bool :=
  match s with
  | EmptyString => false
  | String c rest => is_digit c && digits_to_end rest
  end.

(** [Boolean(value && allDigitRegex.test(String(value)))].  [String(value)]
    is [ToString]; for a number it is the decimal numeral, which is what
    JavaScript prints below 10^21. *)
Definition isAllDigits (value : jsval) : bool :=
  if truthy value then allDigitRegex_test (ToString value) else false.

End FormValidate.

(* ================================================================== *)
(** ** router: the match-route middleware's [matchBestPath] *)

Module MatchRoute.

(** A route object: its [path], its compiled [regex] (whether [regex.exec]
    finds a match in a string; the expression carries no g or y flag, so
    [exec] keeps no position between calls) and its other own properties. *)
Record Route := {
  path : string;
  regex : string -> bool;
  props : list (string * jsval)
}.

Definition with_path (route : Route) (p : string) : Route :=
  {| path := p; regex := regex route; props := props route |}.

(** [stack.shift()] and [stack.push(route)] *)
Definition shift (stack : list Route) : list Route := tl stack.
Definition push (stack : list Route) (route : Route) : list Route := stack ++ [route].

Section PathUtils.

(** The four functions of [PathUtils] the matcher calls. *)
Variable cleanPath : string -> string.
Variable removeTrailingSlash : string -> string.
Variable getPathSegments : string -> list string.
Variable matchingSegmentsCount : list string -> list string -> Z.

(** [route.path = PathUtils.removeTrailingSlash(PathUtils.cleanPath(route.path))] *)
Definition cleaned (route : Route) : Route :=
  with_path route (removeTrailingSlash (cleanPath (path route))).

(** The route's cleaned path is not the target. *)
Definition inexact (target : string) (route : Route) : Prop :=
  String.eqb target (path (cleaned route)) = false.

(** The [for] loop from index i on: [routes] are the routes not yet
    visited, the result is the stack at the end of the loop and the same
    routes as the loop leaves them (a visited route has its path
    rewritten; after a [break] the remaining ones are untouched). *)
Fixpoint matchBestPath_loop (target : string) (routes stack : list Route)
  : list Route * list Route :=
  match routes with
  | [] => (stack, [])
  | route0 :: rest =>
      let route := cleaned route0 in
      if String.eqb target (path route) then
        (push (shift stack) route, route :: rest)
      else
        let stack' :=
          if regex route target then
            match stack with
            | [] => push stack route
            | last :: _ =>
                let pathSegments := getPathSegments target in
                let routeSegments := getPathSegments (path route) in
                let lastSegments := getPathSegments (path last) in
                let routeSegmentMatchesCount :=
                  matchingSegmentsCount pathSegments routeSegments in
                let lastSegmentMatchesCount :=
                  matchingSegmentsCount pathSegments lastSegments in
                if routeSegmentMatchesCount >? lastSegmentMatchesCount
                then push (shift stack) route
                else stack
            end
          else stack in
        let (final, rest') := matchBestPath_loop target rest stack' in
        (final, route :: rest')
  end.

(** [matchBestPath(_path, routes)]: the returned copy of the match ([None]
    for null) and the [routes] array as the call leaves it. *)
Definition matchBestPath (_path : string) (routes : list Route)
  : option Route * list Route :=
  let target := removeTrailingSlash (cleanPath _path) in
  let (stack, routes') := matchBestPath_loop target routes [] in
  (hd_error stack, routes').

(** How many leading segments of the target a route shares with it. *)
Definition score (target : string) (route : Route) : Z :=
  matchingSegmentsCount (getPathSegments target) (getPathSegments (path route)).

End PathUtils.

End MatchRoute.

(* ================================================================== *)
(** ** The vocabulary of the statements *)

(** *** Instances and environments *)

Definition empty_world : World := mkWorld [] [] [] [] 1 0.

Definition with_storedKeys (this : CacheManager) (keys : list string) : CacheManager :=
  mkCacheManager (storage this) (storageType this) (namespace this) keys
    (expire this) (interval this).

(** the backend [this.storage] is, when it is one *)
Definition backend_of (this : CacheManager) : option Storage :=
  match storage this with
  | Some (Backend st) => Some st
  | _ => None
  end.

(** the keys [getStoredKeys] finds *)
Definition scanned (w : World) (this : CacheManager) : list string :=
  match storage this with
  | None => []
  | Some (Inherited _) => []
  | Some (Backend st) =>
      filter (fun key => prefix (namespace this ++ "_") key) (storage_keys st w)
  end.

(** the instance before the constructor assigns [expire] *)
Definition scanned_instance (namespace : string) (storageType : cacheTypeEnumerate)
    (w : World) : CacheManager :=
  let this0 := mkCacheManager (STORAGE storageType) storageType namespace []
                 JUndefined JUndefined in
  with_storedKeys this0 (scanned w this0).

(** the tracked keys all start with the namespace and an underscore *)
Definition tracked_ok (this : CacheManager) : Prop :=
  forall key, In key (storedKeys this) -> prefix (namespace this ++ "_") key = true.

(** *** Entries *)

(** the object [setItem] builds, and what it hands to the backend *)
Definition envelope (now : Z) (value : jsval) : jsval :=
  JObj [("t", JNum now); ("v", value)].

Definition stored_form {host : Host} (storageType : cacheTypeEnumerate) (obj : jsval) : jsval :=
  if is_text storageType then JStr (JSON_stringify obj) else obj.

(** the value survives [JSON.stringify] and [JSON.parse] inside its envelope *)
Definition serializable {host : Host} (t0 : Z) (value : jsval) : Prop :=
  JSON_parse (JSON_stringify (envelope t0 value)) = Some (envelope t0 value).

(** the test of [isExpired] on an entry stamped [t0], read at [now] *)
Definition expired_at {host : Host} (ttl : jsval) (t0 now : Z) : bool :=
  if negb (typeof_number ttl) || js_le (ToNumber ttl) (Some 0) then false
  else js_lt (Some t0) (js_sub (Some now) (ToNumber ttl)).

(** *** The sweep timer *)

(** the test of the setter: [value > 0 && value < MAX_SIGNED_INT] *)
Definition schedulable {host : Host} (value : jsval) : bool :=
  js_lt (Some 0) (ToNumber value) && js_lt (ToNumber value) (Some MAX_SIGNED_INT).

(** the world once [clearInterval(handle)] has run *)
Definition cancelled (handle : jsval) (w : World) : World :=
  match handle with
  | JNum id =>
      mkWorld (local_items w) (session_items w) (memory_items w)
        (filter (fun t => negb (fst t =? id)) (timers w)) (next_timer w) (clock w)
  | _ => w
  end.

Definition with_timer (delay : Z) (w : World) : World :=
  mkWorld (local_items w) (session_items w) (memory_items w)
    (timers w ++ [(next_timer w, delay)]) (next_timer w + 1) (clock w).

(** the instance's interval handle names a running timer of that delay *)
Definition sweep_scheduled (s : state) (delay : Z) : Prop :=
  exists id, interval (snd s) = JNum id /\ In (id, delay) (timers (fst s)).

(** *** What a computation leaves alone *)

(** a computation that touches the environment only *)
Definition world_only {A : Type} (m : M A) : Prop :=
  forall s, snd (snd (m s)) = snd s.

(** a computation that changes nothing *)
Definition read_only {A : Type} (m : M A) : Prop :=
  forall s, snd (m s) = s.

(** A relation between the instance before and after a computation. *)
Definition respects (R : CacheManager -> CacheManager -> Prop) {A : Type} (m : M A) : Prop :=
  forall s, R (snd s) (snd (snd (m s))).

(** The instance keeps its namespace and its backend, and a key that enters
    the tracked keys starts with the namespace and an underscore. *)
Definition evolves (this this' : CacheManager) : Prop :=
  namespace this' = namespace this
  /\ storage this' = storage this
  /\ storageType this' = storageType this
  /\ (forall key, In key (storedKeys this') ->
                  In key (storedKeys this) \/ prefix (namespace this ++ "_") key = true).

Definition stays {A : Type} (m : M A) : Prop := respects evolves m.

Definition shrinks (this this' : CacheManager) : Prop :=
  (List.length (storedKeys this') <= List.length (storedKeys this))%nat.

Definition system_ok (sys : System) : Prop :=
  tracked_ok (first sys) /\ tracked_ok (second sys).

(** *** The instances and environments of the examples *)

(** the instance [new CacheManager('ns')] makes in an empty environment *)
Definition fresh_ns : CacheManager :=
  mkCacheManager (Some (Backend MemoryStorage)) MEMORY "ns" [] (JNum 3600000) (JNum 1).

(** namespace "users", ttl 1000 ms *)
Definition users (storageType : cacheTypeEnumerate) : CacheManager :=
  mkCacheManager (STORAGE storageType) storageType "users" [] (JNum 1000) (JNum 1).

Definition alice : jsval := JObj [("age", JNum 30)].

(** a local storage in which the entry of "alice" is not JSON *)
Definition malformed_world : World :=
  mkWorld [("users_6384e2b2184bcbf58eccf10ca7a6563c", "{bad")] [] [] [] 1 0.

Definition users_over_malformed : CacheManager :=
  mkCacheManager (Some (Backend localStorage)) LOCAL "users"
    ["users_6384e2b2184bcbf58eccf10ca7a6563c"] (JNum 1000) (JNum 1).

(** the instances [new CacheManager(namespace)] of two namespaces, made one
    after the other in an empty environment *)
Definition pair_of (first_namespace second_namespace : string) : System :=
  mkSystem (mkWorld [] [] [] [(1, 3600000); (2, 3600000)] 3 0)
    (mkCacheManager (Some (Backend MemoryStorage)) MEMORY first_namespace [] (JNum 3600000) (JNum 1))
    (mkCacheManager (Some (Backend MemoryStorage)) MEMORY second_namespace [] (JNum 3600000) (JNum 2)).

Ltac unfold_monad :=
  unfold set_storedKeys, set_expire_field, set_interval_field, storage_getItem,
    storage_setItem, storage_removeItem, this_storage in *;
  unfold bind, ret, throw, get_this, get_world, put_this, put_world, Date_now in *;
  simpl in *.

(** *** More vocabulary *)

(** the calls of [removeExpired], [n] times in a row at one clock reading *)
Fixpoint sweeps {host : Host} (n : nat) (s : state) : state :=
  match n with
  | O => s
  | S n' => sweeps n' (snd (removeExpired s))
  end.

(** [getCollection]'s loop over a list of keys, in a state that stays *)
Fixpoint collect {host : Host} (keys : list string) (collection : list (string * jsval))
    (s : state) : outcome (list (string * jsval)) :=
  match keys with
  | [] => Return collection
  | key :: rest =>
      match fst (isExpired key s) with
      | Return true => collect rest collection s
      | Return false =>
          match fst (getItem key s) with
          | Return v => collect rest (object_set collection key v) s
          | Throw e => Throw e
          end
      | Throw e => Throw e
      end
  end.

(** the life of one instance: each call is made in an environment that
    anything else (another instance, another page) may have left *)
Fixpoint life {host : Host} (calls : list (World * call)) (this : CacheManager)
  : CacheManager :=
  match calls with
  | [] => this
  | (w, c) :: rest => life rest (snd (snd (perform c (w, this))))
  end.

(** the storage once [keys] have been removed one after the other *)
Definition without (st : Storage) (keys : list string) (w : World) : World :=
  fold_left (fun w' key => storage_remove st key w') keys w.

(** [isExpired] throws on no tracked key *)
Definition no_throw {host : Host} (s : state) : Prop :=
  forall key e, In key (storedKeys (snd s)) -> fst (isExpired key s) <> Throw e.

(** an entry worth collecting: a key that can be an own property, not
    expired, and the value [getItem] returns for it *)
Definition collectable {host : Host} (s : state) (key : string) (v : jsval) : Prop :=
  key <> "__proto__"
  /\ fst (isExpired key s) = Return false
  /\ fst (getItem key s) = Return v.

(** the answer of [isExpired] from what it reads: the ttl, the kind of
    backend, the raw entry under the derived key ([None] when there is no
    storage object) and the clock *)
Definition expiry {host : Host} (ttl : jsval) (storageType : cacheTypeEnumerate)
    (raw : option jsval) (now : Z) : outcome bool :=
  if negb (typeof_number ttl) || js_le (ToNumber ttl) (Some 0) then Return false
  else
    match raw with
    | None => Throw TypeError
    | Some raw =>
        let obj :=
          if is_text storageType
          then match raw with
               | JNull => JNull
               | _ => match JSON_parse (ToString raw) with
                      | Some parsed => parsed
                      | None => raw
                      end
               end
          else raw in
        match obj with
        | JNull => Return true
        | JUndefined => Throw TypeError
        | JObj fields =>
            Return (js_lt (ToNumber (match alist_get fields "t" with
                                     | Some t => t
                                     | None => JUndefined
                                     end))
                      (js_sub (Some now) (ToNumber ttl)))
        | _ => Return (js_lt (ToNumber JUndefined) (js_sub (Some now) (ToNumber ttl)))
        end
    end.

(** what a removal by the sweep keeps: the backend, and that [isExpired]
    throws on no tracked key *)
Definition sweepable {host : Host} (st : Storage) (s : state) : Prop :=
  storage (snd s) = Some (Backend st) /\ no_throw s.

(** "alice" written at 0 and "bob" at 1500 under a ttl of 1000, seen at 2000 *)
Definition alice_then_bob : state :=
  at_time 2000
    (run [(0, SetItem "alice" alice); (1500, SetItem "bob" (JNum 2))]
       (empty_world, users MEMORY)).

(** *** Callbacks of [recurseObjectByPath] *)

(** a callback that descends along the path: at the last segment it answers
    [leaf key source]; before, it calls [recurse(subPath, child key source)]
    and returns the answer *)
Definition descend (child leaf : string -> jsval -> jsval) : ObjectUtils.operation :=
  fun key subPath source =>
    match subPath with
    | [] => ObjectUtils.Done (leaf key source)
    | _ => ObjectUtils.Recurse subPath (child key source) ObjectUtils.Done
    end.

(** the segments ahead of the first one that [isPrototypePolluted] refuses *)
Fixpoint clean_prefix (parts : list string) : list string :=
  match parts with
  | [] => []
  | key :: rest =>
      if ObjectUtils.isPrototypePolluted key then [] else key :: clean_prefix rest
  end.

(** Three routes to try the matcher on, with stand-ins for [PathUtils]:
    paths are taken as they are, a path is one segment, and the count is 1
    for equal segment lists and 0 otherwise. *)
Definition same_segments (a b : list string) : Z :=
  if list_eq_dec string_dec a b then 1 else 0.

Definition whole (s : string) : list string := [s].

Definition as_is (s : string) : string := s.

Definition any_route : MatchRoute.Route :=
  {| MatchRoute.path := "/:any"; MatchRoute.regex := prefix "/"; MatchRoute.props := [] |}.

Definition user_route : MatchRoute.Route :=
  {| MatchRoute.path := "/user"; MatchRoute.regex := prefix "/user";
     MatchRoute.props := [("title", JStr "User")] |}.

Definition home_route : MatchRoute.Route :=
  {| MatchRoute.path := "/"; MatchRoute.regex := String.eqb "/"; MatchRoute.props := [] |}.

(* ================================================================== *)
(** * Properties *)

(** ** MD5 on the test suite of RFC 1321 *)

Example md5_empty : md5 "" = "d41d8cd98f00b204e9800998ecf8427e".
Proof. vm_compute. reflexivity. Qed.

Example md5_a : md5 "a" = "0cc175b9c0f1b6a831c399e269772661".
Proof. vm_compute. reflexivity. Qed.

Example md5_abc : md5 "abc" = "900150983cd24fb0d6963f7d28e17f72".
Proof. vm_compute. reflexivity. Qed.

Example md5_message_digest : md5 "message digest" = "f96b697d7cb7938d525a2f31aaf161d0".
Proof. vm_compute. reflexivity. Qed.

Example md5_two_blocks :
  md5 "aaaaaaaaaaaaaaaaaaaaaaaaaaaaaaaaaaaaaaaaaaaaaaaaaaaaaaaaaaaaaaaa"
  = "014842d480b571495a4a0363793f7367".
Proof. vm_compute. reflexivity. Qed.

(** ** The prototype-pollution guard of [recurseObjectByPath] *)

Module ObjectUtilsFacts.
Import ObjectUtils.

Lemma recurse_invokes_clean (fuel : nat) (op : operation) :
  forall argPathParts source,
    Forall (fun key => isPrototypePolluted key = false) (snd (recurse fuel op argPathParts source)).
Proof.
  induction fuel as [|fuel IH]; intros parts source; simpl.
  - constructor.
  - destruct (isPrototypePolluted (hd "" parts)) eqn:Hkey; simpl.
    + constructor.
    + set (go := fix go (b : behaviour) : option (outcome jsval) * list string :=
             match b with
             | Done result => (Some (Return result), [])
             | Raise e => (Some (Throw e), [])
             | Recurse parts src next =>
                 match recurse fuel op parts src with
                 | (Some (Return answer), inner) =>
                     let '(result, later) := go (next answer) in
                     (result, inner ++ later)
                 | (stopped, inner) => (stopped, inner)
                 end
             end).
      assert (Hgo : forall b, Forall (fun key => isPrototypePolluted key = false) (snd (go b))).
      { induction b as [result|e|parts' src next IHb]; simpl.
        - constructor.
        - constructor.
        - specialize (IH parts' src).
          destruct (recurse fuel op parts' src) as [[[answer|e]|] inner]; simpl in *.
          + specialize (IHb answer).
            destruct (go (next answer)) as [result later]; simpl in *.
            apply Forall_app. split; assumption.
          + assumption.
          + assumption. }
      specialize (Hgo (op (hd "" parts) (tl parts) source)).
      destruct (go (op (hd "" parts) (tl parts) source)) as [result invoked].
      simpl in *. constructor; assumption.
Qed.

(** C10. Whatever the object, the path and the callback, and however far the
    recursion is run, [recurseObjectByPath] invokes the callback only with a
    key (the path segment at hand) in which none of "__proto__",
    "constructor" and "prototype" occurs; and a call of [recurse] whose first
    segment has such an occurrence returns undefined ahead of any invocation
    of the callback. *)
Theorem recurseObjectByPath_guards_prototype :
  (forall fuel obj path op,
      Forall (fun key => isPrototypePolluted key = false)
        (snd (recurseObjectByPath fuel obj path op)))
  /\ (forall fuel op key subPath source,
         isPrototypePolluted key = true ->
         recurse (S fuel) op (key :: subPath) source = (Some (Return JUndefined), [])).
Proof.
  split.
  - intros fuel obj path op. unfold recurseObjectByPath.
    apply (recurse_invokes_clean fuel op).
  - intros fuel op key subPath source Hkey. simpl. rewrite Hkey. reflexivity.
Qed.

End ObjectUtilsFacts.

(** C10, on a path that runs through "__proto__". *)
Lemma recurseObjectByPath_guards_prototype_witness :
  ObjectUtils.isPrototypePolluted "__proto__" = true
  /\ ObjectUtils.recurse 1 ObjectUtils.follow_path ["__proto__"; "polluted"] (JObj [])
     = (Some (Return JUndefined), [])
  /\ Forall (fun key => ObjectUtils.isPrototypePolluted key = false)
       (snd (ObjectUtils.recurseObjectByPath 5 (JObj [("a", JObj [])])
               "a.__proto__.polluted" ObjectUtils.follow_path)).
Proof.
  split; [reflexivity|]. split.
  - apply (proj2 ObjectUtilsFacts.recurseObjectByPath_guards_prototype). reflexivity.
  - apply (proj1 ObjectUtilsFacts.recurseObjectByPath_guards_prototype).
Defined.

(* ================================================================== *)
(** ** Arrays, association lists and prefixes *)

Lemma indexOf_lower (keys : list string) (key : string) : -1 <= indexOf keys key.
Proof.
  induction keys as [|k rest IH]; simpl; [lia|].
  destruct (String.eqb k key); [lia|].
  destruct (indexOf rest key <? 0) eqn:E; [lia|].
  apply Z.ltb_ge in E. lia.
Qed.

Lemma indexOf_found (keys : list string) (key : string) :
  (-1 <? indexOf keys key) = true <-> In key keys.
Proof.
  induction keys as [|k rest IH]; simpl.
  - split; [discriminate|tauto].
  - destruct (String.eqb k key) eqn:Ek.
    + apply String.eqb_eq in Ek. split; [auto|reflexivity].
    + apply String.eqb_neq in Ek.
      destruct (indexOf rest key <? 0) eqn:E.
      * split; [discriminate|].
        intros [H|H]; [contradiction|].
        apply IH in H. apply Z.ltb_lt in H, E. lia.
      * apply Z.ltb_ge in E. split.
        -- intros _. right. apply IH. apply Z.ltb_lt. lia.
        -- intros _. apply Z.ltb_lt. lia.
Qed.

Lemma indexOf_absent (keys : list string) (key : string) :
  (-1 <? indexOf keys key) = false <-> ~ In key keys.
Proof.
  rewrite <- indexOf_found. destruct (-1 <? indexOf keys key); split; congruence.
Qed.

Lemma indexOf_nth (keys : list string) (key : string) :
  In key keys -> nth_error keys (Z.to_nat (indexOf keys key)) = Some key.
Proof.
  induction keys as [|k rest IH]; simpl; [tauto|].
  intros Hin. destruct (String.eqb k key) eqn:Ek.
  - apply String.eqb_eq in Ek. subst. reflexivity.
  - apply String.eqb_neq in Ek. destruct Hin as [H|H]; [contradiction|].
    pose proof (proj2 (indexOf_found rest key) H) as Hf. apply Z.ltb_lt in Hf.
    destruct (indexOf rest key <? 0) eqn:E; [apply Z.ltb_lt in E; lia|].
    replace (Z.to_nat (indexOf rest key + 1)) with (S (Z.to_nat (indexOf rest key))) by lia.
    simpl. apply IH. exact H.
Qed.

Lemma splice1_subset (keys : list string) (index : nat) (key : string) :
  In key (splice1 keys index) -> In key keys.
Proof.
  revert index. induction keys as [|k rest IH]; intros index; simpl; [tauto|].
  destruct index as [|index]; simpl.
  - auto.
  - intros [H|H]; [auto|]. right. apply (IH index). exact H.
Qed.

Lemma splice1_length (keys : list string) (index : nat) :
  (List.length (splice1 keys index) <= List.length keys)%nat.
Proof.
  revert index. induction keys as [|k rest IH]; intros index; simpl; [lia|].
  destruct index as [|index]; simpl; [lia|]. specialize (IH index). lia.
Qed.

Lemma alist_get_set_same {A : Type} (l : list (string * A)) (key : string) (a : A) :
  alist_get (alist_set l key a) key = Some a.
Proof.
  induction l as [|[k b] rest IH]; simpl.
  - rewrite String.eqb_refl. reflexivity.
  - destruct (String.eqb k key) eqn:E; simpl; rewrite E; [reflexivity|exact IH].
Qed.

Lemma alist_get_remove_same {A : Type} (l : list (string * A)) (key : string) :
  alist_get (alist_remove l key) key = None.
Proof.
  induction l as [|[k b] rest IH]; simpl; [reflexivity|].
  destruct (String.eqb k key) eqn:E; simpl; [exact IH|rewrite E; exact IH].
Qed.

Lemma alist_set_keys {A : Type} (l : list (string * A)) (key : string) (a : A) (k : string) :
  In k (map fst (alist_set l key a)) -> k = key \/ In k (map fst l).
Proof.
  induction l as [|[k0 b] rest IH]; simpl.
  - intros [H|H]; [auto|tauto].
  - destruct (String.eqb k0 key) eqn:E; simpl.
    + intros [H|H]; auto.
    + intros [H|H]; [auto|]. destruct (IH H); auto.
Qed.

Lemma object_set_keys (o : list (string * jsval)) (key : string) (v : jsval) (k : string) :
  In k (map fst (object_set o key v)) -> k = key \/ In k (map fst o).
Proof.
  unfold object_set. destruct (String.eqb key "__proto__"); [auto|apply alist_set_keys].
Qed.

Lemma prefix_append (a b : string) : prefix a (a ++ b) = true.
Proof.
  induction a as [|c a IH]; simpl.
  - destruct b; reflexivity.
  - destruct (ascii_dec c c) as [_|n]; [exact IH|contradiction].
Qed.

Lemma append_assoc (a b c : string) : ((a ++ b) ++ c = a ++ (b ++ c))%string.
Proof. induction a as [|x a IH]; simpl; [reflexivity|rewrite IH; reflexivity]. Qed.

(** two prefixes of one string: one is a prefix of the other *)
Lemma prefix_comparable (a b s : string) :
  prefix a s = true -> prefix b s = true -> prefix a b = true \/ prefix b a = true.
Proof.
  revert b s. induction a as [|x a IH]; intros b s Ha Hb.
  - left. destruct b; reflexivity.
  - destruct b as [|y b].
    + right. reflexivity.
    + destruct s as [|z s]; simpl in Ha, Hb; [discriminate|].
      destruct (ascii_dec x z) as [Hx|]; [|discriminate].
      destruct (ascii_dec y z) as [Hy|]; [|discriminate].
      subst. simpl. destruct (ascii_dec z z) as [_|n]; [|contradiction].
      apply (IH b s); assumption.
Qed.

(* ================================================================== *)
(** ** Key derivation *)

Lemma getNamespaceKey_tracked (this : CacheManager) (key : string) :
  In key (storedKeys this) -> getNamespaceKey this key = key.
Proof.
  intros H. unfold getNamespaceKey.
  rewrite (proj2 (indexOf_found _ _) H). reflexivity.
Qed.

Lemma getNamespaceKey_untracked (this : CacheManager) (key : string) :
  ~ In key (storedKeys this) ->
  getNamespaceKey this key = (namespace this ++ "_" ++ md5 key)%string.
Proof.
  intros H. unfold getNamespaceKey.
  rewrite (proj2 (indexOf_absent _ _) H). reflexivity.
Qed.

Lemma getNamespaceKey_prefix (this : CacheManager) (key : string) :
  tracked_ok this -> prefix (namespace this ++ "_") (getNamespaceKey this key) = true.
Proof.
  intros Hok. destruct (in_dec string_dec key (storedKeys this)) as [Hin|Hout].
  - rewrite (getNamespaceKey_tracked _ _ Hin). apply Hok. exact Hin.
  - rewrite (getNamespaceKey_untracked _ _ Hout).
    rewrite <- append_assoc. apply prefix_append.
Qed.

(* ================================================================== *)
(** ** What the methods leave alone *)

Lemma read_only_world_only {A : Type} (m : M A) : read_only m -> world_only m.
Proof. intros H s. rewrite (H s). reflexivity. Qed.

Lemma read_only_ret {A : Type} (a : A) : read_only (ret a).
Proof. intros s. reflexivity. Qed.

Lemma read_only_throw {A : Type} (e : error) : read_only (@throw A e).
Proof. intros s. reflexivity. Qed.

Lemma read_only_bind {A B : Type} (m : M A) (k : A -> M B) :
  read_only m -> (forall a, read_only (k a)) -> read_only (bind m k).
Proof.
  intros Hm Hk s. unfold bind. specialize (Hm s).
  destruct (m s) as [[a|e] s']; simpl in *; subst; [apply Hk|reflexivity].
Qed.

Lemma read_only_try_catch {A : Type} (m handler : M A) :
  read_only m -> read_only handler -> read_only (try_catch m handler).
Proof.
  intros Hm Hh s. unfold try_catch. specialize (Hm s).
  destruct (m s) as [[a|e] s']; simpl in *; subst; [reflexivity|apply Hh].
Qed.

Lemma read_only_get_this : read_only get_this.
Proof. intros s. reflexivity. Qed.

Lemma read_only_get_world : read_only get_world.
Proof. intros s. reflexivity. Qed.

Lemma read_only_Date_now : read_only Date_now.
Proof. intros s. reflexivity. Qed.

Lemma read_only_this_storage : read_only this_storage.
Proof.
  intros s. unfold this_storage, bind, get_this. simpl.
  destruct (storage (snd s)) as [[st|member]|]; reflexivity.
Qed.

Lemma read_only_storage_getItem (key : string) : read_only (storage_getItem key).
Proof.
  unfold storage_getItem.
  apply read_only_bind; [apply read_only_this_storage|intros st].
  apply read_only_bind; [apply read_only_get_world|intros w]. apply read_only_ret.
Qed.

Lemma read_only_get_prop (o : jsval) (p : string) : read_only (get_prop o p).
Proof.
  intros s. destruct o; simpl; try reflexivity.
  destruct (alist_get fields p); reflexivity.
Qed.

Lemma read_only_hasOwnProperty (o : jsval) (p : string) : read_only (hasOwnProperty o p).
Proof.
  intros s. destruct o; simpl; try reflexivity.
  destruct (alist_get fields p); reflexivity.
Qed.

Section Relations.

Context {host : Host}.

Lemma read_only_JSON_parse_value (v : jsval) : read_only (JSON_parse_value v).
Proof.
  intros s. unfold JSON_parse_value.
  destruct v; try reflexivity; destruct (JSON_parse _); reflexivity.
Qed.

Lemma read_only_getStoredKeys : read_only getStoredKeys.
Proof.
  intros s. unfold getStoredKeys, bind, get_this, get_world. simpl.
  destruct (storage (snd s)) as [[st|member]|]; reflexivity.
Qed.

(** [isExpired] only reads. *)
Lemma read_only_isExpired (key : string) : read_only (isExpired key).
Proof.
  unfold isExpired.
  apply read_only_bind; [apply read_only_get_this|intros this].
  destruct (negb (typeof_number (expire this)) || js_le (ToNumber (expire this)) (Some 0));
    [apply read_only_ret|].
  apply read_only_bind; [apply read_only_storage_getItem|intros raw].
  apply read_only_bind.
  - destruct (is_text (storageType this)); [|apply read_only_ret].
    apply read_only_try_catch; [apply read_only_JSON_parse_value|apply read_only_ret].
  - intros obj. destruct (is_null obj); [apply read_only_ret|].
    apply read_only_bind; [apply read_only_get_prop|intros t].
    apply read_only_bind; [apply read_only_Date_now|intros now]. apply read_only_ret.
Qed.

Section Respects.

Variable R : CacheManager -> CacheManager -> Prop.
Hypothesis R_refl : forall this, R this this.
Hypothesis R_trans : forall a b c, R a b -> R b c -> R a c.

Lemma respects_world_only {A : Type} (m : M A) : world_only m -> respects R m.
Proof. intros H s. rewrite (H s). apply R_refl. Qed.

Lemma respects_read_only {A : Type} (m : M A) : read_only m -> respects R m.
Proof. intros H. apply respects_world_only, read_only_world_only, H. Qed.

Lemma respects_bind {A B : Type} (m : M A) (k : A -> M B) :
  respects R m -> (forall a, respects R (k a)) -> respects R (bind m k).
Proof.
  intros Hm Hk s. unfold bind. specialize (Hm s).
  destruct (m s) as [[a|e] s']; simpl in *; [|exact Hm].
  apply (R_trans _ _ _ Hm). apply Hk.
Qed.

End Respects.

End Relations.

Lemma evolves_refl (this : CacheManager) : evolves this this.
Proof. unfold evolves. auto. Qed.

Lemma evolves_trans (a b c : CacheManager) : evolves a b -> evolves b c -> evolves a c.
Proof.
  intros (Hn1 & Hs1 & Ht1 & Hk1) (Hn2 & Hs2 & Ht2 & Hk2). unfold evolves.
  repeat split; try congruence.
  intros key Hin. destruct (Hk2 key Hin) as [H|H].
  - apply Hk1. exact H.
  - right. rewrite <- Hn1. exact H.
Qed.

Lemma evolves_tracked_ok (this this' : CacheManager) :
  evolves this this' -> tracked_ok this -> tracked_ok this'.
Proof.
  intros (Hn & _ & _ & Hk) Hok key Hin. rewrite Hn.
  destruct (Hk key Hin) as [H|H]; [apply Hok; exact H|exact H].
Qed.

Section Evolution.

Context {host : Host}.

Lemma stays_read_only {A : Type} (m : M A) : read_only m -> stays m.
Proof. apply respects_read_only. exact evolves_refl. Qed.

Lemma stays_bind {A B : Type} (m : M A) (k : A -> M B) :
  stays m -> (forall a, stays (k a)) -> stays (bind m k).
Proof. apply respects_bind. exact evolves_trans. Qed.

Lemma stays_ret {A : Type} (a : A) : stays (ret a).
Proof. apply stays_read_only, read_only_ret. Qed.

Lemma world_only_storage_removeItem (key : string) : world_only (storage_removeItem key).
Proof. intros [w this]. unfold_monad. destruct (storage this) as [[st|member]|]; reflexivity. Qed.

Lemma world_only_clearInterval (handle : jsval) : world_only (clearInterval handle).
Proof. intros [w this]. destruct handle; reflexivity. Qed.

Lemma world_only_setInterval (delay : Z) : world_only (setInterval delay).
Proof. intros [w this]. reflexivity. Qed.

Lemma stays_setItem (key : string) (value : jsval) : stays (setItem key value).
Proof.
  intros [w this]. unfold setItem. unfold_monad.
  destruct (storage this) as [[st|member]|]; simpl; [|apply evolves_refl..].
  unfold evolves; simpl. repeat split.
  intros k Hin. apply in_app_or in Hin. destruct Hin as [H|[H|[]]]; [left; exact H|].
  subst k. unfold getNamespaceKey.
  destruct (-1 <? indexOf (storedKeys this) key) eqn:E.
  - left. apply indexOf_found. exact E.
  - right. rewrite <- append_assoc. apply prefix_append.
Qed.

Lemma stays_removeItem (key : string) : stays (removeItem key).
Proof.
  intros [w this]. unfold removeItem. unfold_monad.
  destruct (-1 <? indexOf (storedKeys this) (getNamespaceKey this key)); simpl;
    [|apply evolves_refl].
  destruct (storage this) as [[st|member]|] eqn:Est; simpl; [|apply evolves_refl..].
  unfold evolves; simpl. repeat split.
  intros k Hin. left. apply (splice1_subset _ _ _ Hin).
Qed.

Lemma stays_isExpired (key : string) : stays (isExpired key).
Proof. apply stays_read_only, read_only_isExpired. Qed.

Lemma stays_getItem (key : string) : stays (getItem key).
Proof.
  unfold getItem.
  apply stays_bind; [apply stays_read_only, read_only_get_this|intros this].
  apply stays_bind; [apply stays_read_only, read_only_storage_getItem|intros raw].
  apply stays_bind.
  { destruct (is_text (storageType this));
      [apply stays_read_only, read_only_JSON_parse_value|apply stays_ret]. }
  intros obj. apply stays_bind.
  { destruct (is_null obj); [apply stays_ret|apply stays_read_only, read_only_hasOwnProperty]. }
  intros [|]; [|apply stays_ret].
  apply stays_bind; [apply stays_isExpired|intros [|]].
  - apply stays_bind; [apply stays_removeItem|intros _; apply stays_ret].
  - apply stays_read_only, read_only_get_prop.
Qed.

Lemma stays_getCollection_loop (fuel : nat) :
  forall i collection, stays (getCollection_loop fuel i collection).
Proof.
  induction fuel as [|fuel IH]; intros i collection; simpl; [apply stays_ret|].
  apply stays_bind; [apply stays_read_only, read_only_get_this|intros this].
  destruct (nth_error (storedKeys this) i) as [key|]; [|apply stays_ret].
  apply stays_bind; [apply stays_isExpired|intros [|]]; [apply IH|].
  apply stays_bind; [apply stays_getItem|intros v; apply IH].
Qed.

Lemma stays_getCollection : stays getCollection.
Proof.
  intros [w this]. unfold getCollection, bind at 1 2.
  rewrite (surjective_pairing (getStoredKeys (w, this))).
  rewrite (read_only_getStoredKeys (w, this)).
  unfold getStoredKeys at 1. unfold_monad.
  destruct (storage this) as [[st|member]|] eqn:Est; simpl.
  - match goal with |- evolves _ (snd (snd (getCollection_loop ?f ?i ?c ?s))) =>
      apply (evolves_trans _ (snd s)); [|apply (stays_getCollection_loop f i c s)] end.
    unfold evolves; simpl. repeat split; auto.
    intros key Hin. right. apply filter_In in Hin. apply Hin.
  - unfold evolves; simpl. repeat split; auto.
  - unfold evolves; simpl. repeat split; auto.
Qed.

Lemma stays_size : stays size.
Proof.
  unfold size. apply stays_bind; [apply stays_getCollection|intros c; apply stays_ret].
Qed.

Lemma world_only_clear_loop (keys : list string) : world_only (clear_loop keys).
Proof.
  induction keys as [|key rest IH]; intros s; simpl; [reflexivity|].
  unfold bind. pose proof (world_only_storage_removeItem key s) as H.
  destruct (storage_removeItem key s) as [[[]|e] s']; simpl in *; [|exact H].
  rewrite IH. exact H.
Qed.

Lemma stays_clear : stays clear.
Proof.
  unfold clear.
  apply stays_bind; [apply stays_read_only, read_only_get_this|intros this].
  apply stays_bind.
  - apply respects_world_only; [exact evolves_refl|apply world_only_clear_loop].
  - intros _. intros [w this']. unfold_monad. unfold evolves; simpl. repeat split.
    intros key [].
Qed.

Lemma stays_removeExpired_loop (fuel : nat) : forall i, stays (removeExpired_loop fuel i).
Proof.
  induction fuel as [|fuel IH]; intros i; simpl; [apply stays_ret|].
  apply stays_bind; [apply stays_read_only, read_only_get_this|intros this].
  destruct (nth_error (storedKeys this) i) as [key|]; [|apply stays_ret].
  apply stays_bind; [apply stays_isExpired|intros expired].
  apply stays_bind; [|intros _; apply IH].
  destruct expired; [apply stays_removeItem|apply stays_ret].
Qed.

Lemma stays_removeExpired : stays removeExpired.
Proof.
  unfold removeExpired.
  apply stays_bind; [apply stays_read_only, read_only_get_this|intros this].
  apply stays_removeExpired_loop.
Qed.

Lemma stays_set_expire (value : jsval) : stays (set_expire value).
Proof.
  unfold set_expire.
  apply stays_bind.
  { intros [w this]. unfold_monad. unfold evolves; simpl. auto. }
  intros _. apply stays_bind; [apply stays_read_only, read_only_get_this|intros this].
  apply stays_bind.
  { destruct (negb (is_null (interval this))); [|apply stays_ret].
    apply respects_world_only; [exact evolves_refl|apply world_only_clearInterval]. }
  intros _.
  destruct (js_lt (Some 0) (ToNumber value) && js_lt (ToNumber value) (Some MAX_SIGNED_INT));
    [|apply stays_ret].
  apply stays_bind.
  { apply respects_world_only; [exact evolves_refl|apply world_only_setInterval]. }
  intros id. intros [w this']. unfold_monad. unfold evolves; simpl. auto.
Qed.

Lemma stays_perform (c : call) : stays (perform c).
Proof.
  destruct c; simpl.
  - apply stays_setItem.
  - apply stays_bind; [apply stays_getItem|intros; apply stays_ret].
  - apply stays_removeItem.
  - apply stays_clear.
  - apply stays_removeExpired.
  - apply stays_bind; [apply stays_getCollection|intros; apply stays_ret].
  - apply stays_bind; [apply stays_size|intros; apply stays_ret].
  - apply stays_bind; [apply stays_isExpired|intros; apply stays_ret].
  - apply stays_set_expire.
Qed.

Lemma run_evolves (calls : list (Z * call)) :
  forall s, evolves (snd s) (snd (run calls s)).
Proof.
  induction calls as [|[now c] rest IH]; intros s; simpl; [apply evolves_refl|].
  apply (evolves_trans _ (snd (snd (perform c (at_time now s))))); [|apply IH].
  apply (stays_perform c (at_time now s)).
Qed.

End Evolution.

(* ================================================================== *)
(** ** [setItem] and the derived key *)

Section SetItem.

Context {host : Host}.

Lemma setItem_state (w : World) (this : CacheManager) (st : Storage)
    (key : string) (value : jsval) :
  storage this = Some (Backend st) ->
  setItem key value (w, this)
  = (Return tt,
     (storage_set st (getNamespaceKey this key)
        (stored_form (storageType this) (envelope (clock w) value)) w,
      with_storedKeys this (storedKeys this ++ [getNamespaceKey this key]))).
Proof.
  intros Hst. unfold setItem. unfold_monad. rewrite Hst. simpl.
  unfold stored_form, envelope, with_storedKeys.
  destruct (is_text (storageType this)); reflexivity.
Qed.

Lemma getNamespaceKey_after_push (this : CacheManager) (key : string) :
  getNamespaceKey
    (with_storedKeys this (storedKeys this ++ [getNamespaceKey this key])) key
  = getNamespaceKey this key.
Proof.
  set (this' := with_storedKeys this _).
  destruct (in_dec string_dec key (storedKeys this)) as [Hin|Hout].
  - rewrite (getNamespaceKey_tracked this key Hin).
    apply getNamespaceKey_tracked. subst this'. simpl. apply in_or_app. left. exact Hin.
  - destruct (in_dec string_dec key (storedKeys this')) as [Hin'|Hout'].
    + rewrite (getNamespaceKey_tracked this' key Hin').
      subst this'. simpl in Hin'. apply in_app_or in Hin'.
      destruct Hin' as [H|[H|[]]]; [contradiction|]. symmetry. exact H.
    + rewrite (getNamespaceKey_untracked this' key Hout').
      rewrite (getNamespaceKey_untracked this key Hout). reflexivity.
Qed.

(** C4 (amended). Key derivation applied twice equals key derivation applied
    once at every key whose derived key is tracked; this is the case for a
    key right after [setItem] has written it. *)
Theorem getNamespaceKey_idempotent_on_tracked :
  (forall (this : CacheManager) (key : string),
      In (getNamespaceKey this key) (storedKeys this) ->
      getNamespaceKey this (getNamespaceKey this key) = getNamespaceKey this key)
  /\ (forall (w : World) (this : CacheManager) (st : Storage) (key : string) (value : jsval),
         storage this = Some (Backend st) ->
         let this' := snd (snd (setItem key value (w, this))) in
         In (getNamespaceKey this' key) (storedKeys this')
         /\ getNamespaceKey this' (getNamespaceKey this' key) = getNamespaceKey this' key).
Proof.
  split.
  - intros this key Hin. apply getNamespaceKey_tracked. exact Hin.
  - intros w this st key value Hst this'.
    assert (Hin : In (getNamespaceKey this' key) (storedKeys this')).
    { subst this'. rewrite (setItem_state w this st key value Hst). simpl.
      rewrite getNamespaceKey_after_push. apply in_or_app. right. left. reflexivity. }
    split; [exact Hin|]. apply getNamespaceKey_tracked. exact Hin.
Qed.

(** C9 (amended). A key that is tracked at both of two points of an
    instance's life, or at neither, derives to the same storage key at both,
    whatever calls ran in between. *)
Theorem getNamespaceKey_stable_over_run (calls : list (Z * call)) (s : state) (key : string) :
  (In key (storedKeys (snd s)) <-> In key (storedKeys (snd (run calls s)))) ->
  getNamespaceKey (snd (run calls s)) key = getNamespaceKey (snd s) key.
Proof.
  intros Hiff. destruct (run_evolves calls s) as (Hns & _).
  destruct (in_dec string_dec key (storedKeys (snd s))) as [Hin|Hout].
  - rewrite (getNamespaceKey_tracked _ _ Hin).
    apply getNamespaceKey_tracked. apply Hiff. exact Hin.
  - rewrite (getNamespaceKey_untracked _ _ Hout).
    rewrite getNamespaceKey_untracked; [rewrite Hns; reflexivity|].
    intros H. apply Hout. apply Hiff. exact H.
Qed.

End SetItem.

(** C4 as stated fails on a fresh instance: the derived key of "a" is not
    tracked, and deriving it again hashes it again. *)
Lemma getNamespaceKey_twice_differs :
  fst (constructor "ns" None None empty_world) = Return fresh_ns
  /\ getNamespaceKey fresh_ns "a" = "ns_0cc175b9c0f1b6a831c399e269772661"
  /\ getNamespaceKey fresh_ns (getNamespaceKey fresh_ns "a")
     = "ns_d0e7aafdfa1972d534ff10fe8cb74cc5"
  /\ getNamespaceKey fresh_ns (getNamespaceKey fresh_ns "a") <> getNamespaceKey fresh_ns "a".
Proof.
  split; [vm_compute; reflexivity|].
  split; [vm_compute; reflexivity|].
  split; [vm_compute; reflexivity|].
  vm_compute. discriminate.
Qed.

(** C4 (amended), on the key "a" written to a fresh instance. *)
Lemma getNamespaceKey_idempotent_on_tracked_witness :
  storage fresh_ns = Some (Backend MemoryStorage)
  /\ (let this' := snd (snd (setItem "a" (JNum 1) (empty_world, fresh_ns))) in
      In (getNamespaceKey this' "a") (storedKeys this')
      /\ getNamespaceKey this' (getNamespaceKey this' "a") = getNamespaceKey this' "a").
Proof.
  split; [reflexivity|].
  apply (proj2 getNamespaceKey_idempotent_on_tracked empty_world fresh_ns MemoryStorage).
  reflexivity.
Defined.

(** C9 as stated fails for a key that is itself a storage key: before "a" is
    written the key "ns_" ++ md5 "a" is hashed, afterwards it is tracked and
    derives to itself. *)
Lemma getNamespaceKey_changes_after_setItem :
  let key := "ns_0cc175b9c0f1b6a831c399e269772661" in
  let before := (empty_world, fresh_ns) in
  let after := run [(0, SetItem "a" (JNum 1))] before in
  getNamespaceKey (snd before) key = "ns_d0e7aafdfa1972d534ff10fe8cb74cc5"
  /\ getNamespaceKey (snd after) key = "ns_0cc175b9c0f1b6a831c399e269772661"
  /\ getNamespaceKey (snd after) key <> getNamespaceKey (snd before) key.
Proof.
  split; [vm_compute; reflexivity|].
  split; [vm_compute; reflexivity|].
  vm_compute. discriminate.
Qed.

(** C9 (amended), on the key "a" across a write, a read and a sweep. *)
Lemma getNamespaceKey_stable_over_run_witness :
  let calls := [(0, SetItem "b" (JNum 1)); (5, GetItem "b"); (10, RemoveExpired)] in
  let s := (empty_world, fresh_ns) in
  (In "a" (storedKeys (snd s)) <-> In "a" (storedKeys (snd (run calls s))))
  /\ getNamespaceKey (snd (run calls s)) "a" = getNamespaceKey (snd s) "a".
Proof.
  assert (H : In "a" (storedKeys (snd (empty_world, fresh_ns)))
              <-> In "a" (storedKeys (snd (run
                    [(0, SetItem "b" (JNum 1)); (5, GetItem "b"); (10, RemoveExpired)]
                    (empty_world, fresh_ns))))).
  { vm_compute. split; [intros []|intros [H|[]]; discriminate H]. }
  split; [exact H|].
  apply (getNamespaceKey_stable_over_run
           [(0, SetItem "b" (JNum 1)); (5, GetItem "b"); (10, RemoveExpired)]
           (empty_world, fresh_ns) "a" H).
Defined.

(* ================================================================== *)
(** ** Writing and reading back *)

Section RoundTrip.

Context {host : Host}.

Variables (this : CacheManager) (st : Storage).
Hypothesis wired : storage this = STORAGE (storageType this).
Hypothesis backend : storage this = Some (Backend st).

Lemma storage_get_set (w : World) (key : string) (obj : jsval) (now : Z) :
  storage_get st key (set_clock now (storage_set st key (stored_form (storageType this) obj) w))
  = stored_form (storageType this) obj.
Proof.
  rewrite backend in wired. unfold stored_form.
  destruct (storageType this) as [| | |selector]; simpl in wired;
    [| | |destruct (inherited selector); discriminate wired];
    inversion wired; subst st; simpl; rewrite alist_get_set_same; reflexivity.
Qed.

Lemma removeItem_returns (s : state) (key : string) :
  storage (snd s) = Some (Backend st) -> fst (removeItem key s) = Return tt.
Proof.
  destruct s as [w c]. simpl. intros Hst. unfold removeItem. unfold_monad.
  destruct (-1 <? indexOf (storedKeys c) (getNamespaceKey c key)); [|reflexivity].
  simpl. rewrite Hst. reflexivity.
Qed.

Lemma isExpired_reads_envelope (w : World) (key : string) (t0 : Z) (value : jsval) :
  storage_get st (getNamespaceKey this key) w
  = stored_form (storageType this) (envelope t0 value) ->
  (is_text (storageType this) = true -> serializable t0 value) ->
  isExpired key (w, this) = (Return (expired_at (expire this) t0 (clock w)), (w, this)).
Proof.
  intros Hget Hser. unfold isExpired, expired_at. unfold_monad.
  destruct (negb (typeof_number (expire this)) || js_le (ToNumber (expire this)) (Some 0));
    [reflexivity|].
  simpl. rewrite backend. simpl. rewrite Hget. unfold stored_form.
  destruct (is_text (storageType this)) eqn:Etext.
  - unfold try_catch, JSON_parse_value. simpl. rewrite (Hser eq_refl). reflexivity.
  - reflexivity.
Qed.

Lemma getItem_reads_envelope (w : World) (key : string) (t0 : Z) (value : jsval) :
  storage_get st (getNamespaceKey this key) w
  = stored_form (storageType this) (envelope t0 value) ->
  (is_text (storageType this) = true -> serializable t0 value) ->
  fst (getItem key (w, this))
  = Return (if expired_at (expire this) t0 (clock w) then JNull else value).
Proof.
  intros Hget Hser. unfold getItem. unfold_monad.
  rewrite backend. simpl. rewrite Hget.
  assert (Hobj : (if is_text (storageType this)
                  then JSON_parse_value (stored_form (storageType this) (envelope t0 value))
                  else fun s => (Return (stored_form (storageType this) (envelope t0 value)), s))
                   (w, this) = (Return (envelope t0 value), (w, this))).
  { unfold stored_form. destruct (is_text (storageType this)) eqn:Etext; [|reflexivity].
    unfold JSON_parse_value. simpl. rewrite (Hser eq_refl). reflexivity. }
  rewrite Hobj. simpl.
  rewrite (isExpired_reads_envelope w key t0 value Hget Hser).
  destruct (expired_at (expire this) t0 (clock w)); [|reflexivity].
  pose proof (removeItem_returns (w, this) key backend) as Hrm.
  destruct (removeItem key (w, this)) as [[[]|e] s']; simpl in *; [reflexivity|discriminate].
Qed.

End RoundTrip.

Section Expiration.

Context {host : Host}.

Lemma expired_at_number (ttl t0 now : Z) :
  0 < ttl -> expired_at (JNum ttl) t0 now = (t0 <? now - ttl).
Proof.
  intros Hpos. unfold expired_at. simpl.
  destruct (ttl <=? 0) eqn:E; [apply Z.leb_le in E; lia|reflexivity].
Qed.

Lemma expired_at_fresh (ttl : jsval) (t0 now : Z) :
  (forall n, ttl = JNum n -> 0 < n -> now <= t0 + n) -> expired_at ttl t0 now = false.
Proof.
  intros Hfresh. destruct ttl; try reflexivity.
  unfold expired_at. simpl. destruct (z <=? 0) eqn:E; [reflexivity|].
  apply Z.leb_gt in E. apply Z.ltb_ge. specialize (Hfresh z eq_refl E). lia.
Qed.

Lemma getItem_after_setItem (w : World) (this : CacheManager) (st : Storage)
    (key : string) (value : jsval) (later : Z) :
  storage this = STORAGE (storageType this) ->
  storage this = Some (Backend st) ->
  (is_text (storageType this) = true -> serializable (clock w) value) ->
  fst (getItem key (at_time later (snd (setItem key value (w, this)))))
  = Return (if expired_at (expire this) (clock w) later then JNull else value).
Proof.
  intros Hwired Hbackend Hser.
  rewrite (setItem_state w this st key value Hbackend). unfold at_time. simpl.
  apply (getItem_reads_envelope
           (with_storedKeys this (storedKeys this ++ [getNamespaceKey this key])) st
           Hbackend
           (set_clock later
              (storage_set st (getNamespaceKey this key)
                 (stored_form (storageType this) (envelope (clock w) value)) w))
           key (clock w) value).
  - rewrite getNamespaceKey_after_push. apply (storage_get_set this st Hwired Hbackend).
  - exact Hser.
Qed.

Lemma isExpired_after_setItem (w : World) (this : CacheManager) (st : Storage)
    (key : string) (value : jsval) (later : Z) :
  storage this = STORAGE (storageType this) ->
  storage this = Some (Backend st) ->
  (is_text (storageType this) = true -> serializable (clock w) value) ->
  fst (isExpired key (at_time later (snd (setItem key value (w, this)))))
  = Return (expired_at (expire this) (clock w) later).
Proof.
  intros Hwired Hbackend Hser.
  rewrite (setItem_state w this st key value Hbackend). unfold at_time. simpl.
  rewrite (isExpired_reads_envelope
             (with_storedKeys this (storedKeys this ++ [getNamespaceKey this key])) st
             Hbackend
             (set_clock later
                (storage_set st (getNamespaceKey this key)
                   (stored_form (storageType this) (envelope (clock w) value)) w))
             key (clock w) value).
  - reflexivity.
  - rewrite getNamespaceKey_after_push. apply (storage_get_set this st Hwired Hbackend).
  - exact Hser.
Qed.

(** C1. On each of the three backends, [setItem(k, v)] returns and a
    [getItem(k)] made before the entry expires returns [v]: as it was stored
    on the in-memory backend, and through [JSON.stringify] and [JSON.parse] on
    the two text backends, for a value that the codec takes there and back. *)
Theorem setItem_getItem_roundtrip (w : World) (this : CacheManager) (st : Storage)
    (key : string) (value : jsval) (later : Z) :
  storage this = STORAGE (storageType this) ->
  storage this = Some (Backend st) ->
  (is_text (storageType this) = true -> serializable (clock w) value) ->
  (forall ttl, expire this = JNum ttl -> 0 < ttl -> later <= clock w + ttl) ->
  fst (setItem key value (w, this)) = Return tt
  /\ fst (getItem key (at_time later (snd (setItem key value (w, this))))) = Return value.
Proof.
  intros Hwired Hbackend Hser Hfresh. split.
  - rewrite (setItem_state w this st key value Hbackend). reflexivity.
  - rewrite (getItem_after_setItem w this st key value later Hwired Hbackend Hser).
    rewrite (expired_at_fresh (expire this) (clock w) later Hfresh). reflexivity.
Qed.

(** C2. With a positive ttl T, an entry written by [setItem] at time t0 is
    expired at a later time exactly when t0 < now - T; [getItem] returns the
    stored value at every time before t0 + T and null at every time after
    t0 + T. *)
Theorem ttl_correctness (w : World) (this : CacheManager) (st : Storage)
    (key : string) (value : jsval) (ttl later : Z) :
  storage this = STORAGE (storageType this) ->
  storage this = Some (Backend st) ->
  (is_text (storageType this) = true -> serializable (clock w) value) ->
  expire this = JNum ttl ->
  0 < ttl ->
  let written := snd (setItem key value (w, this)) in
  fst (isExpired key (at_time later written)) = Return (clock w <? later - ttl)
  /\ (later < clock w + ttl -> fst (getItem key (at_time later written)) = Return value)
  /\ (clock w + ttl < later -> fst (getItem key (at_time later written)) = Return JNull).
Proof.
  intros Hwired Hbackend Hser Httl Hpos written. subst written.
  rewrite (isExpired_after_setItem w this st key value later Hwired Hbackend Hser).
  rewrite (getItem_after_setItem w this st key value later Hwired Hbackend Hser).
  rewrite Httl. rewrite (expired_at_number ttl (clock w) later Hpos).
  split; [reflexivity|]. split; intros Hlater.
  - destruct (clock w <? later - ttl) eqn:E; [apply Z.ltb_lt in E; lia|reflexivity].
  - destruct (clock w <? later - ttl) eqn:E; [reflexivity|apply Z.ltb_ge in E; lia].
Qed.

(** C3 (the code fails it). On a text backend, a stored payload that
    [JSON.parse] refuses makes [getItem] throw a SyntaxError: it parses
    outside any [try].  [isExpired] does catch the error; it goes on with the
    text and answers false, where it answers true for an absent entry. *)
Theorem getItem_throws_on_unparsable (w : World) (this : CacheManager) (st : Storage)
    (key payload : string) :
  storage this = Some (Backend st) ->
  is_text (storageType this) = true ->
  storage_get st (getNamespaceKey this key) w = JStr payload ->
  JSON_parse payload = None ->
  getItem key (w, this) = (Throw SyntaxError, (w, this))
  /\ fst (isExpired key (w, this)) = Return false.
Proof.
  intros Hbackend Htext Hget Hbad. split.
  - unfold getItem. unfold_monad. rewrite Hbackend. simpl. rewrite Hget, Htext.
    unfold JSON_parse_value. simpl. rewrite Hbad. reflexivity.
  - unfold isExpired. unfold_monad.
    destruct (negb (typeof_number (expire this)) || js_le (ToNumber (expire this)) (Some 0));
      [reflexivity|].
    simpl. rewrite Hbackend. simpl. rewrite Hget, Htext.
    unfold try_catch, JSON_parse_value. simpl. rewrite Hbad. reflexivity.
Qed.

End Expiration.

(* ================================================================== *)
(** ** The scenarios of the specification, on the model host *)

Example users_constructed :
  constructor "users" (Some LOCAL) (Some (JNum 1000)) empty_world
  = (Return (users LOCAL), mkWorld [] [] [] [(1, 1000)] 2 0).
Proof. vm_compute. reflexivity. Qed.

(** with expiration disabled (ttl 0) an entry written at 0 is still read at
    10^9, and no sweep is scheduled *)
Example ttl_zero_never_expires :
  exists this w,
    constructor "users" None (Some (JNum 0)) empty_world = (Return this, w)
    /\ timers w = []
    /\ fst (getItem "alice"
              (at_time 1000000000 (snd (setItem "alice" alice (w, this))))) = Return alice.
Proof. eexists. eexists. split; [vm_compute; reflexivity|]. split; vm_compute; reflexivity. Qed.

(** an entry read after its ttl is gone from [getCollection()] as well *)
Example expired_entry_leaves_collection :
  let written := snd (setItem "alice" alice (empty_world, users MEMORY)) in
  fst (getCollection (at_time 500 written))
  = Return [("users_6384e2b2184bcbf58eccf10ca7a6563c", alice)]
  /\ fst (getCollection (snd (getItem "alice" (at_time 1500 written)))) = Return [].
Proof. vm_compute. split; reflexivity. Qed.

(** [clear()] twice is [clear()] once, and the size is 0 after either *)
Example clear_twice :
  let written :=
    run [(0, SetItem "alice" alice); (0, SetItem "bob" (JNum 2))]
      (empty_world, users SESSION) in
  run [(1, Clear); (2, Clear)] written = at_time 2 (run [(1, Clear)] written)
  /\ fst (size (run [(1, Clear)] written)) = Return 0.
Proof. vm_compute. split; reflexivity. Qed.

(** C1, on the local-persistent backend: written at 0, read at 500. *)
Lemma setItem_getItem_roundtrip_witness :
  fst (setItem "alice" alice (empty_world, users LOCAL)) = Return tt
  /\ fst (getItem "alice"
            (at_time 500 (snd (setItem "alice" alice (empty_world, users LOCAL)))))
     = Return alice.
Proof.
  apply (setItem_getItem_roundtrip empty_world (users LOCAL) localStorage "alice" alice 500).
  - reflexivity.
  - reflexivity.
  - intros _. vm_compute. reflexivity.
  - intros ttl Httl Hpos. inversion Httl. subst ttl. simpl. lia.
Defined.

(** C2, on the in-memory backend: written at 0 with ttl 1000, read at 500
    and at 1500. *)
Lemma ttl_correctness_witness :
  fst (isExpired "alice"
         (at_time 1500 (snd (setItem "alice" alice (empty_world, users MEMORY)))))
  = Return (0 <? 1500 - 1000)
  /\ fst (getItem "alice"
            (at_time 500 (snd (setItem "alice" alice (empty_world, users MEMORY)))))
     = Return alice
  /\ fst (getItem "alice"
            (at_time 1500 (snd (setItem "alice" alice (empty_world, users MEMORY)))))
     = Return JNull.
Proof.
  assert (Hser : is_text (storageType (users MEMORY)) = true ->
                 serializable (clock empty_world) alice) by (intros H; discriminate H).
  split; [|split].
  - apply (ttl_correctness empty_world (users MEMORY) MemoryStorage "alice" alice 1000 1500
             eq_refl eq_refl Hser eq_refl eq_refl).
  - apply (ttl_correctness empty_world (users MEMORY) MemoryStorage "alice" alice 1000 500
             eq_refl eq_refl Hser eq_refl eq_refl).
    simpl. lia.
  - apply (ttl_correctness empty_world (users MEMORY) MemoryStorage "alice" alice 1000 1500
             eq_refl eq_refl Hser eq_refl eq_refl).
    simpl. lia.
Defined.

Example users_over_malformed_constructed :
  fst (constructor "users" (Some LOCAL) (Some (JNum 1000)) malformed_world)
  = Return users_over_malformed.
Proof. vm_compute. reflexivity. Qed.

(** C3, on the failing input: [getItem('alice')] throws; for the absent key
    "bob" it returns null. *)
Lemma getItem_throws_on_unparsable_witness :
  (getItem "alice" (malformed_world, users_over_malformed)
   = (Throw SyntaxError, (malformed_world, users_over_malformed))
   /\ fst (isExpired "alice" (malformed_world, users_over_malformed)) = Return false)
  /\ fst (getItem "bob" (malformed_world, users_over_malformed)) = Return JNull
  /\ fst (isExpired "bob" (malformed_world, users_over_malformed)) = Return true.
Proof.
  split.
  - apply (getItem_throws_on_unparsable malformed_world users_over_malformed localStorage
             "alice" "{bad"); vm_compute; reflexivity.
  - split; vm_compute; reflexivity.
Defined.

(** C6 (the code fails it). [removeExpired] walks [storedKeys] by index while
    [removeItem] splices the array: after a removal the next key slides into
    the index just visited and is skipped.  With "alice" and "bob" both
    written at 0 under a ttl of 1000, one sweep at 2000 removes the entry of
    "alice" only: the key of "bob" stays tracked and stored, and is expired. *)
Theorem removeExpired_skips_next_key :
  let written :=
    run [(0, SetItem "alice" alice); (0, SetItem "bob" (JNum 2))]
      (empty_world, users MEMORY) in
  let swept := run [(2000, RemoveExpired)] written in
  storedKeys (snd written)
  = ["users_6384e2b2184bcbf58eccf10ca7a6563c"; "users_9f9d51bc70ef21ca5c14f307980a29d8"]
  /\ fst (isExpired "users_6384e2b2184bcbf58eccf10ca7a6563c" (at_time 2000 written))
     = Return true
  /\ fst (isExpired "users_9f9d51bc70ef21ca5c14f307980a29d8" (at_time 2000 written))
     = Return true
  /\ storedKeys (snd swept) = ["users_9f9d51bc70ef21ca5c14f307980a29d8"]
  /\ map fst (memory_items (fst swept)) = ["users_9f9d51bc70ef21ca5c14f307980a29d8"]
  /\ fst (isExpired "users_9f9d51bc70ef21ca5c14f307980a29d8" swept) = Return true.
Proof. vm_compute. repeat split; reflexivity. Qed.

(* ================================================================== *)
(** ** The sweep timer *)

Section Timer.

Context {host : Host}.

Lemma schedulable_delay (value : jsval) :
  schedulable value = true ->
  exists delay, ToNumber value = Some delay /\ 0 < delay < MAX_SIGNED_INT.
Proof.
  unfold schedulable. intros H. apply andb_prop in H. destruct H as [H0 H1].
  destruct (ToNumber value) as [z|]; simpl in *; [|discriminate].
  exists z. apply Z.ltb_lt in H0, H1. split; [reflexivity|lia].
Qed.

Lemma set_expire_state (value : jsval) (w : World) (this : CacheManager) :
  set_expire value (w, this)
  = (Return tt,
     let w1 := cancelled (interval this) w in
     if schedulable value
     then (with_timer (match ToNumber value with Some delay => delay | None => 0 end) w1,
           mkCacheManager (storage this) (storageType this) (namespace this)
             (storedKeys this) value (JNum (next_timer w1)))
     else (w1,
           mkCacheManager (storage this) (storageType this) (namespace this)
             (storedKeys this) value (interval this))).
Proof.
  unfold set_expire. fold (schedulable value).
  destruct (schedulable value);
    unfold clearInterval, setInterval, with_timer, cancelled; unfold_monad;
    destruct (interval this) eqn:Ei; simpl; try rewrite Ei; try reflexivity;
    destruct w; reflexivity.
Qed.

Lemma getStoredKeys_state (w : World) (this : CacheManager) :
  getStoredKeys (w, this) = (Return (scanned w this), (w, this)).
Proof.
  unfold getStoredKeys, scanned. unfold_monad. destruct (storage this) as [[st|member]|]; reflexivity.
Qed.

Lemma constructor_state (namespace : string) (storageType : option cacheTypeEnumerate)
    (ttl : option jsval) (w : World) :
  constructor namespace storageType ttl w
  = let s' := snd (set_expire (default_parameter ttl (JNum 3600000))
                     (w, scanned_instance namespace
                           (match storageType with Some t => t | None => MEMORY end) w)) in
    (Return (snd s'), fst s').
Proof.
  unfold constructor, scanned_instance.
  unfold bind at 1 2. rewrite getStoredKeys_state.
  unfold set_storedKeys at 1. unfold_monad. unfold with_storedKeys. simpl.
  match goal with |- context [set_expire ?v ?s] =>
    destruct (set_expire v s) as [[[]|e] [w' this']] eqn:E end.
  - reflexivity.
  - rewrite set_expire_state in E. discriminate E.
Qed.

Lemma cancelled_drops (handle : jsval) (w : World) (id delay : Z) :
  handle = JNum id -> ~ In (id, delay) (timers (cancelled handle w)).
Proof.
  intros -> Hin. simpl in Hin. apply filter_In in Hin. destruct Hin as [_ Hne].
  simpl in Hne. rewrite Z.eqb_refl in Hne. discriminate.
Qed.

Lemma cancelled_next_timer (handle : jsval) (w : World) :
  next_timer (cancelled handle w) = next_timer w.
Proof. destruct handle; reflexivity. Qed.

(** For a number the setter does what its test reads: the timer of the
    old handle is cancelled, and a timer of exactly the ttl is added when the
    ttl is above 0 and below 2147483647, and none otherwise. *)
Lemma set_expire_number (z : Z) (w : World) (this : CacheManager) :
  timers (fst (snd (set_expire (JNum z) (w, this))))
  = timers (cancelled (interval this) w)
    ++ (if (0 <? z) && (z <? MAX_SIGNED_INT) then [(next_timer w, z)] else []).
Proof.
  rewrite set_expire_state. unfold schedulable. simpl.
  destruct ((0 <? z) && (z <? MAX_SIGNED_INT)); simpl.
  - rewrite cancelled_next_timer. reflexivity.
  - rewrite app_nil_r. reflexivity.
Qed.

(** C8. The claim fails on the code for a ttl that is no number: the
    setter tests [value > 0 && value < MAX_SIGNED_INT] with no [typeof]
    test before it, so a ttl that is no number but converts to a number
    between the two bounds has a sweep scheduled at that number, by the
    constructor and by an assignment alike.  [isExpired] has the [typeof]
    test: under such a ttl it answers false for every key at every time, so
    the sweep that runs can never remove anything. *)
Theorem set_expire_schedules_for_non_number
    (value : jsval) (w : World) (this : CacheManager) :
  typeof_number value = false ->
  schedulable value = true ->
  exists delay,
    ToNumber value = Some delay
    /\ 0 < delay < MAX_SIGNED_INT
    /\ (let s' := snd (set_expire value (w, this)) in
        expire (snd s') = value
        /\ timers (fst s') = timers (cancelled (interval this) w) ++ [(next_timer w, delay)]
        /\ sweep_scheduled s' delay
        /\ forall (later : World) (key : string),
             fst (isExpired key (later, snd s')) = Return false)
    /\ (forall (namespace : string) (storageType : option cacheTypeEnumerate),
          exists second w',
            constructor namespace storageType (Some value) w = (Return second, w')
            /\ expire second = value
            /\ timers w' = timers w ++ [(next_timer w, delay)]
            /\ sweep_scheduled (w', second) delay).
Proof.
  intros Htype Hsched.
  destruct (schedulable_delay value Hsched) as (delay & Hd & Hrange).
  exists delay. split; [exact Hd|]. split; [exact Hrange|]. split.
  - rewrite set_expire_state. rewrite Hsched. simpl. rewrite Hd.
    split; [reflexivity|]. split; [rewrite cancelled_next_timer; reflexivity|]. split.
    + exists (next_timer (cancelled (interval this) w)). simpl.
      split; [reflexivity|]. apply in_or_app. right. left. reflexivity.
    + intros later key. unfold isExpired. unfold_monad. simpl.
      rewrite Htype. reflexivity.
  - intros ns selector. rewrite constructor_state.
    assert (Hgiven : default_parameter (Some value) (JNum 3600000) = value).
    { destruct value; try reflexivity. discriminate Hsched. }
    rewrite Hgiven. rewrite set_expire_state. rewrite Hsched. simpl. rewrite Hd.
    eexists. eexists. split; [reflexivity|]. simpl.
    split; [reflexivity|]. split; [reflexivity|].
    exists (next_timer w). simpl.
    split; [reflexivity|]. apply in_or_app. right. left. reflexivity.
Qed.

(** C7 (amended). Constructing with a selector off the three recognized ones
    does not fail: the instance is made, with no tracked key and with what
    the table gives for the selector as its storage, which is no backend:
    undefined, or the member of [Object.prototype] the selector names.  The
    error surfaces later, as a TypeError of the first [setItem] or
    [getItem]. *)
Theorem constructor_accepts_unrecognized_selector (namespace selector : string)
    (ttl : option jsval) (w : World) :
  exists this w',
    constructor namespace (Some (OTHER selector)) ttl w = (Return this, w')
    /\ storage this
       = (if inherited selector then Some (Inherited selector) else None)
    /\ storedKeys this = []
    /\ forall (later : World) (key : string) (value : jsval),
         fst (setItem key value (later, this)) = Throw TypeError
         /\ fst (getItem key (later, this)) = Throw TypeError.
Proof.
  rewrite constructor_state. rewrite set_expire_state. simpl.
  eexists. eexists. split; [reflexivity|].
  destruct (schedulable (default_parameter ttl (JNum 3600000))); simpl;
    (split; [reflexivity|]);
    unfold scanned; simpl;
    destruct (inherited selector); simpl;
    (split; [reflexivity|]);
    intros later key value; split; reflexivity.
Qed.

End Timer.

(** C7 as stated fails: the constructor returns an instance for the selector
    "bogus", with undefined as its storage, and for the selector
    "constructor", with the inherited member as its storage. *)
Lemma constructor_returns_for_bogus_selector :
  constructor "ns" (Some (OTHER "bogus")) None empty_world
  = (Return (mkCacheManager None (OTHER "bogus") "ns" [] (JNum 3600000) (JNum 1)),
     mkWorld [] [] [] [(1, 3600000)] 2 0)
  /\ constructor "ns" (Some (OTHER "constructor")) None empty_world
     = (Return (mkCacheManager (Some (Inherited "constructor")) (OTHER "constructor")
                  "ns" [] (JNum 3600000) (JNum 1)),
        mkWorld [] [] [] [(1, 3600000)] 2 0).
Proof. split; vm_compute; reflexivity. Qed.

(** C8, at the ttl true: the setter's comparisons convert it to 1, and the
    constructor leaves a sweep running every millisecond on an instance
    for which nothing ever expires. *)
Lemma set_expire_schedules_for_non_number_witness :
  exists delay,
    ToNumber (JBool true) = Some delay
    /\ 0 < delay < MAX_SIGNED_INT
    /\ (let s' := snd (set_expire (JBool true) (empty_world, fresh_ns)) in
        expire (snd s') = JBool true
        /\ timers (fst s')
           = timers (cancelled (interval fresh_ns) empty_world)
             ++ [(next_timer empty_world, delay)]
        /\ sweep_scheduled s' delay
        /\ forall (later : World) (key : string),
             fst (isExpired key (later, snd s')) = Return false)
    /\ (forall (namespace : string) (storageType : option cacheTypeEnumerate),
          exists second w',
            constructor namespace storageType (Some (JBool true)) empty_world
            = (Return second, w')
            /\ expire second = JBool true
            /\ timers w' = timers empty_world ++ [(next_timer empty_world, delay)]
            /\ sweep_scheduled (w', second) delay).
Proof.
  apply (set_expire_schedules_for_non_number (JBool true) empty_world fresh_ns).
  - reflexivity.
  - reflexivity.
Defined.

(** The same at concrete values: [new CacheManager("ns", MEMORY, true)]
    leaves a 1 ms timer, and the string "1000" a 1000 ms timer. *)
Example sweep_scheduled_for_true :
  typeof_number (JBool true) = false
  /\ constructor "ns" None (Some (JBool true)) empty_world
     = (Return (mkCacheManager (Some (Backend MemoryStorage)) MEMORY "ns" []
                  (JBool true) (JNum 1)),
        mkWorld [] [] [] [(1, 1)] 2 0)
  /\ constructor "ns" None (Some (JStr "1000")) empty_world
     = (Return (mkCacheManager (Some (Backend MemoryStorage)) MEMORY "ns" []
                  (JStr "1000") (JNum 1)),
        mkWorld [] [] [] [(1, 1000)] 2 0).
Proof.
  split; [reflexivity|]. split; vm_compute; reflexivity.
Qed.

(** An argument that is undefined takes the default like one left out. *)
Example constructor_default_expire :
  constructor "ns" None (Some JUndefined) empty_world
  = constructor "ns" None None empty_world
  /\ constructor "ns" None None empty_world
     = (Return (mkCacheManager (Some (Backend MemoryStorage)) MEMORY "ns" []
                  (JNum 3600000) (JNum 1)),
        mkWorld [] [] [] [(1, 3600000)] 2 0).
Proof. split; vm_compute; reflexivity. Qed.

(* ================================================================== *)
(** ** Two instances over one environment *)

Section Isolation.

Context {host : Host}.

Lemma scanned_prefixed (w : World) (this : CacheManager) (key : string) :
  In key (scanned w this) -> prefix (namespace this ++ "_") key = true.
Proof.
  unfold scanned. destruct (storage this) as [[st|member]|]; [|intros []..].
  intros Hin. apply filter_In in Hin. apply Hin.
Qed.

(** an instance out of the constructor tracks keys of its namespace only *)
Lemma constructor_tracked_ok (namespace : string) (storageType : option cacheTypeEnumerate)
    (ttl : option jsval) (w : World) (this : CacheManager) (w' : World) :
  constructor namespace storageType ttl w = (Return this, w') -> tracked_ok this.
Proof.
  rewrite constructor_state. rewrite set_expire_state. simpl. intros H.
  set (t := match storageType with Some t => t | None => MEMORY end) in *.
  assert (Hscan : forall key, In key (scanned w (mkCacheManager (STORAGE t) t namespace []
                                                   JUndefined JUndefined)) ->
                              prefix (namespace ++ "_") key = true).
  { intros key. apply scanned_prefixed. }
  destruct (schedulable (default_parameter ttl (JNum 3600000)));
    simpl in H; inversion H; subst; intros key Hin; simpl in *; apply Hscan; exact Hin.
Qed.

Lemma getCollection_loop_keys (fuel : nat) :
  forall (i : nat) (collection : list (string * jsval)) (s : state)
         (result : list (string * jsval)) (s' : state),
    tracked_ok (snd s) ->
    (forall key, In key (map fst collection) ->
                 prefix (namespace (snd s) ++ "_") key = true) ->
    getCollection_loop fuel i collection s = (Return result, s') ->
    forall key, In key (map fst result) -> prefix (namespace (snd s) ++ "_") key = true.
Proof.
  induction fuel as [|fuel IH]; intros i collection s result s' Hok Hcoll Hrun; simpl in Hrun.
  - inversion Hrun. subst. exact Hcoll.
  - unfold bind at 1, get_this in Hrun. simpl in Hrun.
    destruct (nth_error (storedKeys (snd s)) i) as [k|] eqn:Enth.
    + pose proof (Hok k (nth_error_In _ _ Enth)) as Hk.
      unfold bind at 1 in Hrun.
      pose proof (read_only_isExpired k s) as Hro.
      destruct (isExpired k s) as [[[|]|e] s1]; simpl in Hro; subst s1.
      * apply (IH _ _ _ _ _ Hok Hcoll Hrun).
      * unfold bind at 1 in Hrun.
        pose proof (stays_getItem k s) as Hev.
        destruct (getItem k s) as [[v|e] s2]; simpl in Hev; [|discriminate Hrun].
        destruct Hev as (Hns & Hrest).
        rewrite <- Hns.
        apply (IH (S i) (object_set collection k v) s2 result s').
        -- apply (evolves_tracked_ok (snd s) (snd s2)); [|exact Hok].
           unfold evolves. tauto.
        -- intros key Hin. rewrite Hns. apply object_set_keys in Hin.
           destruct Hin as [->|Hin]; [exact Hk|apply Hcoll; exact Hin].
        -- exact Hrun.
      * discriminate Hrun.
    + inversion Hrun. subst. exact Hcoll.
Qed.

(** every key of [getCollection()] starts with the namespace and an
    underscore *)
Lemma getCollection_keys_prefixed (s : state) (result : list (string * jsval)) (s' : state) :
  getCollection s = (Return result, s') ->
  forall key, In key (map fst result) -> prefix (namespace (snd s) ++ "_") key = true.
Proof.
  destruct s as [w this]. unfold getCollection. unfold bind at 1 2.
  rewrite getStoredKeys_state. unfold set_storedKeys at 1. unfold_monad.
  intros Hrun key Hin.
  refine (getCollection_loop_keys _ _ _ _ _ _ _ _ Hrun key Hin).
  - intros k Hk. simpl in *. apply (scanned_prefixed w this k Hk).
  - intros k [].
Qed.

Lemma step_instances (sys : System) (p : party) (now : Z) (c : call) :
  evolves (instance_of p sys) (instance_of p (step sys p now c))
  /\ instance_of (other p) (step sys p now c) = instance_of (other p) sys.
Proof.
  unfold step.
  pose proof (stays_perform c (set_clock now (world sys), instance_of p sys)) as Hev.
  destruct (perform c (set_clock now (world sys), instance_of p sys)) as [r [w this]].
  simpl in Hev. destruct p; simpl; split; try reflexivity; exact Hev.
Qed.

Lemma step_ok (sys : System) (p : party) (now : Z) (c : call) :
  system_ok sys ->
  system_ok (step sys p now c)
  /\ namespace (first (step sys p now c)) = namespace (first sys)
  /\ namespace (second (step sys p now c)) = namespace (second sys).
Proof.
  intros [Hf Hs]. destruct (step_instances sys p now c) as [Hev Hsame].
  unfold system_ok.
  destruct p; simpl in *; rewrite Hsame; repeat split;
    try assumption; try (apply (evolves_tracked_ok _ _ Hev); assumption); apply Hev.
Qed.

(** what a run keeps: the namespaces, the tracked keys inside them, and
    every written key inside the namespace of its writer *)
Lemma run_system_ok (calls : list (party * Z * call)) :
  forall sys,
    system_ok sys ->
    system_ok (fst (run_system calls sys))
    /\ namespace (first (fst (run_system calls sys))) = namespace (first sys)
    /\ namespace (second (fst (run_system calls sys))) = namespace (second sys)
    /\ forall p key, In (p, key) (snd (run_system calls sys)) ->
                     prefix (namespace (instance_of p sys) ++ "_") key = true.
Proof.
  induction calls as [|[[p now] c] rest IH]; intros sys Hok; simpl.
  - repeat split; try apply Hok. intros p key [].
  - destruct (step_ok sys p now c Hok) as (Hok' & Hn1 & Hn2).
    specialize (IH (step sys p now c) Hok').
    destruct (run_system rest (step sys p now c)) as [sys' log]. simpl in *.
    destruct IH as (Hok'' & Hm1 & Hm2 & Hlog).
    split; [exact Hok''|]. split; [congruence|]. split; [congruence|].
    intros q key Hin. apply in_app_or in Hin. destruct Hin as [Hin|Hin].
    + apply in_map_iff in Hin. destruct Hin as (k & Heq & Hk).
      injection Heq as Hp Hkey. rewrite <- Hp, <- Hkey. clear Hp Hkey.
      destruct c; simpl in Hk; try contradiction.
      destruct Hk as [Hk|[]]. rewrite <- Hk.
      apply getNamespaceKey_prefix. destruct p; apply Hok.
    + specialize (Hlog q key Hin).
      destruct q; simpl in *; [rewrite <- Hn1|rewrite <- Hn2]; exact Hlog.
Qed.

(** C5 (amended). Two instances whose namespaces, each followed by an
    underscore, are not prefixes of one another: after any calls on the two,
    [getCollection()] on one holds no key that the other has written. *)
Theorem namespace_isolation (calls : list (party * Z * call)) (sys : System)
    (observer : party) (now : Z) (result : list (string * jsval)) (s' : state) :
  tracked_ok (first sys) ->
  tracked_ok (second sys) ->
  prefix (namespace (first sys) ++ "_") (namespace (second sys) ++ "_") = false ->
  prefix (namespace (second sys) ++ "_") (namespace (first sys) ++ "_") = false ->
  getCollection (set_clock now (world (fst (run_system calls sys))),
                 instance_of observer (fst (run_system calls sys)))
  = (Return result, s') ->
  forall key, In key (map fst result) ->
              ~ In (other observer, key) (snd (run_system calls sys)).
Proof.
  intros Hf Hs Hab Hba Hcoll key Hin Hlog.
  destruct (run_system_ok calls sys (conj Hf Hs)) as (_ & Hn1 & Hn2 & Hwritten).
  pose proof (getCollection_keys_prefixed _ _ _ Hcoll key Hin) as Hmine.
  pose proof (Hwritten _ _ Hlog) as Htheirs. simpl in Hmine.
  destruct observer; simpl in *.
  - rewrite Hn1 in Hmine.
    destruct (prefix_comparable _ _ _ Hmine Htheirs); congruence.
  - rewrite Hn2 in Hmine.
    destruct (prefix_comparable _ _ _ Hmine Htheirs); congruence.
Qed.

End Isolation.

Example pair_of_constructed :
  exists w1,
    constructor "a" None None empty_world = (Return (first (pair_of "a" "a_b")), w1)
    /\ constructor "a_b" None None w1
       = (Return (second (pair_of "a" "a_b")), world (pair_of "a" "a_b")).
Proof. eexists. split; vm_compute; reflexivity. Qed.

(** C5 as stated fails for the namespaces "a" and "a_b": the key that the
    second instance writes for "x" starts with "a_", and the first instance
    returns it from [getCollection()]. *)
Lemma getCollection_sees_nested_namespace :
  let ran := run_system [(Second, 0, SetItem "x" (JNum 1))] (pair_of "a" "a_b") in
  snd ran = [(Second, "a_b_9dd4e461268c8034f5c8564e155c67a6")]
  /\ fst (getCollection (world (fst ran), first (fst ran)))
     = Return [("a_b_9dd4e461268c8034f5c8564e155c67a6", JNum 1)].
Proof. vm_compute. split; reflexivity. Qed.

(** C5 (amended), on the namespaces "a" and "b". *)
Lemma namespace_isolation_witness :
  let calls := [(Second, 0, SetItem "x" (JNum 1)); (First, 1, SetItem "x" (JNum 2))] in
  let ran := run_system calls (pair_of "a" "b") in
  fst (getCollection (set_clock 5 (world (fst ran)), instance_of First (fst ran)))
  = Return [("a_9dd4e461268c8034f5c8564e155c67a6", JNum 2)]
  /\ Forall (fun key => ~ In (Second, key) (snd ran))
       (map fst [("a_9dd4e461268c8034f5c8564e155c67a6", JNum 2)]).
Proof.
  intros calls ran. split; [vm_compute; reflexivity|].
  apply Forall_forall.
  apply (namespace_isolation calls (pair_of "a" "b") First 5
           [("a_9dd4e461268c8034f5c8564e155c67a6", JNum 2)]
           (snd (getCollection (set_clock 5 (world (fst ran)), instance_of First (fst ran))))).
  - intros key [].
  - intros key [].
  - reflexivity.
  - reflexivity.
  - vm_compute. reflexivity.
Defined.

(* ================================================================== *)
(** ** The loops run to their end

    The two loops that read [storedKeys.length] at every turn are given as
    many turns as the array is long on entry.  No turn lengthens the array, so
    the loop's own test ends it before the turns run out: more turns change
    nothing. *)

Section Turns.

Context {host : Host}.

Lemma shrinks_refl (this : CacheManager) : shrinks this this.
Proof. unfold shrinks. lia. Qed.

Lemma shrinks_trans (a b c : CacheManager) : shrinks a b -> shrinks b c -> shrinks a c.
Proof. unfold shrinks. lia. Qed.

Lemma shrinks_removeItem (key : string) : respects shrinks (removeItem key).
Proof.
  intros [w this]. unfold removeItem. unfold_monad.
  destruct (-1 <? indexOf (storedKeys this) (getNamespaceKey this key)); simpl;
    [|apply shrinks_refl].
  destruct (storage this) as [[st|member]|]; simpl; [|apply shrinks_refl..].
  unfold shrinks. simpl. apply splice1_length.
Qed.

Lemma shrinks_getItem (key : string) : respects shrinks (getItem key).
Proof.
  pose proof shrinks_refl as Hrefl. pose proof shrinks_trans as Htrans.
  unfold getItem.
  apply respects_bind; [exact Htrans|apply respects_read_only, read_only_get_this; exact Hrefl|].
  intros this.
  apply respects_bind;
    [exact Htrans|apply respects_read_only, read_only_storage_getItem; exact Hrefl|].
  intros raw. apply respects_bind; [exact Htrans| |].
  { destruct (is_text (storageType this)); apply respects_read_only;
      [exact Hrefl|apply read_only_JSON_parse_value|exact Hrefl|apply read_only_ret]. }
  intros obj. apply respects_bind; [exact Htrans| |].
  { destruct (is_null obj); apply respects_read_only;
      [exact Hrefl|apply read_only_ret|exact Hrefl|apply read_only_hasOwnProperty]. }
  intros [|]; [|apply respects_read_only; [exact Hrefl|apply read_only_ret]].
  apply respects_bind;
    [exact Htrans|apply respects_read_only; [exact Hrefl|apply read_only_isExpired]|].
  intros [|].
  - apply respects_bind; [exact Htrans|apply shrinks_removeItem|].
    intros _. apply respects_read_only; [exact Hrefl|apply read_only_ret].
  - apply respects_read_only; [exact Hrefl|apply read_only_get_prop].
Qed.

Lemma removeExpired_loop_turn (fuel i : nat) (s : state) :
  removeExpired_loop (S fuel) i s
  = match nth_error (storedKeys (snd s)) i with
    | None => (Return tt, s)
    | Some key =>
        match isExpired key s with
        | (Return expired, s1) =>
            match (if expired then removeItem key else ret tt) s1 with
            | (Return _, s2) => removeExpired_loop fuel (S i) s2
            | (Throw e, s2) => (Throw e, s2)
            end
        | (Throw e, s1) => (Throw e, s1)
        end
    end.
Proof.
  simpl. unfold bind, get_this. simpl.
  destruct (nth_error (storedKeys (snd s)) i); reflexivity.
Qed.

Lemma removeExpired_loop_turns (fuel : nat) :
  forall (fuel' i : nat) (s : state),
    (List.length (storedKeys (snd s)) <= i + fuel)%nat ->
    (List.length (storedKeys (snd s)) <= i + fuel')%nat ->
    removeExpired_loop fuel i s = removeExpired_loop fuel' i s.
Proof.
  assert (Hend : forall n i s, (List.length (storedKeys (snd s)) <= i)%nat ->
                               removeExpired_loop n i s = (Return tt, s)).
  { intros [|n] i s Hlen; [reflexivity|]. rewrite removeExpired_loop_turn.
    rewrite (proj2 (nth_error_None (storedKeys (snd s)) i)) by lia. reflexivity. }
  induction fuel as [|fuel IH]; intros fuel' i s Hfuel Hfuel'.
  - rewrite (Hend fuel' i s) by lia. reflexivity.
  - destruct fuel' as [|fuel'].
    + rewrite (Hend (S fuel) i s) by lia. reflexivity.
    + rewrite !removeExpired_loop_turn.
      destruct (nth_error (storedKeys (snd s)) i) as [key|]; [|reflexivity].
      pose proof (read_only_isExpired key s) as Hro.
      destruct (isExpired key s) as [[expired|e] s1]; simpl in Hro; subst s1; [|reflexivity].
      pose proof (shrinks_removeItem key s) as Hrm. unfold shrinks in Hrm.
      destruct expired.
      * destruct (removeItem key s) as [[[]|e] s2]; simpl in Hrm; [|reflexivity].
        apply IH; lia.
      * unfold ret. apply IH; lia.
Qed.

Lemma getCollection_loop_turn (fuel i : nat) (collection : list (string * jsval))
    (s : state) :
  getCollection_loop (S fuel) i collection s
  = match nth_error (storedKeys (snd s)) i with
    | None => (Return collection, s)
    | Some key =>
        match isExpired key s with
        | (Return true, s1) => getCollection_loop fuel (S i) collection s1
        | (Return false, s1) =>
            match getItem key s1 with
            | (Return v, s2) => getCollection_loop fuel (S i) (object_set collection key v) s2
            | (Throw e, s2) => (Throw e, s2)
            end
        | (Throw e, s1) => (Throw e, s1)
        end
    end.
Proof.
  simpl. unfold bind, get_this. simpl.
  destruct (nth_error (storedKeys (snd s)) i) as [key|]; [|reflexivity].
  destruct (isExpired key s) as [[[|]|e] s1]; reflexivity.
Qed.

Lemma getCollection_loop_turns (fuel : nat) :
  forall (fuel' i : nat) (collection : list (string * jsval)) (s : state),
    (List.length (storedKeys (snd s)) <= i + fuel)%nat ->
    (List.length (storedKeys (snd s)) <= i + fuel')%nat ->
    getCollection_loop fuel i collection s = getCollection_loop fuel' i collection s.
Proof.
  assert (Hend : forall n i c s, (List.length (storedKeys (snd s)) <= i)%nat ->
                                 getCollection_loop n i c s = (Return c, s)).
  { intros [|n] i c s Hlen; [reflexivity|]. rewrite getCollection_loop_turn.
    rewrite (proj2 (nth_error_None (storedKeys (snd s)) i)) by lia. reflexivity. }
  induction fuel as [|fuel IH]; intros fuel' i collection s Hfuel Hfuel'.
  - rewrite (Hend fuel' i collection s) by lia. reflexivity.
  - destruct fuel' as [|fuel'].
    + rewrite (Hend (S fuel) i collection s) by lia. reflexivity.
    + rewrite !getCollection_loop_turn.
      destruct (nth_error (storedKeys (snd s)) i) as [key|]; [|reflexivity].
      pose proof (read_only_isExpired key s) as Hro.
      destruct (isExpired key s) as [[expired|e] s1]; simpl in Hro; subst s1; [|reflexivity].
      destruct expired.
      * apply IH; lia.
      * pose proof (shrinks_getItem key s) as Hget. unfold shrinks in Hget.
        destruct (getItem key s) as [[v|e] s2]; simpl in Hget; [|reflexivity].
        apply IH; lia.
Qed.

(** [removeExpired] with any number of turns no less than the array's
    length is [removeExpired]. *)
Lemma removeExpired_turns (fuel : nat) (s : state) :
  (List.length (storedKeys (snd s)) <= fuel)%nat ->
  removeExpired_loop fuel 0 s = removeExpired s.
Proof.
  intros Hfuel. unfold removeExpired, bind, get_this. simpl.
  apply removeExpired_loop_turns; lia.
Qed.

End Turns.

(* ================================================================== *)
(** * More properties of the cache *)

Lemma alist_get_set_other {A : Type} (l : list (string * A)) (key other : string) (a : A) :
  other <> key -> alist_get (alist_set l key a) other = alist_get l other.
Proof.
  intros Hne. induction l as [|[k b] rest IH]; simpl.
  - destruct (String.eqb key other) eqn:E; [apply String.eqb_eq in E; congruence|reflexivity].
  - destruct (String.eqb k key) eqn:Ek; simpl.
    + apply String.eqb_eq in Ek. subst k.
      destruct (String.eqb key other) eqn:E; [apply String.eqb_eq in E; congruence|reflexivity].
    + destruct (String.eqb k other); [reflexivity|exact IH].
Qed.

Lemma alist_get_remove_other {A : Type} (l : list (string * A)) (key other : string) :
  other <> key -> alist_get (alist_remove l key) other = alist_get l other.
Proof.
  intros Hne. induction l as [|[k b] rest IH]; simpl; [reflexivity|].
  destruct (String.eqb k key) eqn:Ek; simpl.
  - apply String.eqb_eq in Ek. subst k.
    destruct (String.eqb key other) eqn:E; [apply String.eqb_eq in E; congruence|exact IH].
  - destruct (String.eqb k other); [reflexivity|exact IH].
Qed.

Lemma alist_remove_keys {A : Type} (l : list (string * A)) (key : string) :
  map fst (alist_remove l key) = filter (fun k => negb (String.eqb k key)) (map fst l).
Proof.
  induction l as [|[k b] rest IH]; simpl; [reflexivity|].
  destruct (String.eqb k key); simpl; [exact IH|rewrite IH; reflexivity].
Qed.

Lemma storage_get_remove_same (st : Storage) (key : string) (w : World) :
  storage_get st key (storage_remove st key w) = JNull.
Proof. destruct st; simpl; rewrite alist_get_remove_same; reflexivity. Qed.

Lemma storage_get_remove_other (st : Storage) (key other : string) (w : World) :
  other <> key -> storage_get st other (storage_remove st key w) = storage_get st other w.
Proof. intros H. destruct st; simpl; rewrite (alist_get_remove_other _ _ _ H); reflexivity. Qed.

Lemma storage_keys_remove (st : Storage) (key : string) (w : World) :
  storage_keys st (storage_remove st key w)
  = filter (fun k => negb (String.eqb k key)) (storage_keys st w).
Proof. destruct st; simpl; apply alist_remove_keys. Qed.

Lemma splice1_count (keys : list string) (key other : string) :
  In key keys ->
  count_occ string_dec (splice1 keys (Z.to_nat (indexOf keys key))) other
  = if string_dec key other
    then pred (count_occ string_dec keys other)
    else count_occ string_dec keys other.
Proof.
  induction keys as [|k rest IH]; simpl; [tauto|].
  intros Hin. destruct (String.eqb k key) eqn:Ek.
  - apply String.eqb_eq in Ek. subst k. simpl.
    destruct (string_dec key other); reflexivity.
  - apply String.eqb_neq in Ek. destruct Hin as [H|H]; [contradiction|].
    pose proof (proj2 (indexOf_found rest key) H) as Hf. apply Z.ltb_lt in Hf.
    destruct (indexOf rest key <? 0) eqn:E; [apply Z.ltb_lt in E; lia|].
    replace (Z.to_nat (indexOf rest key + 1)) with (S (Z.to_nat (indexOf rest key))) by lia.
    simpl. rewrite (IH H).
    destruct (string_dec k other) as [Hk|Hk]; destruct (string_dec key other) as [Hkey|Hkey];
      try reflexivity.
    congruence.
Qed.

Section Lifetime.

Context {host : Host}.

Lemma life_evolves (calls : list (World * call)) :
  forall this, evolves this (life calls this).
Proof.
  induction calls as [|[w c] rest IH]; intros this; simpl; [apply evolves_refl|].
  apply (evolves_trans _ (snd (snd (perform c (w, this))))); [|apply IH].
  apply (stays_perform c (w, this)).
Qed.

(** X1. An instance keeps, from the constructor on and through any calls in
    any environments, its namespace and its backend, and it only ever tracks
    keys that start with its namespace and an underscore. *)
Theorem tracked_keys_stay_in_namespace (ns : string) (selector : cacheTypeEnumerate)
    (ttl : option jsval) (w : World) (calls : list (World * call)) :
  exists this w',
    constructor ns (Some selector) ttl w = (Return this, w')
    /\ namespace (life calls this) = ns
    /\ storageType (life calls this) = selector
    /\ storage (life calls this) = STORAGE selector
    /\ forall key, In key (storedKeys (life calls this)) -> prefix (ns ++ "_") key = true.
Proof.
  destruct (constructor ns (Some selector) ttl w) as [r w'] eqn:Hc.
  pose proof Hc as Hstate. rewrite constructor_state in Hstate.
  rewrite set_expire_state in Hstate. simpl in Hstate.
  assert (Hthis : exists this, r = Return this /\ namespace this = ns
                               /\ storageType this = selector
                               /\ storage this = STORAGE selector).
  { destruct (schedulable (default_parameter ttl (JNum 3600000)));
      simpl in Hstate; inversion Hstate; subst; eexists; repeat split; reflexivity. }
  destruct Hthis as (this & -> & Hns & Hty & Hst).
  exists this, w'. split; [reflexivity|].
  pose proof (constructor_tracked_ok ns (Some selector) ttl w this w' Hc) as Hok.
  pose proof (life_evolves calls this) as Hev.
  pose proof (evolves_tracked_ok _ _ Hev Hok) as Hok'.
  destruct Hev as (Hn & Hs & Ht & _).
  repeat split; try congruence.
  intros key Hin. rewrite <- Hns, <- Hn. apply Hok'. exact Hin.
Qed.

End Lifetime.

Section Removal.

Context {host : Host}.

(** X2. [removeItem] acts on tracked keys only.  When the storage key of the
    argument is tracked, the entry leaves the storage and one occurrence of
    the key leaves the tracked keys, every other entry and key staying; when
    it is not tracked, nothing changes, whether the storage holds such an
    entry or not. *)
Theorem removeItem_effect (w : World) (this : CacheManager) (st : Storage) (key : string) :
  storage this = Some (Backend st) ->
  let storageKey := getNamespaceKey this key in
  let after := snd (removeItem key (w, this)) in
  fst (removeItem key (w, this)) = Return tt
  /\ (In storageKey (storedKeys this) ->
      storage_get st storageKey (fst after) = JNull
      /\ (forall other, other <> storageKey ->
                        storage_get st other (fst after) = storage_get st other w)
      /\ (forall other,
             count_occ string_dec (storedKeys (snd after)) other
             = if string_dec storageKey other
               then pred (count_occ string_dec (storedKeys this) other)
               else count_occ string_dec (storedKeys this) other))
  /\ (~ In storageKey (storedKeys this) -> after = (w, this)).
Proof.
  intros Hst storageKey after. subst after storageKey.
  unfold removeItem. unfold_monad.
  destruct (-1 <? indexOf (storedKeys this) (getNamespaceKey this key)) eqn:E; simpl.
  - rewrite Hst. simpl. split; [reflexivity|].
    apply indexOf_found in E. split.
    + intros _. split; [apply storage_get_remove_same|]. split.
      * intros other Hne. apply storage_get_remove_other. exact Hne.
      * intros other. apply splice1_count. exact E.
    + intros Hout. contradiction.
  - split; [reflexivity|]. apply indexOf_absent in E. split.
    + intros Hin. contradiction.
    + intros _. reflexivity.
Qed.

Lemma clear_loop_state (st : Storage) (keys : list string) :
  forall (w : World) (this : CacheManager),
    storage this = Some (Backend st) ->
    clear_loop keys (w, this) = (Return tt, (without st keys w, this)).
Proof.
  induction keys as [|key rest IH]; intros w this Hst; simpl; [reflexivity|].
  unfold bind at 1. unfold storage_removeItem at 1. unfold_monad. rewrite Hst. simpl.
  apply (IH (storage_remove st key w) this Hst).
Qed.

Lemma without_get (st : Storage) (keys : list string) (key : string) :
  forall w, storage_get st key (without st keys w)
            = if in_dec string_dec key keys then JNull else storage_get st key w.
Proof.
  induction keys as [|k rest IH]; intros w; simpl; [reflexivity|].
  unfold without in *. simpl. rewrite IH.
  destruct (in_dec string_dec key rest) as [Hin|Hout];
    destruct (string_dec k key) as [Hk|Hk]; try reflexivity.
  - subst k. apply storage_get_remove_same.
  - apply storage_get_remove_other. congruence.
Qed.

Lemma without_keys (st : Storage) (keys : list string) :
  forall w, storage_keys st (without st keys w)
            = filter (fun k => if in_dec string_dec k keys then false else true)
                (storage_keys st w).
Proof.
  induction keys as [|k rest IH]; intros w; simpl.
  - unfold without. simpl. induction (storage_keys st w) as [|x xs IHx]; simpl;
      [reflexivity|rewrite <- IHx; reflexivity].
  - unfold without in *. simpl. rewrite IH. rewrite storage_keys_remove.
    induction (storage_keys st w) as [|x xs IHx]; simpl; [reflexivity|].
    destruct (String.eqb x k) eqn:Ex; simpl.
    + apply String.eqb_eq in Ex. subst x.
      destruct (string_dec k k) as [_|n]; [exact IHx|contradiction].
    + apply String.eqb_neq in Ex.
      destruct (string_dec k x) as [Hk|Hk]; [congruence|].
      destruct (in_dec string_dec x rest); simpl; rewrite IHx; reflexivity.
Qed.

Lemma without_other_storage (st st' : Storage) (keys : list string) (key : string) :
  st' <> st -> forall w, storage_get st' key (without st keys w) = storage_get st' key w.
Proof.
  intros Hne. induction keys as [|k rest IH]; intros w; [reflexivity|].
  unfold without in *. simpl. rewrite IH.
  destruct st, st'; try contradiction; reflexivity.
Qed.

Lemma without_timers (st : Storage) (keys : list string) :
  forall w, timers (without st keys w) = timers w /\ clock (without st keys w) = clock w.
Proof.
  induction keys as [|k rest IH]; intros w; [split; reflexivity|].
  unfold without in *. simpl. destruct (IH (storage_remove st k w)) as [Ht Hc].
  rewrite Ht, Hc. destruct st; split; reflexivity.
Qed.

(** X3. On an instance with a backend, [clear()] returns; it removes from
    the storage the entry of every tracked key and no other entry, leaves the
    other storages and the timers alone, and empties the tracked keys.  A
    second [clear()] changes nothing. *)
Theorem clear_effect (w : World) (this : CacheManager) (st : Storage) :
  storage this = Some (Backend st) ->
  let cleared := snd (clear (w, this)) in
  fst (clear (w, this)) = Return tt
  /\ storedKeys (snd cleared) = []
  /\ (forall key, storage_get st key (fst cleared)
                  = if in_dec string_dec key (storedKeys this) then JNull
                    else storage_get st key w)
  /\ (forall st' key, st' <> st -> storage_get st' key (fst cleared) = storage_get st' key w)
  /\ timers (fst cleared) = timers w
  /\ clear cleared = (Return tt, cleared).
Proof.
  intros Hst cleared. subst cleared.
  assert (Hclear : clear (w, this)
                   = (Return tt, (without st (storedKeys this) w, with_storedKeys this []))).
  { unfold clear. unfold bind at 1 2, get_this. simpl.
    rewrite (clear_loop_state st (storedKeys this) w this Hst). reflexivity. }
  rewrite Hclear. simpl.
  split; [reflexivity|]. split; [reflexivity|].
  split; [intros key; apply without_get|].
  split; [intros st' key Hne; apply without_other_storage; exact Hne|].
  split; [apply without_timers|].
  unfold clear. unfold bind at 1 2, get_this. simpl. reflexivity.
Qed.

End Removal.

(** X2, on a written key and on a key never written. *)
Lemma removeItem_effect_witness :
  let s := snd (setItem "alice" alice (empty_world, users LOCAL)) in
  fst (removeItem "alice" s) = Return tt
  /\ storage_get localStorage (getNamespaceKey (snd s) "alice")
       (fst (snd (removeItem "alice" s))) = JNull
  /\ snd (removeItem "bob" s) = s.
Proof.
  intros s.
  pose proof (removeItem_effect (fst s) (snd s) localStorage "alice" eq_refl) as Ha.
  pose proof (removeItem_effect (fst s) (snd s) localStorage "bob" eq_refl) as Hb.
  cbv zeta in Ha, Hb. destruct Ha as (Hret & Hin & _). destruct Hb as (_ & _ & Hout).
  assert (Hs : (fst s, snd s) = s) by (vm_compute; reflexivity).
  rewrite Hs in *.
  split; [exact Hret|]. split.
  - apply Hin. vm_compute. left. reflexivity.
  - apply Hout. vm_compute. intros [H|[]]. discriminate H.
Defined.

(** X3, on two written keys. *)
Lemma clear_effect_witness :
  let s := run [(0, SetItem "alice" alice); (0, SetItem "bob" (JNum 2))]
             (empty_world, users SESSION) in
  fst (clear s) = Return tt
  /\ storedKeys (snd (snd (clear s))) = []
  /\ clear (snd (clear s)) = (Return tt, snd (clear s)).
Proof.
  intros s.
  pose proof (clear_effect (fst s) (snd s) sessionStorage eq_refl) as H.
  cbv zeta in H. destruct H as (H1 & H2 & _ & _ & _ & H6).
  assert (Hs : (fst s, snd s) = s) by (vm_compute; reflexivity).
  rewrite Hs in *.
  split; [exact H1|]. split; [exact H2|exact H6].
Defined.

Section Collection.

Context {host : Host}.

(** off the branch that removes an expired entry, [getItem] only reads *)
Lemma getItem_keeps_state (key : string) (s : state) :
  fst (isExpired key s) <> Return true -> snd (getItem key s) = s.
Proof.
  intros Hfresh. unfold getItem. unfold bind at 1, get_this. simpl.
  unfold bind at 1.
  pose proof (read_only_storage_getItem (getNamespaceKey (snd s) key) s) as Hraw.
  destruct (storage_getItem (getNamespaceKey (snd s) key) s) as [[raw|e] s1];
    simpl in Hraw; subst s1; [|reflexivity].
  unfold bind at 1.
  assert (Hparse : read_only (if is_text (storageType (snd s)) then JSON_parse_value raw
                              else ret raw)).
  { destruct (is_text (storageType (snd s)));
      [apply read_only_JSON_parse_value|apply read_only_ret]. }
  specialize (Hparse s).
  destruct ((if is_text (storageType (snd s)) then JSON_parse_value raw else ret raw) s)
    as [[obj|e] s1]; simpl in Hparse; subst s1; [|reflexivity].
  unfold bind at 1.
  assert (Hown : read_only (if is_null obj then ret false else hasOwnProperty obj "t")).
  { destruct (is_null obj); [apply read_only_ret|apply read_only_hasOwnProperty]. }
  specialize (Hown s).
  destruct ((if is_null obj then ret false else hasOwnProperty obj "t") s)
    as [[own|e] s1]; simpl in Hown; subst s1; [|reflexivity].
  destruct own; [|reflexivity].
  unfold bind at 1.
  pose proof (read_only_isExpired key s) as Hexp.
  destruct (isExpired key s) as [[expired|e] s1]; simpl in Hexp, Hfresh; subst s1;
    [|reflexivity].
  destruct expired; [contradiction Hfresh; reflexivity|].
  apply read_only_get_prop.
Qed.

Lemma skipn_nth_cons {A : Type} (l : list A) (i : nat) (a : A) :
  nth_error l i = Some a -> skipn i l = a :: skipn (S i) l.
Proof.
  revert i. induction l as [|x l IH]; intros [|i] H; simpl in *; try discriminate.
  - inversion H. reflexivity.
  - apply (IH i H).
Qed.

Lemma skipn_nth_nil {A : Type} (l : list A) (i : nat) :
  nth_error l i = None -> skipn i l = [].
Proof. intros H. apply skipn_all2. apply nth_error_None. exact H. Qed.

(** the loop of [getCollection] is [collect] over the keys from [i] on, and
    leaves the state as it finds it *)
Lemma getCollection_loop_collect (fuel : nat) :
  forall (i : nat) (collection : list (string * jsval)) (s : state),
    (List.length (storedKeys (snd s)) <= i + fuel)%nat ->
    getCollection_loop fuel i collection s
    = (collect (skipn i (storedKeys (snd s))) collection s, s).
Proof.
  induction fuel as [|fuel IH]; intros i collection s Hfuel.
  - simpl. rewrite skipn_all2 by lia. reflexivity.
  - rewrite getCollection_loop_turn.
    destruct (nth_error (storedKeys (snd s)) i) as [key|] eqn:Enth.
    + rewrite (skipn_nth_cons _ _ _ Enth). simpl.
      pose proof (read_only_isExpired key s) as Hro.
      pose proof (getItem_keeps_state key s) as Hkeep.
      destruct (isExpired key s) as [[[|]|e] s1]; simpl in *; subst s1.
      * apply IH. lia.
      * assert (Hs : snd (getItem key s) = s) by (apply Hkeep; discriminate).
        destruct (getItem key s) as [[v|e] s2]; simpl in *; subst s2; [|reflexivity].
        apply IH. lia.
      * reflexivity.
    + rewrite (skipn_nth_nil _ _ Enth). reflexivity.
Qed.

Lemma getCollection_collect (w : World) (this : CacheManager) :
  getCollection (w, this)
  = (collect (scanned w this) [] (w, with_storedKeys this (scanned w this)),
     (w, with_storedKeys this (scanned w this))).
Proof.
  unfold getCollection. unfold bind at 1 2. rewrite getStoredKeys_state.
  unfold set_storedKeys at 1. unfold_monad.
  change (mkCacheManager (storage this) (storageType this) (namespace this)
            (scanned w this) (expire this) (interval this))
    with (with_storedKeys this (scanned w this)).
  rewrite getCollection_loop_collect by (simpl; lia). reflexivity.
Qed.

Lemma object_set_get_same (o : list (string * jsval)) (key : string) (v : jsval) :
  key <> "__proto__" -> alist_get (object_set o key v) key = Some v.
Proof.
  intros Hne. unfold object_set.
  destruct (String.eqb key "__proto__") eqn:E; [apply String.eqb_eq in E; contradiction|].
  apply alist_get_set_same.
Qed.

Lemma object_set_get_other (o : list (string * jsval)) (key other : string) (v : jsval) :
  other <> key -> alist_get (object_set o key v) other = alist_get o other.
Proof.
  intros Hne. unfold object_set. destruct (String.eqb key "__proto__"); [reflexivity|].
  apply alist_get_set_other. exact Hne.
Qed.

Lemma collect_sound (s : state) (Q : string -> jsval -> Prop) (keys : list string) :
  forall collection result,
    collect keys collection s = Return result ->
    (forall k v, alist_get collection k = Some v -> Q k v) ->
    (forall k v, In k keys -> collectable s k v -> Q k v) ->
    forall k v, alist_get result k = Some v -> Q k v.
Proof.
  induction keys as [|key rest IH]; intros collection result Hrun Hold Hnew k v Hget;
    simpl in Hrun.
  - inversion Hrun. subst. apply Hold. exact Hget.
  - destruct (fst (isExpired key s)) as [[|]|e] eqn:Eexp; [| |discriminate].
    + apply (IH collection result Hrun Hold); [|exact Hget].
      intros k' v' Hin. apply Hnew. right. exact Hin.
    + destruct (fst (getItem key s)) as [v0|e] eqn:Eget; [|discriminate].
      apply (IH (object_set collection key v0) result Hrun); [| |exact Hget].
      * intros k' v' Hk'. unfold object_set in Hk'.
        destruct (String.eqb key "__proto__") eqn:Eproto; [apply Hold; exact Hk'|].
        destruct (string_dec k' key) as [->|Hne].
        -- rewrite alist_get_set_same in Hk'. inversion Hk'. subst v'.
           apply Hnew; [left; reflexivity|].
           apply String.eqb_neq in Eproto. repeat split; assumption.
        -- rewrite (alist_get_set_other _ _ _ _ Hne) in Hk'. apply Hold. exact Hk'.
      * intros k' v' Hin. apply Hnew. right. exact Hin.
Qed.

Lemma collect_complete (s : state) (keys : list string) :
  forall collection result,
    collect keys collection s = Return result ->
    (forall k, alist_get collection k <> None -> alist_get result k <> None)
    /\ (forall k v, In k keys -> collectable s k v -> alist_get result k <> None).
Proof.
  induction keys as [|key rest IH]; intros collection result Hrun; simpl in Hrun.
  - inversion Hrun. subst. split; [auto|intros k v []].
  - destruct (fst (isExpired key s)) as [[|]|e] eqn:Eexp; [| |discriminate].
    + destruct (IH collection result Hrun) as [Hold Hnew]. split; [exact Hold|].
      intros k v [->|Hin] Hc; [|apply (Hnew k v Hin Hc)].
      destruct Hc as (_ & Hfresh & _). congruence.
    + destruct (fst (getItem key s)) as [v0|e] eqn:Eget; [|discriminate].
      destruct (IH (object_set collection key v0) result Hrun) as [Hold Hnew]. split.
      * intros k Hk. apply Hold.
        destruct (string_dec k key) as [->|Hne].
        -- unfold object_set. destruct (String.eqb key "__proto__"); [exact Hk|].
           rewrite alist_get_set_same. discriminate.
        -- rewrite (object_set_get_other _ _ _ _ Hne). exact Hk.
      * intros k v [->|Hin] Hc; [|apply (Hnew k v Hin Hc)].
        apply Hold. destruct Hc as (Hproto & _).
        rewrite (object_set_get_same _ _ _ Hproto). discriminate.
Qed.

(** X4. [getCollection()] takes the keys of the namespace found in the
    storage as the new tracked keys and changes nothing else, whether it
    returns or throws.  When it returns, the collection has exactly the keys
    found that are not expired, each with the value [getItem] returns for
    it. *)
Theorem getCollection_effect (w : World) (this : CacheManager) :
  let refreshed := (w, with_storedKeys this (scanned w this)) in
  snd (getCollection (w, this)) = refreshed
  /\ forall result,
       fst (getCollection (w, this)) = Return result ->
       forall key v,
         alist_get result key = Some v
         <-> (In key (scanned w this)
              /\ key <> "__proto__"
              /\ fst (isExpired key refreshed) = Return false
              /\ fst (getItem key refreshed) = Return v).
Proof.
  intros refreshed. rewrite getCollection_collect. simpl.
  split; [reflexivity|].
  intros result Hrun key v. fold refreshed in Hrun. split.
  - intros Hget.
    apply (collect_sound refreshed
             (fun k v => In k (scanned w this) /\ k <> "__proto__"
                         /\ fst (isExpired k refreshed) = Return false
                         /\ fst (getItem k refreshed) = Return v)
             (scanned w this) [] result Hrun); [| |exact Hget].
    + intros k v0 H. discriminate H.
    + intros k v0 Hin (H1 & H2 & H3). auto.
  - intros (Hin & Hproto & Hfresh & Hvalue).
    destruct (collect_complete refreshed (scanned w this) [] result Hrun) as [_ Hnew].
    specialize (Hnew key v Hin (conj Hproto (conj Hfresh Hvalue))).
    destruct (alist_get result key) as [v'|] eqn:Eget; [|contradiction].
    assert (Hc : collectable refreshed key v').
    { apply (collect_sound refreshed (collectable refreshed) (scanned w this) [] result Hrun);
        [intros k v0 H; discriminate H|intros k v0 _ H; exact H|exact Eget]. }
    destruct Hc as (_ & _ & Hv'). congruence.
Qed.

(** X5. When every key of the namespace in the storage is tracked,
    [clear()] leaves an empty collection: [getCollection()] returns no entry
    and [size] is 0. *)
Theorem clear_empties_collection (w : World) (this : CacheManager) (st : Storage) :
  storage this = Some (Backend st) ->
  (forall key, In key (scanned w this) -> In key (storedKeys this)) ->
  fst (getCollection (snd (clear (w, this)))) = Return []
  /\ fst (size (snd (clear (w, this)))) = Return 0.
Proof.
  intros Hst Hall.
  assert (Hclear : clear (w, this)
                   = (Return tt, (without st (storedKeys this) w, with_storedKeys this []))).
  { unfold clear. unfold bind at 1 2, get_this. simpl.
    rewrite (clear_loop_state st (storedKeys this) w this Hst). reflexivity. }
  rewrite Hclear. simpl.
  assert (Hscan : scanned (without st (storedKeys this) w) (with_storedKeys this []) = []).
  { unfold scanned. simpl. rewrite Hst. rewrite without_keys.
    assert (Hsub : forall key, In key (storage_keys st w) ->
                               prefix (namespace this ++ "_") key = true ->
                               In key (storedKeys this)).
    { intros key Hin Hpre. apply Hall. unfold scanned. rewrite Hst.
      apply filter_In. split; assumption. }
    induction (storage_keys st w) as [|x xs IHx]; simpl; [reflexivity|].
    destruct (in_dec string_dec x (storedKeys this)) as [Hx|Hx]; simpl.
    - apply IHx. intros key Hin. apply Hsub. right. exact Hin.
    - destruct (prefix (namespace this ++ "_") x) eqn:Epre.
      + exfalso. apply Hx. apply Hsub; [left; reflexivity|exact Epre].
      + apply IHx. intros key Hin. apply Hsub. right. exact Hin. }
  assert (Hcoll : getCollection (without st (storedKeys this) w, with_storedKeys this [])
                  = (Return [], (without st (storedKeys this) w, with_storedKeys this []))).
  { rewrite getCollection_collect. rewrite Hscan. reflexivity. }
  split.
  - rewrite Hcoll. reflexivity.
  - unfold size, bind. rewrite Hcoll. reflexivity.
Qed.

End Collection.

(** X4, on two entries read at 500, and at 1500 when both are past their
    ttl. *)
Lemma getCollection_effect_witness :
  let s := run [(0, SetItem "alice" alice); (0, SetItem "bob" (JNum 2))]
             (empty_world, users MEMORY) in
  snd (getCollection (at_time 500 s)) = at_time 500 s
  /\ fst (getCollection (at_time 500 s))
     = Return [("users_6384e2b2184bcbf58eccf10ca7a6563c", alice);
               ("users_9f9d51bc70ef21ca5c14f307980a29d8", JNum 2)]
  /\ fst (getCollection (at_time 1500 s)) = Return [].
Proof.
  intros s. split; [|split; vm_compute; reflexivity].
  pose proof (proj1 (getCollection_effect (fst (at_time 500 s)) (snd (at_time 500 s)))) as H.
  assert (Hs : (fst (at_time 500 s), snd (at_time 500 s)) = at_time 500 s)
    by (vm_compute; reflexivity).
  rewrite Hs in H. rewrite H. vm_compute. reflexivity.
Defined.

(** X5, on two written keys. *)
Lemma clear_empties_collection_witness :
  let s := run [(0, SetItem "alice" alice); (0, SetItem "bob" (JNum 2))]
             (empty_world, users LOCAL) in
  fst (getCollection (snd (clear s))) = Return []
  /\ fst (size (snd (clear s))) = Return 0.
Proof.
  intros s.
  assert (Hs : (fst s, snd s) = s) by (vm_compute; reflexivity).
  rewrite <- Hs.
  apply (clear_empties_collection (fst s) (snd s) localStorage eq_refl).
  vm_compute. intros key [H|[H|[]]]; [left|right; left]; exact H.
Defined.

(* ================================================================== *)
(** ** What a sweep does keep and does reach *)

Lemma splice1_length_found (keys : list string) (key : string) :
  In key keys ->
  S (List.length (splice1 keys (Z.to_nat (indexOf keys key)))) = List.length keys.
Proof.
  induction keys as [|k rest IH]; simpl; [tauto|].
  intros Hin. destruct (String.eqb k key) eqn:Ek; [reflexivity|].
  apply String.eqb_neq in Ek. destruct Hin as [H|H]; [contradiction|].
  pose proof (proj2 (indexOf_found rest key) H) as Hf. apply Z.ltb_lt in Hf.
  destruct (indexOf rest key <? 0) eqn:E; [apply Z.ltb_lt in E; lia|].
  replace (Z.to_nat (indexOf rest key + 1)) with (S (Z.to_nat (indexOf rest key))) by lia.
  simpl. rewrite (IH H). reflexivity.
Qed.

Section Sweep.

Context {host : Host}.

Lemma removeItem_tracked_state (w : World) (this : CacheManager) (st : Storage)
    (key : string) :
  storage this = Some (Backend st) ->
  In key (storedKeys this) ->
  removeItem key (w, this)
  = (Return tt,
     (storage_remove st key w,
      with_storedKeys this
        (splice1 (storedKeys this) (Z.to_nat (indexOf (storedKeys this) key))))).
Proof.
  intros Hst Hin. unfold removeItem. unfold_monad.
  rewrite (getNamespaceKey_tracked this key Hin).
  rewrite (proj2 (indexOf_found _ _) Hin). simpl. rewrite Hst. reflexivity.
Qed.

Lemma isExpired_expiry (key : string) (w : World) (this : CacheManager) :
  isExpired key (w, this)
  = (expiry (expire this) (storageType this)
       (option_map (fun st => storage_get st (getNamespaceKey this key) w) (backend_of this))
       (clock w),
     (w, this)).
Proof.
  unfold isExpired, expiry. unfold_monad.
  destruct (negb (typeof_number (expire this)) || js_le (ToNumber (expire this)) (Some 0));
    [reflexivity|].
  unfold backend_of. simpl.
  destruct (storage this) as [[st|member]|]; simpl; [|reflexivity..].
  set (raw := storage_get st (getNamespaceKey this key) w).
  destruct (is_text (storageType this)); simpl.
  - unfold try_catch, JSON_parse_value.
    destruct raw as [| | | | | | |rawfields]; simpl; try reflexivity;
      match goal with
      | |- context [JSON_parse ?text] =>
          destruct (JSON_parse text) as [[| | | | | | |parsed]|]; simpl; try reflexivity;
          try (destruct (alist_get parsed "t"); reflexivity);
          try (destruct (alist_get rawfields "t"); reflexivity)
      end.
  - destruct raw as [| | | | | | |fields]; simpl; try reflexivity.
    destruct (alist_get fields "t"); reflexivity.
Qed.

(** [isExpired] reads the ttl, the backend, the clock, and the entry under
    the derived key; where these agree, so does its answer *)
Lemma isExpired_same (key : string) (w w' : World) (this this' : CacheManager) :
  expire this' = expire this ->
  storageType this' = storageType this ->
  storage this' = storage this ->
  clock w' = clock w ->
  getNamespaceKey this' key = getNamespaceKey this key ->
  (forall st, storage this = Some (Backend st) ->
              storage_get st (getNamespaceKey this key) w'
              = storage_get st (getNamespaceKey this key) w) ->
  fst (isExpired key (w', this')) = fst (isExpired key (w, this)).
Proof.
  intros He Ht Hs Hc Hk Hget. rewrite !isExpired_expiry. simpl.
  unfold backend_of. rewrite He, Ht, Hs, Hc, Hk.
  destruct (storage this) as [[st|member]|]; simpl; [|reflexivity..].
  rewrite (Hget st eq_refl). reflexivity.
Qed.

Lemma expiry_absent (ttl : jsval) (storageType : cacheTypeEnumerate) (raw : option jsval)
    (now : Z) :
  expiry ttl storageType raw now = Return true ->
  expiry ttl storageType (Some JNull) now = Return true.
Proof.
  unfold expiry.
  destruct (negb (typeof_number ttl) || js_le (ToNumber ttl) (Some 0)); [discriminate|].
  intros _. destruct (is_text storageType); reflexivity.
Qed.

Lemma removeExpired_loop_invariant (P : state -> Prop) :
  (forall s key, P s -> In key (storedKeys (snd s)) ->
                 fst (isExpired key s) = Return true -> P (snd (removeItem key s))) ->
  forall fuel i s, P s -> P (snd (removeExpired_loop fuel i s)).
Proof.
  intros Hstep. induction fuel as [|fuel IH]; intros i s HP; [exact HP|].
  rewrite removeExpired_loop_turn.
  destruct (nth_error (storedKeys (snd s)) i) as [key|] eqn:Enth; [|exact HP].
  pose proof (read_only_isExpired key s) as Hro.
  specialize (Hstep s key HP (nth_error_In _ _ Enth)).
  destruct (isExpired key s) as [[[|]|e] s1]; simpl in *; subst s1; [| |exact HP].
  - specialize (Hstep eq_refl).
    destruct (removeItem key s) as [[[]|e] s2]; simpl in *; [apply IH|]; exact Hstep.
  - unfold ret. apply IH. exact HP.
Qed.

Lemma clock_storage_remove (st : Storage) (key : string) (w : World) :
  clock (storage_remove st key w) = clock w.
Proof. destruct st; reflexivity. Qed.

Lemma sweepable_removeItem (st : Storage) (s : state) (key : string) :
  sweepable st s ->
  In key (storedKeys (snd s)) ->
  fst (isExpired key s) = Return true ->
  sweepable st (snd (removeItem key s)).
Proof.
  destruct s as [w this]. intros [Hst Hno] Hin Hexp. simpl in Hst, Hin.
  rewrite (removeItem_tracked_state w this st key Hst Hin). simpl.
  split; [exact Hst|].
  intros k e Hk. simpl in Hk.
  pose proof (splice1_subset _ _ _ Hk) as Hk0.
  rewrite isExpired_expiry in Hexp. unfold backend_of in Hexp. simpl in Hexp.
  rewrite Hst in Hexp. simpl in Hexp.
  rewrite (getNamespaceKey_tracked this key Hin) in Hexp.
  specialize (Hno k e Hk0).
  rewrite isExpired_expiry in Hno. unfold backend_of in Hno. simpl in Hno.
  rewrite Hst in Hno. simpl in Hno.
  rewrite (getNamespaceKey_tracked this k Hk0) in Hno.
  rewrite isExpired_expiry. unfold backend_of. simpl. rewrite Hst. simpl.
  rewrite clock_storage_remove.
  rewrite (getNamespaceKey_tracked
             (with_storedKeys this
                (splice1 (storedKeys this) (Z.to_nat (indexOf (storedKeys this) key)))) k Hk).
  destruct (string_dec k key) as [->|Hne].
  - rewrite storage_get_remove_same. rewrite (expiry_absent _ _ _ _ Hexp). discriminate.
  - rewrite (storage_get_remove_other st key k w Hne). exact Hno.
Qed.

Lemma removeExpired_loop_returns (st : Storage) (fuel : nat) :
  forall i s, sweepable st s -> fst (removeExpired_loop fuel i s) = Return tt.
Proof.
  induction fuel as [|fuel IH]; intros i s Hs; [reflexivity|].
  rewrite removeExpired_loop_turn.
  destruct (nth_error (storedKeys (snd s)) i) as [key|] eqn:Enth; [|reflexivity].
  pose proof (nth_error_In _ _ Enth) as Hin.
  pose proof (read_only_isExpired key s) as Hro.
  pose proof (sweepable_removeItem st s key Hs Hin) as Hrm.
  pose proof (proj2 Hs key) as Hno.
  destruct (isExpired key s) as [[[|]|e] s1]; simpl in *; subst s1.
  - specialize (Hrm eq_refl). destruct s as [w this].
    rewrite (removeItem_tracked_state w this st key (proj1 Hs) Hin) in *. simpl in *.
    apply IH. exact Hrm.
  - unfold ret. apply IH. exact Hs.
  - exfalso. apply (Hno e Hin). reflexivity.
Qed.

Lemma shrinks_removeExpired_loop (fuel : nat) :
  forall i, respects shrinks (removeExpired_loop fuel i).
Proof.
  induction fuel as [|fuel IH]; intros i s; simpl; [apply shrinks_refl|].
  change (shrinks (snd s) (snd (snd (removeExpired_loop (S fuel) i s)))).
  rewrite removeExpired_loop_turn.
  destruct (nth_error (storedKeys (snd s)) i) as [key|]; [|apply shrinks_refl].
  pose proof (read_only_isExpired key s) as Hro.
  destruct (isExpired key s) as [[expired|e] s1]; simpl in Hro; subst s1; [|apply shrinks_refl].
  pose proof (shrinks_removeItem key s) as Hrm.
  destruct expired.
  - destruct (removeItem key s) as [[[]|e] s2]; simpl in Hrm; [|exact Hrm].
    apply (shrinks_trans _ _ _ Hrm). apply IH.
  - unfold ret. apply IH.
Qed.

Lemma removeExpired_loop_progress (st : Storage) (fuel : nat) :
  forall i s,
    sweepable st s ->
    (exists j key, (i <= j)%nat /\ nth_error (storedKeys (snd s)) j = Some key
                   /\ fst (isExpired key s) = Return true) ->
    (List.length (storedKeys (snd s)) <= i + fuel)%nat ->
    (List.length (storedKeys (snd (snd (removeExpired_loop fuel i s))))
     < List.length (storedKeys (snd s)))%nat.
Proof.
  induction fuel as [|fuel IH]; intros i s Hs (j & k & Hij & Hj & Hk) Hfuel.
  - exfalso. assert (j < List.length (storedKeys (snd s)))%nat
      by (apply nth_error_Some; congruence). lia.
  - assert (Hlen : (j < List.length (storedKeys (snd s)))%nat)
      by (apply nth_error_Some; congruence).
    rewrite removeExpired_loop_turn.
    destruct (nth_error (storedKeys (snd s)) i) as [key|] eqn:Enth;
      [|apply nth_error_None in Enth; lia].
    pose proof (nth_error_In _ _ Enth) as Hin.
    pose proof (read_only_isExpired key s) as Hro.
    pose proof (proj2 Hs key) as Hno.
    destruct (isExpired key s) as [[[|]|e] s1] eqn:Eexp; simpl in Hro; subst s1.
    + destruct s as [w this].
      rewrite (removeItem_tracked_state w this st key (proj1 Hs) Hin).
      match goal with |- context [removeExpired_loop fuel (S i) ?s1] =>
        pose proof (shrinks_removeExpired_loop fuel (S i) s1) as Hshr end.
      unfold shrinks in Hshr. simpl in *.
      pose proof (splice1_length_found (storedKeys this) key Hin). lia.
    + unfold ret. apply IH; [exact Hs| |lia].
      exists j, k. split; [|split; assumption].
      destruct (Nat.eq_dec i j) as [->|Hne]; [|lia].
      rewrite Hj in Enth. injection Enth as Heq. rewrite Heq in Hk.
      rewrite Eexp in Hk. discriminate Hk.
    + exfalso. apply (Hno e Hin). reflexivity.
Qed.

(** a sweep over keys none of which is expired changes nothing *)
Lemma removeExpired_loop_idle (fuel : nat) :
  forall i s,
    (forall key, In key (storedKeys (snd s)) -> fst (isExpired key s) = Return false) ->
    removeExpired_loop fuel i s = (Return tt, s).
Proof.
  induction fuel as [|fuel IH]; intros i s Hfresh; [reflexivity|].
  rewrite removeExpired_loop_turn.
  destruct (nth_error (storedKeys (snd s)) i) as [key|] eqn:Enth; [|reflexivity].
  pose proof (nth_error_In _ _ Enth) as Hin.
  pose proof (read_only_isExpired key s) as Hro.
  specialize (Hfresh key Hin) as Hk.
  destruct (isExpired key s) as [[[|]|e] s1]; simpl in *; subst s1; try discriminate.
  unfold ret. apply IH. exact Hfresh.
Qed.

(** X6. A sweep never takes a key that is not expired: such a key keeps all
    its occurrences among the tracked keys and its entry in the storage, and
    is still not expired after the sweep. *)
Theorem removeExpired_keeps_fresh (w : World) (this : CacheManager) (st : Storage)
    (key : string) :
  storage this = Some (Backend st) ->
  In key (storedKeys this) ->
  fst (isExpired key (w, this)) = Return false ->
  let swept := snd (removeExpired (w, this)) in
  count_occ string_dec (storedKeys (snd swept)) key
  = count_occ string_dec (storedKeys this) key
  /\ storage_get st key (fst swept) = storage_get st key w
  /\ fst (isExpired key swept) = Return false.
Proof.
  intros Hst Hin Hfresh swept.
  set (P := fun s : state =>
              expire (snd s) = expire this /\ storageType (snd s) = storageType this
              /\ storage (snd s) = storage this /\ clock (fst s) = clock w
              /\ count_occ string_dec (storedKeys (snd s)) key
                 = count_occ string_dec (storedKeys this) key
              /\ storage_get st key (fst s) = storage_get st key w).
  assert (Hcount : (count_occ string_dec (storedKeys this) key > 0)%nat)
    by (apply count_occ_In; exact Hin).
  assert (Hkeep : forall s, P s -> fst (isExpired key s) = Return false).
  { intros [w1 this1] (He & Ht & Hs & Hc & Hn & Hg). simpl in *.
    assert (Hin1 : In key (storedKeys this1))
      by (apply (count_occ_In string_dec); rewrite Hn; exact Hcount).
    rewrite <- Hfresh. apply isExpired_same; try assumption.
    - rewrite (getNamespaceKey_tracked this1 key Hin1).
      rewrite (getNamespaceKey_tracked this key Hin). reflexivity.
    - intros st0 Hst0. rewrite Hst in Hst0. inversion Hst0. subst st0.
      rewrite (getNamespaceKey_tracked this key Hin). exact Hg. }
  assert (HP : P swept).
  { subst swept. unfold removeExpired, bind, get_this. simpl.
    apply (removeExpired_loop_invariant P).
    - intros [w1 this1] k HP1 Hk Hexp.
      pose proof (Hkeep _ HP1) as Hkey.
      destruct HP1 as (He & Ht & Hs & Hc & Hn & Hg). simpl in *.
      assert (Hne : k <> key) by (intros ->; congruence).
      assert (Hst1 : storage this1 = Some (Backend st)) by congruence.
      rewrite (removeItem_tracked_state w1 this1 st k Hst1 Hk). unfold P. simpl.
      split; [exact He|]. split; [exact Ht|]. split; [exact Hs|].
      split; [rewrite clock_storage_remove; exact Hc|]. split.
      + rewrite (splice1_count _ k key Hk).
        destruct (string_dec k key); [contradiction|exact Hn].
      + rewrite storage_get_remove_other; [exact Hg|congruence].
    - unfold P. simpl. repeat split; reflexivity. }
  pose proof (Hkeep _ HP) as Hfinal.
  destruct HP as (_ & _ & _ & _ & Hn & Hg).
  repeat split; assumption.
Qed.

Lemma removeExpired_removes (st : Storage) (s : state) :
  sweepable st s ->
  (exists key, In key (storedKeys (snd s)) /\ fst (isExpired key s) = Return true) ->
  (List.length (storedKeys (snd (snd (removeExpired s))))
   < List.length (storedKeys (snd s)))%nat.
Proof.
  intros Hs (key & Hin & Hexp). destruct s as [w this].
  unfold removeExpired, bind, get_this. simpl in *.
  apply In_nth_error in Hin. destruct Hin as [j Hj].
  apply (removeExpired_loop_progress st _ 0 (w, this) Hs); [|simpl; lia].
  exists j, key. split; [lia|]. split; assumption.
Qed.

(** X7. On an instance with a backend on whose tracked keys [isExpired]
    does not throw, a sweep returns, and if some tracked key is expired it
    removes at least one key. *)
Theorem removeExpired_progress (w : World) (this : CacheManager) (st : Storage) :
  storage this = Some (Backend st) ->
  no_throw (w, this) ->
  fst (removeExpired (w, this)) = Return tt
  /\ ((exists key, In key (storedKeys this) /\ fst (isExpired key (w, this)) = Return true) ->
      (List.length (storedKeys (snd (snd (removeExpired (w, this)))))
       < List.length (storedKeys this))%nat).
Proof.
  intros Hst Hno.
  assert (Hs : sweepable st (w, this)) by (split; assumption).
  split.
  - unfold removeExpired, bind, get_this. simpl.
    apply (removeExpired_loop_returns st _ 0 (w, this) Hs).
  - intros Hsome. apply (removeExpired_removes st (w, this) Hs Hsome).
Qed.

Lemma sweepable_removeExpired (st : Storage) (s : state) :
  sweepable st s -> sweepable st (snd (removeExpired s)).
Proof.
  intros Hs. unfold removeExpired, bind, get_this. simpl.
  apply (removeExpired_loop_invariant (sweepable st)); [|exact Hs].
  intros s1 key H1 Hin Hexp. apply (sweepable_removeItem st s1 key H1 Hin Hexp).
Qed.

Lemma sweeps_idle (n : nat) (s : state) :
  (forall key, In key (storedKeys (snd s)) -> fst (isExpired key s) = Return false) ->
  sweeps n s = s.
Proof.
  intros Hfresh. induction n as [|n IH]; simpl; [reflexivity|].
  unfold removeExpired, bind, get_this. simpl.
  rewrite (removeExpired_loop_idle _ 0 s Hfresh). exact IH.
Qed.

Lemma fresh_or_expired (s : state) (keys : list string) :
  (forall key e, In key keys -> fst (isExpired key s) <> Throw e) ->
  (forall key, In key keys -> fst (isExpired key s) = Return false)
  \/ (exists key, In key keys /\ fst (isExpired key s) = Return true).
Proof.
  induction keys as [|k rest IH]; intros Hno; [left; intros key []|].
  destruct (fst (isExpired k s)) as [[|]|e] eqn:Ek.
  - right. exists k. split; [left; reflexivity|exact Ek].
  - destruct IH as [Hall|(key & Hin & Hexp)].
    + intros key e Hin. apply Hno. right. exact Hin.
    + left. intros key [->|Hin]; [exact Ek|apply Hall; exact Hin].
    + right. exists key. split; [right; exact Hin|exact Hexp].
  - exfalso. apply (Hno k e); [left; reflexivity|exact Ek].
Qed.

Lemma sweeps_converge (st : Storage) (n : nat) :
  forall s,
    sweepable st s ->
    (List.length (storedKeys (snd s)) <= n)%nat ->
    forall key, In key (storedKeys (snd (sweeps n s))) ->
                fst (isExpired key (sweeps n s)) = Return false.
Proof.
  induction n as [|n IH]; intros s Hs Hlen key Hin.
  - simpl in *. destruct (storedKeys (snd s)); [destruct Hin|simpl in Hlen; lia].
  - destruct (fresh_or_expired s (storedKeys (snd s)) (proj2 Hs)) as [Hall|Hsome].
    + rewrite (sweeps_idle (S n) s Hall) in *. apply Hall. exact Hin.
    + simpl in *. apply IH; [apply sweepable_removeExpired; exact Hs| |exact Hin].
      pose proof (removeExpired_removes st s Hs Hsome).
      simpl in *. lia.
Qed.

(** X8. On an instance with a backend on whose tracked keys [isExpired]
    does not throw, as many sweeps in a row as there are tracked keys leave
    no expired key among the tracked keys. *)
Theorem sweeps_leave_no_expired_key (w : World) (this : CacheManager) (st : Storage) :
  storage this = Some (Backend st) ->
  no_throw (w, this) ->
  let swept := sweeps (List.length (storedKeys this)) (w, this) in
  Forall (fun key => fst (isExpired key swept) = Return false) (storedKeys (snd swept)).
Proof.
  intros Hst Hno swept. apply Forall_forall. intros key Hin.
  apply (sweeps_converge st (List.length (storedKeys this)) (w, this));
    [split; assumption|simpl; lia|exact Hin].
Qed.

End Sweep.

Example alice_then_bob_tracked :
  storedKeys (snd alice_then_bob)
  = ["users_6384e2b2184bcbf58eccf10ca7a6563c"; "users_9f9d51bc70ef21ca5c14f307980a29d8"]
  /\ (fst alice_then_bob, snd alice_then_bob) = alice_then_bob.
Proof. vm_compute. split; reflexivity. Qed.

Lemma alice_then_bob_no_throw : no_throw (fst alice_then_bob, snd alice_then_bob).
Proof.
  intros key e Hin. rewrite (proj2 alice_then_bob_tracked).
  change (In key (storedKeys (snd alice_then_bob))) in Hin.
  rewrite (proj1 alice_then_bob_tracked) in Hin.
  destruct Hin as [<-|[<-|[]]]; vm_compute; discriminate.
Qed.

(** X6, on the entry of "bob", which the sweep at 2000 finds fresh. *)
Lemma removeExpired_keeps_fresh_witness :
  let key := "users_9f9d51bc70ef21ca5c14f307980a29d8" in
  let swept := snd (removeExpired (fst alice_then_bob, snd alice_then_bob)) in
  count_occ string_dec (storedKeys (snd swept)) key
  = count_occ string_dec (storedKeys (snd alice_then_bob)) key
  /\ storage_get MemoryStorage key (fst swept)
     = storage_get MemoryStorage key (fst alice_then_bob)
  /\ fst (isExpired key swept) = Return false.
Proof.
  apply (removeExpired_keeps_fresh (fst alice_then_bob) (snd alice_then_bob) MemoryStorage
           "users_9f9d51bc70ef21ca5c14f307980a29d8").
  - reflexivity.
  - rewrite (proj1 alice_then_bob_tracked). right. left. reflexivity.
  - vm_compute. reflexivity.
Defined.

(** X7, on the same state, where the entry of "alice" is expired. *)
Lemma removeExpired_progress_witness :
  fst (removeExpired (fst alice_then_bob, snd alice_then_bob)) = Return tt
  /\ (List.length (storedKeys
                     (snd (snd (removeExpired (fst alice_then_bob, snd alice_then_bob)))))
      < List.length (storedKeys (snd alice_then_bob)))%nat.
Proof.
  pose proof (removeExpired_progress (fst alice_then_bob) (snd alice_then_bob) MemoryStorage
                eq_refl alice_then_bob_no_throw) as [Hret Hless].
  split; [exact Hret|]. apply Hless.
  exists "users_6384e2b2184bcbf58eccf10ca7a6563c". split.
  - rewrite (proj1 alice_then_bob_tracked). left. reflexivity.
  - vm_compute. reflexivity.
Defined.

(** X8, on the same state: two sweeps. *)
Lemma sweeps_leave_no_expired_key_witness :
  let swept := sweeps (List.length (storedKeys (snd alice_then_bob)))
                 (fst alice_then_bob, snd alice_then_bob) in
  Forall (fun key => fst (isExpired key swept) = Return false) (storedKeys (snd swept)).
Proof.
  apply (sweeps_leave_no_expired_key (fst alice_then_bob) (snd alice_then_bob) MemoryStorage
           eq_refl alice_then_bob_no_throw).
Defined.

(* ================================================================== *)
(** ** Disposal, a second instance, entries that are no envelope *)

Lemma cancelled_keeps (handle : jsval) (w : World) :
  local_items (cancelled handle w) = local_items w
  /\ session_items (cancelled handle w) = session_items w
  /\ memory_items (cancelled handle w) = memory_items w
  /\ clock (cancelled handle w) = clock w
  /\ (forall id delay, In (id, delay) (timers (cancelled handle w)) <->
                       In (id, delay) (timers w) /\ handle <> JNum id).
Proof.
  assert (Hother : forall handle' : jsval,
             (forall z, handle' <> JNum z) ->
             forall id delay, In (id, delay) (timers w) <->
                              In (id, delay) (timers w) /\ handle' <> JNum id).
  { intros handle' Hne id delay. split; [intros Hin; split; [exact Hin|apply Hne]|tauto]. }
  destruct handle as [| | |z| | | |];
    try (repeat (split; [reflexivity|]); apply Hother; intros z0; discriminate).
  simpl. repeat (split; [reflexivity|]).
  intros id delay. rewrite filter_In. simpl. split.
  - intros [Hin Hne]. split; [exact Hin|].
    intros Heq. inversion Heq. subst. rewrite Z.eqb_refl in Hne. discriminate.
  - intros [Hin Hne]. split; [exact Hin|].
    destruct (id =? z) eqn:E; [|reflexivity].
    apply Z.eqb_eq in E. subst. contradiction Hne. reflexivity.
Qed.

Section Disposed.

Context {host : Host}.

Lemma destruct_state (w : World) (this : CacheManager) :
  destruct (w, this) = cancelled (interval this) (cancelled (interval this) w).
Proof.
  unfold destruct. unfold bind at 1 2, get_this. simpl.
  assert (Hclear : clearInterval (interval this) (w, this)
                   = (Return tt, (cancelled (interval this) w, this))).
  { unfold clearInterval, cancelled. destruct (interval this); reflexivity. }
  rewrite Hclear. rewrite set_expire_state. reflexivity.
Qed.

(** X9. [destruct()] stops the instance's sweep and nothing else: no timer
    goes by the instance's handle afterwards, every other timer still runs,
    and the three storages hold what they held. *)
Theorem destruct_effect (w : World) (this : CacheManager) :
  (forall id delay, In (id, delay) (timers (destruct (w, this))) <->
                    In (id, delay) (timers w) /\ interval this <> JNum id)
  /\ local_items (destruct (w, this)) = local_items w
  /\ session_items (destruct (w, this)) = session_items w
  /\ memory_items (destruct (w, this)) = memory_items w.
Proof.
  rewrite destruct_state.
  destruct (cancelled_keeps (interval this) w) as (Hl & Hs & Hm & _ & Ht).
  destruct (cancelled_keeps (interval this) (cancelled (interval this) w))
    as (Hl' & Hs' & Hm' & _ & Ht').
  split; [|split; [congruence|split; congruence]].
  intros id delay. rewrite Ht', Ht. tauto.
Qed.


Lemma storage_keys_frame (st : Storage) (w w' : World) :
  local_items w' = local_items w ->
  session_items w' = session_items w ->
  memory_items w' = memory_items w ->
  storage_keys st w' = storage_keys st w.
Proof. intros Hl Hs Hm. destruct st; simpl; rewrite ?Hl, ?Hs, ?Hm; reflexivity. Qed.


End Disposed.


Section Plain.

Context {host : Host}.

Lemma getItem_absent (w : World) (this : CacheManager) (st : Storage) (key : string) :
  storage this = Some (Backend st) ->
  storage_get st (getNamespaceKey this key) w = JNull ->
  getItem key (w, this) = (Return JNull, (w, this)).
Proof.
  intros Hst Hget. unfold getItem. unfold_monad. rewrite Hst. simpl. rewrite Hget.
  destruct (is_text (storageType this)); reflexivity.
Qed.

(** X11. [getItem] hands back what is no envelope as it is, and leaves the
    state alone: null for a key with no entry, and for an entry that is not
    an object with a property t the entry itself (parsed, on a text backend),
    whatever the ttl and the time. *)
Theorem getItem_without_envelope (w : World) (this : CacheManager) (st : Storage)
    (key : string) (obj : jsval) :
  storage this = Some (Backend st) ->
  (if is_text (storageType this)
   then storage_get st (getNamespaceKey this key) w = JNull /\ obj = JNull
        \/ exists text, storage_get st (getNamespaceKey this key) w = JStr text
                        /\ JSON_parse text = Some obj
   else storage_get st (getNamespaceKey this key) w = obj) ->
  obj <> JUndefined ->
  (forall fields, obj = JObj fields -> alist_get fields "t" = None) ->
  getItem key (w, this) = (Return obj, (w, this)).
Proof.
  intros Hst Hraw Hdef Hplain. unfold getItem. unfold_monad. rewrite Hst. simpl.
  destruct (is_text (storageType this)).
  - destruct Hraw as [[Hget ->]|(text & Hget & Hparse)]; rewrite Hget.
    + reflexivity.
    + unfold JSON_parse_value. simpl. rewrite Hparse. simpl.
      destruct obj as [| | | | | | |fields]; try reflexivity; [contradiction|].
      simpl. rewrite (Hplain fields eq_refl). reflexivity.
  - rewrite Hraw. simpl.
    destruct obj as [| | | | | | |fields]; try reflexivity; [contradiction|].
    simpl. rewrite (Hplain fields eq_refl). reflexivity.
Qed.

Lemma removeItem_derived_state (w : World) (this : CacheManager) (st : Storage)
    (key : string) :
  storage this = Some (Backend st) ->
  In (getNamespaceKey this key) (storedKeys this) ->
  removeItem key (w, this)
  = (Return tt,
     (storage_remove st (getNamespaceKey this key) w,
      with_storedKeys this
        (splice1 (storedKeys this)
           (Z.to_nat (indexOf (storedKeys this) (getNamespaceKey this key)))))).
Proof.
  intros Hst Hin. unfold removeItem. unfold_monad.
  rewrite (proj2 (indexOf_found _ _) Hin). simpl. rewrite Hst. reflexivity.
Qed.

(** X12. [setItem] appends the storage key at every write, and [removeItem]
    takes one occurrence away: after two writes of a key and one removal the
    entry has left the storage and [getItem] returns null, yet the storage
    key is still tracked. *)
Theorem overwrite_then_remove_leaves_key_tracked (w : World) (this : CacheManager)
    (st : Storage) (key : string) (v1 v2 : jsval) (t1 t2 : Z) :
  storage this = Some (Backend st) ->
  let storageKey := getNamespaceKey this key in
  let twice := snd (setItem key v2 (at_time t1 (snd (setItem key v1 (w, this))))) in
  let removed := snd (removeItem key (at_time t2 twice)) in
  count_occ string_dec (storedKeys (snd twice)) storageKey
  = S (S (count_occ string_dec (storedKeys this) storageKey))
  /\ In storageKey (storedKeys (snd removed))
  /\ storage_get st storageKey (fst removed) = JNull
  /\ fst (getItem key removed) = Return JNull.
Proof.
  intros Hst storageKey twice removed.
  set (this1 := with_storedKeys this (storedKeys this ++ [storageKey])).
  set (this2 := with_storedKeys this1 (storedKeys this1 ++ [storageKey])).
  assert (Hk1 : getNamespaceKey this1 key = storageKey)
    by apply getNamespaceKey_after_push.
  assert (Hk2 : getNamespaceKey this2 key = storageKey).
  { subst this2. rewrite <- Hk1 at 1. rewrite getNamespaceKey_after_push. exact Hk1. }
  assert (Htwice : exists w2, twice = (w2, this2)).
  { subst twice. rewrite (setItem_state w this st key v1 Hst). unfold at_time. simpl.
    fold storageKey. fold this1.
    rewrite (setItem_state _ this1 st key v2 Hst). rewrite Hk1. simpl.
    eexists. reflexivity. }
  destruct Htwice as [w2 Htwice].
  assert (Hcount : count_occ string_dec (storedKeys this2) storageKey
                   = S (S (count_occ string_dec (storedKeys this) storageKey))).
  { subst this2 this1. simpl. rewrite !count_occ_app. simpl.
    destruct (string_dec storageKey storageKey) as [_|n]; [lia|contradiction]. }
  assert (Hin2 : In storageKey (storedKeys this2)).
  { apply (count_occ_In string_dec). rewrite Hcount. lia. }
  assert (Hremoved : removed
                     = (storage_remove st storageKey (set_clock t2 w2),
                        with_storedKeys this2
                          (splice1 (storedKeys this2)
                             (Z.to_nat (indexOf (storedKeys this2) storageKey))))).
  { subst removed. rewrite Htwice. unfold at_time. simpl.
    rewrite (removeItem_derived_state _ this2 st key Hst); rewrite Hk2; [reflexivity|].
    exact Hin2. }
  set (this3 := with_storedKeys this2 _) in Hremoved.
  assert (Hcount3 : count_occ string_dec (storedKeys this3) storageKey
                    = S (count_occ string_dec (storedKeys this) storageKey)).
  { assert (Hkeys3 : storedKeys this3
                     = splice1 (storedKeys this2)
                         (Z.to_nat (indexOf (storedKeys this2) storageKey))) by reflexivity.
    rewrite Hkeys3. rewrite (splice1_count _ storageKey storageKey Hin2).
    destruct (string_dec storageKey storageKey) as [_|n]; [|contradiction].
    rewrite Hcount. reflexivity. }
  assert (Hin3 : In storageKey (storedKeys this3)).
  { apply (count_occ_In string_dec). rewrite Hcount3. lia. }
  assert (Hk3 : getNamespaceKey this3 key = storageKey).
  { destruct (in_dec string_dec key (storedKeys this3)) as [Hin|Hout].
    - rewrite (getNamespaceKey_tracked this3 key Hin).
      destruct (in_dec string_dec key (storedKeys this)) as [Hin0|Hout0].
      + subst storageKey. rewrite (getNamespaceKey_tracked this key Hin0). reflexivity.
      + assert (Hkeys3 : storedKeys this3
                         = splice1 (storedKeys this2)
                             (Z.to_nat (indexOf (storedKeys this2) storageKey)))
          by reflexivity.
        rewrite Hkeys3 in Hin. apply splice1_subset in Hin.
        assert (Hkeys2 : storedKeys this2 = (storedKeys this ++ [storageKey]) ++ [storageKey])
          by reflexivity.
        rewrite Hkeys2 in Hin.
        apply in_app_or in Hin. destruct Hin as [Hin|[Hin|[]]]; [|congruence].
        apply in_app_or in Hin. destruct Hin as [Hin|[Hin|[]]]; [contradiction|congruence].
    - rewrite (getNamespaceKey_untracked this3 key Hout).
      assert (Hout0 : ~ In key (storedKeys this)).
      { intros Hin0. apply Hout.
        assert (Hsame : storageKey = key)
          by (subst storageKey; apply getNamespaceKey_tracked; exact Hin0).
        rewrite <- Hsame. exact Hin3. }
      subst storageKey. rewrite (getNamespaceKey_untracked this key Hout0). reflexivity. }
  rewrite Htwice, Hremoved. simpl.
  split; [exact Hcount|]. split; [exact Hin3|].
  split; [apply storage_get_remove_same|].
  rewrite (getItem_absent _ this3 st key Hst); [reflexivity|].
  rewrite Hk3. apply storage_get_remove_same.
Qed.

End Plain.

(** X11, on a key with no entry. *)
Lemma getItem_without_envelope_witness :
  getItem "ghost" (empty_world, users LOCAL) = (Return JNull, (empty_world, users LOCAL)).
Proof.
  apply (getItem_without_envelope empty_world (users LOCAL) localStorage "ghost" JNull).
  - reflexivity.
  - left. split; reflexivity.
  - discriminate.
  - intros fields H. discriminate H.
Defined.

(** X12, on "alice" written at 0 and at 10 and removed at 20. *)
Lemma overwrite_then_remove_leaves_key_tracked_witness :
  let twice := snd (setItem "alice" (JNum 2)
                      (at_time 10 (snd (setItem "alice" alice (empty_world, users MEMORY))))) in
  let removed := snd (removeItem "alice" (at_time 20 twice)) in
  count_occ string_dec (storedKeys (snd twice)) (getNamespaceKey (users MEMORY) "alice")
  = S (S (count_occ string_dec (storedKeys (users MEMORY))
            (getNamespaceKey (users MEMORY) "alice")))
  /\ In (getNamespaceKey (users MEMORY) "alice") (storedKeys (snd removed))
  /\ storage_get MemoryStorage (getNamespaceKey (users MEMORY) "alice") (fst removed) = JNull
  /\ fst (getItem "alice" removed) = Return JNull.
Proof.
  apply (overwrite_then_remove_leaves_key_tracked empty_world (users MEMORY) MemoryStorage
           "alice" alice (JNum 2) 10 20).
  reflexivity.
Defined.

(* ================================================================== *)
(** * More properties of [recurseObjectByPath] *)

Module ObjectUtilsMore.
Import ObjectUtils.

Lemma prefix_spec (a s : string) : prefix a s = true <-> exists b, s = (a ++ b)%string.
Proof.
  revert s. induction a as [|x a IH]; intros s.
  - split; [intros _; exists s; reflexivity|intros _; destruct s; reflexivity].
  - destruct s as [|y s]; simpl.
    + split; [discriminate|intros [b Hb]; discriminate Hb].
    + destruct (ascii_dec x y) as [->|Hne].
      * rewrite IH. split; intros [b Hb]; exists b; [rewrite Hb; reflexivity|].
        inversion Hb. reflexivity.
      * split; [discriminate|]. intros [b Hb]. simpl in Hb. congruence.
Qed.

Lemma contains_spec (pat s : string) :
  contains pat s = true <-> exists a b, s = (a ++ pat ++ b)%string.
Proof.
  induction s as [|c s IH].
  - change (contains pat "") with (prefix pat "" || false).
    rewrite orb_false_r. rewrite prefix_spec. split.
    + intros [b Hb]. exists "", b. exact Hb.
    + intros (a & b & H). destruct a as [|x a]; [exists b; exact H|discriminate H].
  - change (contains pat (String c s)) with (prefix pat (String c s) || contains pat s).
    rewrite orb_true_iff. rewrite prefix_spec, IH. split.
    + intros [[b Hb]|(a & b & H)].
      * exists "", b. exact Hb.
      * exists (String c a), b. simpl. rewrite H. reflexivity.
    + intros (a & b & H). destruct a as [|x a].
      * left. exists b. exact H.
      * right. simpl in H. inversion H. exists a, b. reflexivity.
Qed.

(** X13. [isPrototypePolluted] refuses exactly the keys in which one of
    "__proto__", "constructor" and "prototype" occurs somewhere: the test is
    for a substring, so a key that only contains such a word, like
    "constructors", is refused as well. *)
Theorem isPrototypePolluted_substring (key : string) :
  isPrototypePolluted key = true
  <-> exists word before after,
        In word ["__proto__"; "constructor"; "prototype"]
        /\ key = (before ++ word ++ after)%string.
Proof.
  unfold isPrototypePolluted. rewrite !orb_true_iff, !contains_spec. split.
  - intros [[(a & b & H)|(a & b & H)]|(a & b & H)].
    + exists "__proto__", a, b. split; [left; reflexivity|exact H].
    + exists "constructor", a, b. split; [right; left; reflexivity|exact H].
    + exists "prototype", a, b. split; [right; right; left; reflexivity|exact H].
  - intros (word & a & b & Hin & H).
    destruct Hin as [<-|[<-|[<-|[]]]]; [left; left|left; right|right]; exists a, b; exact H.
Qed.

Lemma recurse_descend (child leaf : string -> jsval -> jsval) (fuel : nat) :
  forall (parts : list string) (source : jsval),
    parts <> [] ->
    (List.length parts <= fuel)%nat ->
    exists result,
      recurse fuel (descend child leaf) parts source
      = (Some (Return result), clean_prefix parts)
      /\ (Exists (fun key => isPrototypePolluted key = true) parts -> result = JUndefined).
Proof.
  induction fuel as [|fuel IH]; intros parts source Hne Hlen.
  - destruct parts; [contradiction|simpl in Hlen; lia].
  - destruct parts as [|key rest]; [contradiction|]. simpl.
    destruct (isPrototypePolluted key) eqn:Ekey.
    + exists JUndefined. split; reflexivity.
    + destruct rest as [|next rest'].
      * simpl. exists (leaf key source). split; [reflexivity|].
        intros Hex. inversion Hex as [? ? Hk|? ? Hk]; subst; [congruence|inversion Hk].
      * unfold descend at 2.
        destruct (IH (next :: rest') (child key source)) as (result & Hrun & Hpolluted);
          [discriminate|simpl in *; lia|].
        rewrite Hrun. exists result. split; [simpl; rewrite app_nil_r; reflexivity|].
        intros Hex. apply Hpolluted.
        inversion Hex as [? ? Hk|? ? Hk]; subst; [congruence|exact Hk].
Qed.

(** X14. With a callback that descends along the path, [recurseObjectByPath]
    needs no more calls of [recurse] than the path has segments: it returns,
    it has invoked the callback, in order, with the segments ahead of the
    first refused one, and it returns undefined when a segment is refused.
    On the empty path the callback is invoked once, with the empty key, and its
    answer is returned. *)
Theorem recurseObjectByPath_descends (child leaf : string -> jsval -> jsval)
    (obj : jsval) (path : string) (fuel : nat) :
  (List.length (pathParts path) < fuel)%nat ->
  (path <> "" ->
   exists result,
     recurseObjectByPath fuel obj path (descend child leaf)
     = (Some (Return result), clean_prefix (pathParts path))
     /\ (Exists (fun key => isPrototypePolluted key = true) (pathParts path) ->
         result = JUndefined))
  /\ (path = "" ->
      recurseObjectByPath fuel obj path (descend child leaf)
      = (Some (Return (leaf "" obj)), [""])).
Proof.
  intros Hfuel. unfold recurseObjectByPath. split.
  - intros Hne. apply recurse_descend; [|lia].
    destruct path as [|c path]; [contradiction|]. unfold pathParts.
    generalize (@nil ascii).
    induction (list_ascii_of_string (String c path)) as [|x xs IHx]; intros acc; simpl.
    + discriminate.
    + destruct (N_of_ascii x =? 46)%N; [discriminate|apply IHx].
  - intros ->. destruct fuel as [|fuel]; [simpl in Hfuel; lia|]. reflexivity.
Qed.

End ObjectUtilsMore.

(** X13, on the key "constructors". *)
Lemma isPrototypePolluted_substring_witness :
  ObjectUtils.isPrototypePolluted "constructors" = true.
Proof.
  apply (proj2 (ObjectUtilsMore.isPrototypePolluted_substring "constructors")).
  exists "constructor", "", "s". split; [right; left; reflexivity|reflexivity].
Defined.

(** X14, on the path a.b.__proto__.c through nested objects. *)
Lemma recurseObjectByPath_descends_witness :
  exists result,
    ObjectUtils.recurseObjectByPath 5 (JObj []) "a.b.__proto__.c"
      (descend (fun _ source => source) (fun _ source => source))
    = (Some (Return result), clean_prefix (ObjectUtils.pathParts "a.b.__proto__.c"))
    /\ (Exists (fun key => ObjectUtils.isPrototypePolluted key = true)
          (ObjectUtils.pathParts "a.b.__proto__.c") -> result = JUndefined).
Proof.
  apply (proj1 (ObjectUtilsMore.recurseObjectByPath_descends
                  (fun _ source => source) (fun _ source => source)
                  (JObj []) "a.b.__proto__.c" 5 ltac:(vm_compute; lia))).
  discriminate.
Defined.

(* ================================================================== *)
(** * form-validate: [isAllDigits] *)

Module FormValidateFacts.
Import FormValidate.

Lemma digits_to_end_spec (s : string) :
  digits_to_end s = true <-> Forall (fun c => is_digit c = true) (list_ascii_of_string s).
Proof.
  induction s as [|c s IH]; simpl.
  - split; [constructor|reflexivity].
  - rewrite andb_true_iff, IH. split.
    + intros [Hc Hs]. constructor; assumption.
    + intros H. inversion H. subst. split; assumption.
Qed.

(** X15. For a string, [isAllDigits] is true exactly when the string is not
    empty and each of its characters is one of 0 to 9: a sign, a decimal
    point, a blank or a line end anywhere makes it false, leading zeros do
    not. *)
Theorem isAllDigits_string (s : string) :
  isAllDigits (JStr s) = true
  <-> s <> "" /\ Forall (fun c => is_digit c = true) (list_ascii_of_string s).
Proof.
  unfold isAllDigits. simpl. destruct s as [|c s]; simpl.
  - split; [discriminate|intros [H _]; contradiction].
  - rewrite andb_true_iff, digits_to_end_spec. split.
    + intros [Hc Hs]. split; [discriminate|constructor; assumption].
    + intros [_ H]. inversion H. subst. split; assumption.
Qed.

Lemma string_of_uint_digits (d : Decimal.uint) :
  digits_to_end (NilEmpty.string_of_uint d) = true.
Proof. induction d; simpl; try reflexivity; exact IHd. Qed.

Lemma numeral_of_positive (p : positive) :
  allDigitRegex_test (string_of_Z (Z.pos p)) = true.
Proof.
  unfold string_of_Z. simpl. unfold NilZero.string_of_uint.
  pose proof (DecimalPos.Unsigned.to_uint_nonnil p) as Hnil.
  pose proof (string_of_uint_digits (Pos.to_uint p)) as Hd.
  destruct (Pos.to_uint p); try contradiction; simpl in *; exact Hd.
Qed.

(** X16. For an integer z that JavaScript prints as a decimal numeral,
    [isAllDigits(z)] is true exactly when z is positive: a negative number
    fails on its sign and 0 fails for being falsy.  The numeral of a
    non-negative z passes as a string, and so does the one-element array
    [[z]], for 0 as well. *)
Theorem isAllDigits_number (z : Z) :
  - 10 ^ 21 < z < 10 ^ 21 ->
  isAllDigits (JNum z) = (0 <? z)
  /\ (0 <= z -> isAllDigits (JStr (ToString (JNum z))) = true
                /\ isAllDigits (JArr [JNum z]) = true).
Proof.
  intros _. split.
  - unfold isAllDigits. destruct z as [|p|p]; simpl.
    + reflexivity.
    + apply numeral_of_positive.
    + reflexivity.
  - intros Hz.
    assert (Hnum : allDigitRegex_test (string_of_Z z) = true).
    { destruct z as [|p|p]; [reflexivity|apply numeral_of_positive|lia]. }
    unfold isAllDigits. simpl. split; [|exact Hnum].
    destruct (String.eqb (string_of_Z z) "") eqn:E; [|exact Hnum].
    apply String.eqb_eq in E. rewrite E in Hnum. discriminate Hnum.
Qed.

End FormValidateFacts.

(** X15, on "007" and on "-7". *)
Lemma isAllDigits_string_witness :
  FormValidate.isAllDigits (JStr "007") = true
  /\ FormValidate.isAllDigits (JStr "-7") = false.
Proof.
  split.
  - apply (proj2 (FormValidateFacts.isAllDigits_string "007")).
    split; [discriminate|repeat constructor].
  - reflexivity.
Defined.

(** X16, on 0 and on 42. *)
Lemma isAllDigits_number_witness :
  FormValidate.isAllDigits (JNum 0) = false
  /\ FormValidate.isAllDigits (JArr [JNum 0]) = true
  /\ FormValidate.isAllDigits (JNum 42) = true.
Proof.
  assert (H0 : - 10 ^ 21 < 0 < 10 ^ 21) by (vm_compute; split; reflexivity).
  assert (H42 : - 10 ^ 21 < 42 < 10 ^ 21) by (vm_compute; split; reflexivity).
  split; [exact (proj1 (FormValidateFacts.isAllDigits_number 0 H0))|].
  split; [apply (proj2 (FormValidateFacts.isAllDigits_number 0 H0)); lia|].
  exact (proj1 (FormValidateFacts.isAllDigits_number 42 H42)).
Defined.

(* ================================================================== *)
(** * router: [matchBestPath] *)

Module MatchRouteFacts.
Import MatchRoute.

Section PathUtils.

Variable cleanPath : string -> string.
Variable removeTrailingSlash : string -> string.
Variable getPathSegments : string -> list string.
Variable matchingSegmentsCount : list string -> list string -> Z.

Local Abbreviation cleaned := (cleaned cleanPath removeTrailingSlash).
Local Abbreviation inexact := (inexact cleanPath removeTrailingSlash).
Local Abbreviation loop :=
  (matchBestPath_loop cleanPath removeTrailingSlash getPathSegments matchingSegmentsCount).
Local Abbreviation matchBestPath :=
  (matchBestPath cleanPath removeTrailingSlash getPathSegments matchingSegmentsCount).
Local Abbreviation score := (score getPathSegments matchingSegmentsCount).

Lemma loop_turn (target : string) (route : Route) (rest stack : list Route) :
  loop target (route :: rest) stack
  = if String.eqb target (path (cleaned route))
    then (push (shift stack) (cleaned route), cleaned route :: rest)
    else
      let stack' :=
        if regex route target then
          match stack with
          | [] => [cleaned route]
          | last :: _ =>
              if score target (cleaned route) >? score target last
              then push (shift stack) (cleaned route)
              else stack
          end
        else stack in
      (fst (loop target rest stack'), cleaned route :: snd (loop target rest stack')).
Proof.
  simpl. destruct (String.eqb target (removeTrailingSlash (cleanPath (path route))));
    [reflexivity|].
  cbv zeta.
  match goal with |- (let (_, _) := ?l in _) = _ => rewrite (surjective_pairing l) end.
  destruct (regex route target); [destruct stack|]; reflexivity.
Qed.

Lemma push_shift (stack : list Route) (route : Route) :
  (List.length stack <= 1)%nat -> push (shift stack) route = [route].
Proof. destruct stack as [|a [|b stack]]; simpl; intros H; try lia; reflexivity. Qed.

Lemma push_nonempty (stack : list Route) (route : Route) : push stack route <> [].
Proof. unfold push. destruct stack; discriminate. Qed.

Lemma loop_empty (target : string) (routes : list Route) :
  forall stack,
    fst (loop target routes stack) = []
    <-> stack = []
        /\ Forall (fun route => inexact target route /\ regex route target = false) routes.
Proof.
  unfold MatchRoute.inexact.
  induction routes as [|route rest IH]; intros stack.
  - simpl. split; [intros H; split; [exact H|constructor]|intros [H _]; exact H].
  - rewrite loop_turn.
    destruct (String.eqb target (path (cleaned route))) eqn:Eexact.
    + cbn [fst]. split.
      * intros H. apply push_nonempty in H. contradiction.
      * intros [_ H]. inversion H as [|? ? [Hne _] _]. congruence.
    + cbv zeta. cbn [fst]. rewrite IH.
      destruct (regex route target) eqn:Ere.
      * split.
        -- intros [H _]. destruct stack as [|last stack0]; [discriminate H|].
           destruct (score target (cleaned route) >? score target last);
             [apply push_nonempty in H; contradiction|discriminate H].
        -- intros [_ H]. inversion H as [|? ? [_ Hre] _]. congruence.
      * split.
        -- intros [Hs Hall]. split; [exact Hs|].
           constructor; [split; assumption|exact Hall].
        -- intros [Hs Hall]. split; [exact Hs|]. inversion Hall. assumption.
Qed.

Lemma loop_exact (target : string) (before : list Route) (route : Route) (after : list Route) :
  Forall (inexact target) before ->
  String.eqb target (path (cleaned route)) = true ->
  forall stack, (List.length stack <= 1)%nat ->
    loop target (before ++ route :: after) stack
    = ([cleaned route], map cleaned before ++ cleaned route :: after).
Proof.
  unfold MatchRoute.inexact.
  intros Hbefore Hexact. induction before as [|r before IH]; intros stack Hlen.
  - change ([] ++ route :: after) with (route :: after).
    rewrite loop_turn, Hexact, (push_shift _ _ Hlen). reflexivity.
  - change ((r :: before) ++ route :: after) with (r :: (before ++ route :: after)).
    inversion Hbefore as [|? ? Hr Hrest]. subst.
    rewrite loop_turn, Hr. cbv zeta.
    rewrite (IH Hrest); [reflexivity|].
    destruct (regex r target); [|exact Hlen].
    destruct stack as [|last stack0]; [simpl; lia|].
    destruct (score target (cleaned r) >? score target last); [|exact Hlen].
    rewrite (push_shift _ _ Hlen). simpl. lia.
Qed.

Lemma loop_routes (target : string) (routes : list Route) :
  Forall (inexact target) routes ->
  forall stack, snd (loop target routes stack) = map cleaned routes.
Proof.
  unfold MatchRoute.inexact.
  induction routes as [|r routes IH]; intros Hall stack; [reflexivity|].
  inversion Hall as [|? ? Hr Hrest]. subst.
  rewrite loop_turn, Hr. cbv zeta. cbn [snd]. rewrite (IH Hrest). reflexivity.
Qed.

Lemma loop_best (target : string) (routes : list Route) :
  Forall (inexact target) routes ->
  forall stack, stack = [] \/ (exists last, stack = [last]) ->
  forall m, hd_error (fst (loop target routes stack)) = Some m ->
    (stack = [m]
     /\ Forall (fun r => regex r target = true ->
                         score target (cleaned r) <= score target m) routes)
    \/ (exists before r0 after,
          routes = before ++ r0 :: after
          /\ m = cleaned r0
          /\ regex r0 target = true
          /\ Forall (fun r => regex r target = true ->
                              score target (cleaned r) < score target m) before
          /\ (forall last, stack = [last] -> score target last < score target m)
          /\ Forall (fun r => regex r target = true ->
                              score target (cleaned r) <= score target m) after).
Proof.
  unfold MatchRoute.inexact.
  induction routes as [|r routes IH]; intros Hall stack Hstack m Hm.
  - simpl in Hm. left. destruct Hstack as [->|[last ->]]; [discriminate Hm|].
    simpl in Hm. injection Hm as ->. split; [reflexivity|constructor].
  - inversion Hall as [|? ? Hr Hrest]. subst.
    rewrite loop_turn, Hr in Hm. cbv zeta in Hm. cbn [fst] in Hm.
    destruct (regex r target) eqn:Ere.
    + (* the route matches *)
      assert (Hstep : exists top,
                 hd_error (fst (loop target routes [top])) = Some m
                 /\ ((top = cleaned r
                      /\ forall last, stack = [last] -> score target last < score target top)
                     \/ (stack = [top] /\ score target (cleaned r) <= score target top))).
      { destruct Hstack as [->|[last ->]].
        - exists (cleaned r). split; [exact Hm|].
          left. split; [reflexivity|]. intros last Hl. discriminate Hl.
        - destruct (score target (cleaned r) >? score target last) eqn:Egt.
          + exists (cleaned r). split; [exact Hm|].
            left. split; [reflexivity|]. intros l Hl. injection Hl as <-. lia.
          + exists last. split; [exact Hm|].
            right. split; [reflexivity|]. lia. }
      destruct Hstep as [top [Hrun Hcase]].
      destruct (IH Hrest [top] (or_intror (ex_intro _ top eq_refl)) m Hrun)
        as [[Htop Hle]|[before [r0 [after [Hsplit [Hm0 [Hre0 [Hlt [Hlast Hafter]]]]]]]]].
      * injection Htop as ->.
        destruct Hcase as [[-> Hprev]|[-> Hscore]].
        -- right. exists [], r, routes.
           split; [reflexivity|]. split; [reflexivity|]. split; [exact Ere|].
           split; [constructor|]. split; [exact Hprev|exact Hle].
        -- left. split; [reflexivity|]. constructor; [intros _; exact Hscore|exact Hle].
      * right. specialize (Hlast top eq_refl).
        exists (r :: before), r0, after. split; [rewrite Hsplit; reflexivity|].
        split; [exact Hm0|]. split; [exact Hre0|].
        destruct Hcase as [[-> Hprev]|[-> Hscore]].
        -- split; [constructor; [intros _; exact Hlast|exact Hlt]|].
           split; [|exact Hafter].
           intros last Hl. specialize (Hprev last Hl). lia.
        -- split; [constructor; [intros _; lia|exact Hlt]|].
           split; [|exact Hafter].
           intros last Hl. injection Hl as <-. exact Hlast.
    + (* the route does not match *)
      destruct (IH Hrest stack Hstack m Hm)
        as [[Hs Hle]|[before [r0 [after [Hsplit [Hm0 [Hre0 [Hlt [Hlast Hafter]]]]]]]]].
      * left. split; [exact Hs|]. constructor; [intros H; congruence|exact Hle].
      * right. exists (r :: before), r0, after.
        split; [rewrite Hsplit; reflexivity|].
        split; [exact Hm0|]. split; [exact Hre0|].
        split; [constructor; [intros H; congruence|exact Hlt]|].
        split; assumption.
Qed.

(** X17. [matchBestPath] returns null exactly when no route of the list has
    the cleaned target as its cleaned path and no route's expression matches
    the cleaned target. *)
Theorem matchBestPath_null (_path : string) (routes : list Route) :
  let target := removeTrailingSlash (cleanPath _path) in
  fst (matchBestPath _path routes) = None
  <-> Forall (fun route => String.eqb target (path (cleaned route)) = false
                           /\ regex route target = false) routes.
Proof.
  intros target. unfold MatchRoute.matchBestPath. fold target.
  pose proof (loop_empty target routes []) as H.
  destruct (loop target routes []) as [stack routes'] eqn:El. simpl in *.
  split.
  - intros Hnone. apply H. destruct stack; [reflexivity|discriminate Hnone].
  - intros Hall. destruct H as [_ H]. rewrite (H (conj eq_refl Hall)). reflexivity.
Qed.

(** X18. The first route whose cleaned path equals the cleaned target is the
    answer, whatever routes come before it and whatever their expressions
    match; the routes up to and including it are left with their paths
    cleaned, and the routes after it are not looked at. *)
Theorem matchBestPath_exact_match_wins
    (_path : string) (before : list Route) (route : Route) (after : list Route) :
  let target := removeTrailingSlash (cleanPath _path) in
  Forall (fun r => String.eqb target (path (cleaned r)) = false) before ->
  String.eqb target (path (cleaned route)) = true ->
  matchBestPath _path (before ++ route :: after)
  = (Some (cleaned route), map cleaned before ++ cleaned route :: after).
Proof.
  intros target Hbefore Hexact. unfold MatchRoute.matchBestPath. fold target.
  rewrite (loop_exact target before route after Hbefore Hexact []); [reflexivity|].
  simpl. lia.
Qed.

(** X19. When no route's cleaned path equals the cleaned target, every route
    is left with its path cleaned, and a returned route is one whose
    expression matches the target, shares strictly more leading segments
    with the target than every matching route before it and at least as
    many as every matching route after it. *)
Theorem matchBestPath_best_match (_path : string) (routes : list Route) (m : Route) :
  let target := removeTrailingSlash (cleanPath _path) in
  Forall (fun r => String.eqb target (path (cleaned r)) = false) routes ->
  fst (matchBestPath _path routes) = Some m ->
  snd (matchBestPath _path routes) = map cleaned routes
  /\ exists before r0 after,
       routes = before ++ r0 :: after
       /\ m = cleaned r0
       /\ regex r0 target = true
       /\ Forall (fun r => regex r target = true ->
                           score target (cleaned r) < score target m) before
       /\ Forall (fun r => regex r target = true ->
                           score target (cleaned r) <= score target m) after.
Proof.
  intros target Hall Hm. unfold MatchRoute.matchBestPath in *. fold target in Hm |- *.
  pose proof (loop_routes target routes Hall []) as Hroutes.
  pose proof (loop_best target routes Hall [] (or_introl eq_refl) m) as Hbest.
  destruct (loop target routes []) as [stack routes'] eqn:El. simpl in *.
  split; [exact Hroutes|].
  destruct (Hbest Hm)
    as [[Hs _]|[before [r0 [after [Hsplit [Hm0 [Hre0 [Hlt [_ Hafter]]]]]]]]].
  - discriminate Hs.
  - exists before, r0, after. repeat split; assumption.
Qed.

End PathUtils.

End MatchRouteFacts.

(** X18, on a target that a catch-all route before the exact one matches as
    well. *)
Lemma matchBestPath_exact_match_wins_witness :
  MatchRoute.matchBestPath as_is as_is whole same_segments
    "/user" [any_route; user_route; home_route]
  = (Some user_route, [any_route; user_route; home_route]).
Proof.
  refine (MatchRouteFacts.matchBestPath_exact_match_wins as_is as_is whole same_segments
            "/user" [any_route] user_route [home_route] _ _).
  - repeat constructor.
  - reflexivity.
Defined.

(** X19, on a target that two routes match and none equals. *)
Lemma matchBestPath_best_match_witness :
  let cleaned := MatchRoute.cleaned as_is as_is in
  let score := MatchRoute.score whole same_segments "/user/7" in
  snd (MatchRoute.matchBestPath as_is as_is whole same_segments
         "/user/7" [home_route; any_route; user_route])
  = map cleaned [home_route; any_route; user_route]
  /\ exists before r0 after,
       [home_route; any_route; user_route] = before ++ r0 :: after
       /\ any_route = cleaned r0
       /\ MatchRoute.regex r0 "/user/7" = true
       /\ Forall (fun r => MatchRoute.regex r "/user/7" = true ->
                    score (cleaned r) < score any_route) before
       /\ Forall (fun r => MatchRoute.regex r "/user/7" = true ->
                    score (cleaned r) <= score any_route) after.
Proof.
  apply (MatchRouteFacts.matchBestPath_best_match as_is as_is whole same_segments
           "/user/7" [home_route; any_route; user_route] any_route).
  - repeat constructor.
  - reflexivity.
Defined.
